(** * Shard placement engine of m3cluster: a shallow embedding of
    [placement/algo] (helper and mark-available code) and its properties.

    Go values of interface type ([placement.Instance], [shard.Shards]) are
    pointers: the code mutates them in place and relies on the mutation
    being visible through every alias.  The embedding therefore keeps an
    explicit store of instance objects, addressed by locations, and passes
    it through every function that the source lets mutate an instance. *)

From Stdlib Require Import ZArith Lia Bool PrimFloat Uint63 SpecFloat FloatOps FloatAxioms.
From stdpp Require Import base gmap strings list.

Open Scope Z_scope.

(** ** Machine integers *)

(** Go's [uint32]: a [Z] in [0, 2^32), arithmetic wraps around. *)
Definition u32 (z : Z) : Z := z mod 2 ^ 32.

(** Go's [int] on 64-bit targets: a [Z] in [-2^63, 2^63), two's complement. *)
Definition i64 (z : Z) : Z := (z + 2 ^ 63) mod 2 ^ 64 - 2 ^ 63.

(** ** Package [shard] *)

Module shard.

Inductive State := Unknown | Initializing | Available | Leaving.

#[global] Instance State_eq_dec : EqDecision State.
Proof. solve_decision. Defined.

(** Modelled from the spec: the [shard.Shard] object (section 3, "Shard"):
    a uint32 id, a state, the id of the instance it is handed off from
    (the empty string when none) and the two timestamps. *)
Record Shard := mkShard {
  s_id : Z;
  s_state : State;
  s_sourceID : string;
  s_cutoverNanos : Z;
  s_cutoffNanos : Z
}.

#[global] Instance Shard_eq_dec : EqDecision Shard.
Proof. solve_decision. Defined.

(** Modelled from the spec: "Construction yields a Shard with state Unknown
    and empty sourceID" (section 4.A). *)
Definition NewShard (id : Z) : Shard := mkShard id Unknown "" 0 0.

Definition SetState (st : State) (s : Shard) : Shard :=
  mkShard (s_id s) st (s_sourceID s) (s_cutoverNanos s) (s_cutoffNanos s).
Definition SetSourceID (src : string) (s : Shard) : Shard :=
  mkShard (s_id s) (s_state s) src (s_cutoverNanos s) (s_cutoffNanos s).
Definition SetCutoverNanos (t : Z) (s : Shard) : Shard :=
  mkShard (s_id s) (s_state s) (s_sourceID s) t (s_cutoffNanos s).
Definition SetCutoffNanos (t : Z) (s : Shard) : Shard :=
  mkShard (s_id s) (s_state s) (s_sourceID s) (s_cutoverNanos s) t.

(** Modelled from the spec: the [shard.Shards] collection (section 3,
    "ShardSet"): an ordered collection enumerated in insertion order, with
    lookup, add and remove by id.  Adding a shard whose id is present
    replaces the stored shard (the set is an id -> shard mapping). *)
Abbreviation Shards := (list Shard) (only parsing).

Fixpoint Lookup (ss : Shards) (id : Z) : option Shard :=
  match ss with
  | [] => None
  | s :: ss' => if decide (s_id s = id) then Some s else Lookup ss' id
  end.

Fixpoint Add (s : Shard) (ss : Shards) : Shards :=
  match ss with
  | [] => [s]
  | s' :: ss' => if decide (s_id s' = s_id s) then s :: ss' else s' :: Add s ss'
  end.

Definition Remove (id : Z) (ss : Shards) : Shards :=
  filter (fun s => s_id s ≠ id) ss.

Definition All (ss : Shards) : list Shard := ss.

Definition ShardsForState (st : State) (ss : Shards) : list Shard :=
  filter (fun s => s_state s = st) ss.

Definition NumShards (ss : Shards) : Z := Z.of_nat (length ss).

(** "Within one set, shard ids are unique." *)
Definition wfShards (ss : Shards) : Prop := NoDup (s_id <$> ss).

Definition NumShardsForState (st : State) (ss : Shards) : Z :=
  Z.of_nat (length (ShardsForState st ss)).

End shard.

Import shard.

(** ** Package [placement] *)

Module placement.

(** Modelled from the spec: the [placement.Instance] object (section 3,
    "Instance"): id, rack, zone, uint32 weight and its shard set. *)
Record Instance := mkInstance {
  i_id : string;
  i_rack : string;
  i_zone : string;
  i_weight : Z;
  i_shards : Shards
}.

Definition SetShards (ss : Shards) (i : Instance) : Instance :=
  mkInstance (i_id i) (i_rack i) (i_zone i) (i_weight i) ss.

(** Modelled from the spec: "isLeaving = every shard the instance owns is in
    state Leaving (and the set is non-empty)". *)
Definition IsLeaving (i : Instance) : bool :=
  bool_decide (i_shards i ≠ [] ∧ Forall (fun s => s_state s = Leaving) (i_shards i)).

(** Instance objects live in a store and are referred to by location. *)
Abbreviation loc := nat (only parsing).
Abbreviation Store := (list Instance) (only parsing).

(** Modelled from the spec: the [placement.Placement] value (section 3,
    "Placement").  The instance list holds references: the instances of a
    placement are shared with whoever else holds them. *)
Record Placement := mkPlacement {
  p_instances : list loc;
  p_shards : list Z;
  p_replicaFactor : Z;
  p_isSharded : bool;
  p_isMirrored : bool;
  p_cutoverNanos : Z
}.

(** [p.SetInstances(l)]: "writers return a new Placement". *)
Definition SetInstances (l : list loc) (p : Placement) : Placement :=
  mkPlacement l (p_shards p) (p_replicaFactor p) (p_isSharded p)
              (p_isMirrored p) (p_cutoverNanos p).

Definition hasID (σ : Store) (id : string) (l : loc) : Prop :=
  i_id <$> (σ !! l) = Some id.

#[global] Instance hasID_dec σ id l : Decision (hasID σ id l).
Proof. unfold hasID. apply _. Defined.

(** [p.Instance(id)]: the instance of that id, when the placement has one. *)
Definition FindInstance (σ : Store) (p : Placement) (id : string) : option loc :=
  list_find (hasID σ id) (p_instances p) ≫= (fun '(_, l) => Some l).

(** The callbacks and switches of [placement.Options] that this file reads.
    A clock callback is represented by the value it returns. *)
Inductive error :=
| errInstanceNotExist (instanceID : string)
| errShardNotExist (shardID : Z) (instanceID : string)
| errShardNotInitializing (shardID : Z)
| errSourceInstanceNotExist (sourceID : string) (shardID : Z)
| errShardNotExistInSource (shardID : Z) (sourceID : string)
| errShardNotLeaving (shardID : Z) (sourceID : string)
| errNotEnoughRacks
| errCallback (msg : string).

Record Options := mkOptions {
  LooseRackCheck : bool;
  IsMirrored : bool;
  ShardCutoffNanosFn : Z;
  ShardCutoverNanosFn : Z;
  PlacementCutoverNanosFn : Z;
  IsShardCutoverFn : option (Shard -> option error);
  IsShardCutoffFn : option (Shard -> option error)
}.

End placement.

Import placement.

(** Results of functions that return [(value, error)]. *)
Inductive result (A : Type) :=
| Ok (a : A)
| Err (e : error).
Arguments Ok {A} a.
Arguments Err {A} e.

(** ** Package [algo] *)

Module algo.

(** In-place update of the shard set of the instance at [l]. *)
Definition updShards (l : loc) (f : Shards -> Shards) (σ : Store) : Store :=
  match σ !! l with
  | Some i => <[l := SetShards (f (i_shards i)) i]> σ
  | None => σ
  end.

Definition shardsOf (σ : Store) (l : loc) : Shards :=
  default [] (i_shards <$> σ !! l).
Definition idOf (σ : Store) (l : loc) : string :=
  default "" (i_id <$> σ !! l).
Definition rackOf (σ : Store) (l : loc) : string :=
  default "" (i_rack <$> σ !! l).
Definition weightOf (σ : Store) (l : loc) : Z :=
  default 0 (i_weight <$> σ !! l).
Definition isLeavingAt (σ : Store) (l : loc) : bool :=
  default false (IsLeaving <$> σ !! l).

(** [removeInstanceFromList]: the first entry with the given id is
    overwritten by the last entry and the slice is shortened by one. *)
Definition removeInstanceFromList (σ : Store) (instances : list loc)
    (instanceID : string) : list loc :=
  match list_find (hasID σ instanceID) instances with
  | Some (i, _) =>
      match last instances with
      | Some lst => take (length instances - 1) (<[i := lst]> instances)
      | None => instances
      end
  | None => instances
  end.

Definition runCallback (fn : option (Shard -> option error)) (s : Shard) : option error :=
  match fn with
  | Some f => f s
  | None => None
  end.

(** [markShardAvailable]: returns the store as the call leaves it together
    with the returned pair; the returned placement is [nil] on error. *)
Definition markShardAvailable (p : Placement) (instanceID : string) (shardID : Z)
    (opts : Options) (σ : Store) : Store * result Placement :=
  match FindInstance σ p instanceID with
  | None => (σ, Err (errInstanceNotExist instanceID))
  | Some instance =>
    match Lookup (shardsOf σ instance) shardID with
    | None => (σ, Err (errShardNotExist shardID instanceID))
    | Some s =>
      if negb (bool_decide (s_state s = Initializing))
      then (σ, Err (errShardNotInitializing (s_id s)))
      else
      match runCallback (IsShardCutoverFn opts) s with
      | Some err => (σ, Err err)
      | None =>
        let sourceID := s_sourceID s in
        let σ1 := updShards instance (Add (SetState Available (NewShard shardID))) σ in
        if bool_decide (sourceID = "") then (σ1, Ok p)
        else
        match FindInstance σ1 p sourceID with
        | None => (σ1, Err (errSourceInstanceNotExist sourceID shardID))
        | Some sourceInstance =>
          match Lookup (shardsOf σ1 sourceInstance) shardID with
          | None => (σ1, Err (errShardNotExistInSource shardID sourceID))
          | Some leavingShard =>
            if negb (bool_decide (s_state leavingShard = Leaving))
            then (σ1, Err (errShardNotLeaving shardID sourceID))
            else
            match runCallback (IsShardCutoffFn opts) leavingShard with
            | Some err => (σ1, Err err)
            | None =>
              let σ2 := updShards sourceInstance (Remove shardID) σ1 in
              if bool_decide (NumShards (shardsOf σ2 sourceInstance) = 0)
              then (σ2, Ok (SetInstances
                             (removeInstanceFromList σ2 (p_instances p)
                                                     (idOf σ2 sourceInstance)) p))
              else (σ2, Ok p)
            end
          end
        end
      end
    end
  end.

(** *** The placement helper *)

Inductive optimizeType := safe | unsafe.

Record placementHelper := mkHelper {
  targetLoad : gmap string Z;
  shardToInstanceMap : gmap Z (gset loc);
  rackToInstancesMap : gmap string (gset loc);
  rackToWeightMap : gmap string Z;
  totalWeight : Z;
  rf : Z;
  uniqueShards : list Z;
  instances : list (string * loc);
  opts : Options
}.

Definition setIndex (m : gmap Z (gset loc)) (ph : placementHelper) : placementHelper :=
  mkHelper (targetLoad ph) m (rackToInstancesMap ph) (rackToWeightMap ph)
           (totalWeight ph) (rf ph) (uniqueShards ph) (instances ph) (opts ph).

(** [ph.shardToInstanceMap[shard]]: a missing key reads as the empty set. *)
Definition ownersOf (ph : placementHelper) (shardID : Z) : gset loc :=
  default ∅ (shardToInstanceMap ph !! shardID).

(** A helper together with the instance objects it works on. *)
Abbreviation state := (placementHelper * list Instance)%type (only parsing).

(** Mutation, through its pointer, of the shard object that an instance
    stores under [id]. *)
Definition mutateShard (id : Z) (f : Shard -> Shard) (ss : Shards) : Shards :=
  (fun s => if decide (s_id s = id) then f s else s) <$> ss.

Definition getShardLen (ph : placementHelper) : Z :=
  Z.of_nat (length (uniqueShards ph)).

Definition targetLoadForInstance (ph : placementHelper) (id : string) : Z :=
  default 0 (targetLoad ph !! id).

Definition loadOnInstance (σ : Store) (l : loc) : Z :=
  NumShards (shardsOf σ l) - NumShardsForState Leaving (shardsOf σ l).

Definition nonLeavingInstances (σ : Store) (ls : list loc) : list loc :=
  filter (fun l => isLeavingAt σ l = false) ls.

(** [ph.Instances()]: the values of the [instances] map, in iteration order. *)
Definition Instances (ph : placementHelper) : list loc := (instances ph).*2.

Definition HasRackConflict (ph : placementHelper) (σ : Store) (shardID : Z)
    (from : option loc) (toRack : string) : bool :=
  if match from with
     | Some f => bool_decide (rackOf σ f = toRack)
     | None => false
     end
  then false
  else existsb (fun l => bool_decide (rackOf σ l = toRack)) (elements (ownersOf ph shardID)).

Definition canAssignInstance (ph : placementHelper) (σ : Store) (shardID : Z)
    (from : option loc) (to : loc) : bool :=
  match Lookup (shardsOf σ to) shardID with
  | Some s =>
      if negb (bool_decide (s_state s = Leaving)) then false
      else LooseRackCheck (opts ph) || negb (HasRackConflict ph σ shardID from (rackOf σ to))
  | None => LooseRackCheck (opts ph) || negb (HasRackConflict ph σ shardID from (rackOf σ to))
  end.

Definition assignShardToInstance (s : Shard) (to : loc) (st : state) : state :=
  let '(ph, σ) := st in
  (setIndex (<[s_id s := ownersOf ph (s_id s) ∪ {[to]}]> (shardToInstanceMap ph)) ph,
   updShards to (Add s) σ).

(** The loop of [moveShard] that breaks the link between the reclaiming
    instance and the instances that were taking the shard over from it. *)
Definition clearSourceLinks (shardID : Z) (toID : string) (ls : list loc) (σ : Store) : Store :=
  foldl (fun σ l =>
           match Lookup (shardsOf σ l) shardID with
           | Some initShard =>
               if bool_decide (s_sourceID initShard = toID)
               then updShards l (mutateShard shardID (SetSourceID "")) σ
               else σ
           | None => σ
           end) σ ls.

(** The block [if from != nil { ... }] of [moveShard]: what happens to the
    candidate on [from], the source id of the new shard, and the index.
    [candidateShard] is a pointer in the source; at every call site of this
    file with a non-nil [from] it is the object that [from] stores under its
    id, so that the in-place [SetState]/[SetCutoffNanos] on it is a mutation
    of the shard stored by [from]. *)
Definition leaveFrom (candidateShard : Shard) (f : nat) (newShard : Shard) (st : state)
    : Shard * state :=
  let '(ph, σ) := st in
  let shardID := s_id candidateShard in
  let '(newShard, σ1) :=
    match s_state candidateShard with
    | Unknown | Initializing =>
        (SetSourceID (s_sourceID candidateShard) newShard,
         updShards f (Remove shardID) σ)
    | Available =>
        (SetSourceID (idOf σ f) newShard,
         updShards f (mutateShard shardID
           (fun s => SetCutoffNanos (ShardCutoffNanosFn (opts ph))
                       (SetState Leaving s))) σ)
    | Leaving => (newShard, σ)
    end in
  (newShard,
   (setIndex (alter (fun X => X ∖ {[f]}) shardID (shardToInstanceMap ph)) ph, σ1)).

(** The block [if ok && curShard.State() == shard.Leaving { ... }] of
    [moveShard]: an instance that still holds the shard as Leaving takes it
    back as Available, and the links to it are broken. *)
Definition takeBack (shardID : Z) (to : nat) (newShard : Shard) (st : state)
    : Shard * state :=
  let '(ph, σ) := st in
  match Lookup (shardsOf σ to) shardID with
  | Some curShard =>
      if bool_decide (s_state curShard = Leaving)
      then (SetState Available (NewShard shardID),
            (ph, clearSourceLinks shardID (idOf σ to) (elements (ownersOf ph shardID)) σ))
      else (newShard, st)
  | None => (newShard, st)
  end.

Definition moveShard (candidateShard : Shard) (from : option nat) (to : nat)
    (st : state) : bool * state :=
  let shardID := s_id candidateShard in
  if negb (canAssignInstance st.1 st.2 shardID from to) then (false, st)
  else if bool_decide (s_state candidateShard = Leaving) then (false, st)
  else
    let newShard := NewShard shardID in
    let '(newShard, st1) :=
      match from with
      | Some f => leaveFrom candidateShard f newShard st
      | None => (newShard, st)
      end in
    let '(newShard, st2) := takeBack shardID to newShard st1 in
    (true, assignShardToInstance newShard to st2).

Fixpoint moveShardsUntil (ss : list Shard) (from : option loc) (to : loc)
    (st : state) : bool * state :=
  match ss with
  | [] => (false, st)
  | s :: ss' =>
      let '(moved, st') := moveShard s from to st in
      if moved then (true, st') else moveShardsUntil ss' from to st'
  end.

Definition moveOneShardInState (from to : loc) (shardState : State) (st : state)
    : bool * state :=
  moveShardsUntil (ShardsForState shardState (shardsOf st.2 from)) (Some from) to st.

Definition moveOneShard (from to : loc) (st : state) : bool * state :=
  let '(moved, st1) := moveOneShardInState from to Unknown st in
  if moved then (true, st1)
  else
    let '(moved, st2) := moveOneShardInState from to Initializing st1 in
    if moved then (true, st2)
    else moveOneShardInState from to Available st2.

(** *** Target load *)

(** [float64(x)] for a non-negative integer below 2^63 (every [uint32], and
    every [int] that counts or is positive); a negative [int] converts to the
    negated float. *)
Definition float64_of_Z (z : Z) : float :=
  if bool_decide (z < 0) then PrimFloat.opp (PrimFloat.of_uint63 (Uint63.of_Z (- z)))
  else PrimFloat.of_uint63 (Uint63.of_Z z).

(** [int(math.Ceil(f))].  Converting a float that is not a number or is out
    of the range of [int] is implementation-specific in Go; amd64 yields
    the least [int]. *)
Definition ceil_to_int (f : float) : Z :=
  match Prim2SF f with
  | S754_zero _ => 0
  | S754_finite sgn m e =>
      let v :=
        if bool_decide (0 <= e) then Z.pos m * 2 ^ e
        else if sgn then - (Z.pos m / 2 ^ (- e))
        else (Z.pos m + 2 ^ (- e) - 1) / 2 ^ (- e) in
      let v := if (sgn && bool_decide (0 <= e))%bool then - v else v in
      if bool_decide (- 2 ^ 63 <= v < 2 ^ 63) then v else - 2 ^ 63
  | _ => - 2 ^ 63
  end.

Definition isRackOverWeight (rackWeight totalWeight : Z) (rf : Z) : bool :=
  PrimFloat.leb (PrimFloat.div (float64_of_Z 1) (float64_of_Z rf))
                (PrimFloat.div (float64_of_Z rackWeight) (float64_of_Z totalWeight)).

Definition setScan (idx : gmap Z (gset nat)) (r2i : gmap string (gset nat))
    (r2w : gmap string Z) (tw : Z) (ph : placementHelper) : placementHelper :=
  mkHelper (targetLoad ph) idx r2i r2w tw (rf ph) (uniqueShards ph) (instances ph) (opts ph).

Definition setTargetLoad (tl : gmap string Z) (ph : placementHelper) : placementHelper :=
  mkHelper tl (shardToInstanceMap ph) (rackToInstancesMap ph) (rackToWeightMap ph)
           (totalWeight ph) (rf ph) (uniqueShards ph) (instances ph) (opts ph).

(** One iteration of the loop of [scanCurrentLoad] over [ph.instances]. *)
Definition scanInstance (acc : state * Z) (instance : nat) : state * Z :=
  let '((ph, σ), totalWeight) := acc in
  let rack := rackOf σ instance in
  let r2i := <[rack := default ∅ (rackToInstancesMap ph !! rack) ∪ {[instance]}]>
               (rackToInstancesMap ph) in
  let ph := setScan (shardToInstanceMap ph) r2i (rackToWeightMap ph) (algo.totalWeight ph) ph in
  if isLeavingAt σ instance then ((ph, σ), totalWeight)
  else
    let w := weightOf σ instance in
    let r2w := <[rack := u32 (default 0 (rackToWeightMap ph !! rack) + w)]>
                 (rackToWeightMap ph) in
    let ph := setScan (shardToInstanceMap ph) (rackToInstancesMap ph) r2w
                      (algo.totalWeight ph) ph in
    let st := foldl (fun st s =>
                       if bool_decide (s_state s = Leaving) then st
                       else assignShardToInstance s instance st)
                    (ph, σ) (All (shardsOf σ instance)) in
    (st, u32 (totalWeight + w)).

Definition scanCurrentLoad (st : state) : state :=
  let '(ph, σ) := st in
  let ph := setScan ∅ ∅ ∅ (totalWeight ph) ph in
  let '((ph, σ), tw) := foldl scanInstance ((ph, σ), 0) (Instances ph) in
  (setScan (shardToInstanceMap ph) (rackToInstancesMap ph) (rackToWeightMap ph) tw ph, σ).

(** The first loop of [buildTargetLoad]: number and total weight of the
    over-weighted racks. *)
Definition overWeightOf (ph : placementHelper) : Z * Z :=
  map_fold (fun _ weight '(overWeightedRack, overWeight) =>
              if isRackOverWeight weight (totalWeight ph) (rf ph)
              then (overWeightedRack + 1, u32 (overWeight + weight))
              else (overWeightedRack, overWeight))
           (0, 0) (rackToWeightMap ph).

(** The divisor of the normal-rack branch. *)
Definition normalDivisor (ph : placementHelper) : Z :=
  u32 (totalWeight ph - (overWeightOf ph).2).

(** The target load of one instance; [None] stands for the run-time panic of
    an integer division by zero. *)
Definition targetLoadOf (ph : placementHelper) (σ : Store) (instance : nat) : option Z :=
  let rackWeight := default 0 (rackToWeightMap ph !! rackOf σ instance) in
  if isRackOverWeight rackWeight (totalWeight ph) (rf ph)
  then Some (ceil_to_int
               (PrimFloat.div
                  (PrimFloat.mul (float64_of_Z (getShardLen ph))
                                 (float64_of_Z (weightOf σ instance)))
                  (float64_of_Z rackWeight)))
  else
    if bool_decide (normalDivisor ph = 0) then None
    else Some (i64 (Z.quot
                      (i64 (i64 (getShardLen ph * i64 (rf ph - (overWeightOf ph).1))
                            * weightOf σ instance))
                      (normalDivisor ph))).

Definition buildTargetLoad (st : state) : option state :=
  let '(ph, σ) := st in
  foldl (fun acc '(id, instance) =>
           tl ← acc;
           if isLeavingAt σ instance then Some tl
           else t ← targetLoadOf ph σ instance; Some (<[idOf σ instance := t]> tl))
        (Some ∅) (instances ph)
    ≫= fun tl => Some (setTargetLoad tl ph, σ).

(** [ph.instances[id] = instance] on the association list that stands for
    the map: the order of the list is the iteration order of the map, which
    Go leaves unspecified. *)
Fixpoint mapStore (id : string) (instance : nat) (m : list (string * nat))
    : list (string * nat) :=
  match m with
  | [] => [(id, instance)]
  | (k, v) :: m' =>
      if decide (k = id) then (k, instance) :: m' else (k, v) :: mapStore id instance m'
  end.

Definition newHelper (σ : Store) (p : Placement) (targetRF : Z) (opts : Options)
    : option state :=
  let insts := foldl (fun m instance => mapStore (idOf σ instance) instance m)
                     [] (p_instances p) in
  let ph := mkHelper ∅ ∅ ∅ ∅ 0 targetRF (p_shards p) insts opts in
  buildTargetLoad (scanCurrentLoad (ph, σ)).

Definition NewPlacementHelper (σ : Store) (p : Placement) (opts : Options) : option state :=
  newHelper σ p (p_replicaFactor p) opts.

Definition newAddReplicaHelper (σ : Store) (p : Placement) (opts : Options) : option state :=
  newHelper σ p (p_replicaFactor p + 1) opts.

Inductive instanceType :=
| anyType
| withShards
| withLeavingShardsOnly
| withAvailableOrLeavingShardsOnly.

(** Modelled from the spec: "[clone()] deep-copies instances and their shard
    sets so the returned Placement is independent".  The copy of an instance
    is a new object: a new location at the end of the store, with the
    attributes and the shards of the original. *)
Definition Clone (σ : Store) (i : Instance) : loc * Store := (length σ, σ ++ [i]).

(** [removeInstanceFromPlacement]; [None] stands for its error return. *)
Definition removeInstanceFromPlacement (σ : Store) (p : Placement) (id : string)
    : option (Placement * loc) :=
  match FindInstance σ p id with
  | None => None
  | Some leavingInstance =>
      Some (SetInstances (removeInstanceFromList σ (p_instances p) id) p, leavingInstance)
  end.

(** [addInstanceToPlacement]; [None] stands for its error returns. *)
Definition addInstanceToPlacement (σ : Store) (p : Placement) (i : loc) (t : instanceType)
    : option (Placement * loc * Store) :=
  match FindInstance σ p (idOf σ i) with
  | Some _ => None
  | None =>
      let added :=
        match σ !! i with
        | Some obj =>
            let '(instance, σ') := Clone σ obj in
            Some (SetInstances (p_instances p ++ [instance]) p, instance, σ')
        | None => None
        end in
      match t with
      | anyType => added
      | withShards =>
          if bool_decide (NumShards (shardsOf σ i) = 0) then Some (p, i, σ) else added
      | _ => None
      end
  end.

(** [newRemoveInstanceHelper]: the helper is built over the placement
    without the leaving instance, which keeps its shards.  [None] stands for
    the error return, and for the division by zero of [buildTargetLoad]. *)
Definition newRemoveInstanceHelper (σ : Store) (p : Placement) (instanceID : string)
    (opts : Options) : option (state * loc) :=
  match removeInstanceFromPlacement σ p instanceID with
  | None => None
  | Some (p, leavingInstance) =>
      match newHelper σ p (p_replicaFactor p) opts with
      | Some st => Some (st, leavingInstance)
      | None => None
      end
  end.

(** [newReplaceInstanceHelper]: the result holds the helper, the leaving
    instances and the copies of the adding instances; the first error of a
    removal or an addition ends the call.  [None] stands for the error
    return, and for the division by zero of [buildTargetLoad]. *)
Definition newReplaceInstanceHelper (σ : Store) (p : Placement) (instanceIDs : list string)
    (addingInstances : list loc) (opts : Options)
    : option (state * list loc * list loc) :=
  match
    foldl (fun acc instanceID =>
             match acc with
             | Some (p, leavingInstances) =>
                 match removeInstanceFromPlacement σ p instanceID with
                 | Some (p, leavingInstance) =>
                     Some (p, leavingInstances ++ [leavingInstance])
                 | None => None
                 end
             | None => None
             end)
          (Some (p, [])) instanceIDs
  with
  | None => None
  | Some (p, leavingInstances) =>
      match
        foldl (fun acc instance =>
                 match acc with
                 | Some (p, σ, newAddingInstances) =>
                     match addInstanceToPlacement σ p instance anyType with
                     | Some (p, newInstance, σ) =>
                         Some (p, σ, newAddingInstances ++ [newInstance])
                     | None => None
                     end
                 | None => None
                 end)
              (Some (p, σ, [])) addingInstances
      with
      | None => None
      | Some (p, σ, newAddingInstances) =>
          match newHelper σ p (p_replicaFactor p) opts with
          | Some st => Some (st, leavingInstances, newAddingInstances)
          | None => None
          end
      end
  end.

Definition newShards (shardIDs : list Z) : list Shard :=
  (fun id => SetState Unknown (NewShard id)) <$> shardIDs.

(** *** The instance heap *)

Record instanceHeap := mkHeap {
  h_instances : list nat;
  h_rackToWeightMap : gmap string Z;
  h_targetLoad : gmap string Z;
  h_capacityAscending : bool
}.

Definition setHeapInstances (ls : list nat) (h : instanceHeap) : instanceHeap :=
  mkHeap ls (h_rackToWeightMap h) (h_targetLoad h) (h_capacityAscending h).

Definition h_targetLoadForInstance (h : instanceHeap) (id : string) : Z :=
  default 0 (h_targetLoad h !! id).

Definition Len (h : instanceHeap) : nat := length (h_instances h).

Definition Less (σ : Store) (h : instanceHeap) (i j : nat) : bool :=
  match h_instances h !! i, h_instances h !! j with
  | Some instanceI, Some instanceJ =>
      let leftLoadOnI :=
        i64 (h_targetLoadForInstance h (idOf σ instanceI) - loadOnInstance σ instanceI) in
      let leftLoadOnJ :=
        i64 (h_targetLoadForInstance h (idOf σ instanceJ) - loadOnInstance σ instanceJ) in
      if bool_decide (0 < leftLoadOnI) && bool_decide (0 < leftLoadOnJ)
         && negb (bool_decide (rackOf σ instanceI = rackOf σ instanceJ))
      then bool_decide (default 0 (h_rackToWeightMap h !! rackOf σ instanceJ)
                        < default 0 (h_rackToWeightMap h !! rackOf σ instanceI))
      else if h_capacityAscending h
           then bool_decide (leftLoadOnJ < leftLoadOnI)
           else bool_decide (leftLoadOnI < leftLoadOnJ)
  | _, _ => false
  end.

Definition Swap (i j : nat) (h : instanceHeap) : instanceHeap :=
  match h_instances h !! i, h_instances h !! j with
  | Some a, Some b => setHeapInstances (<[i := b]> (<[j := a]> (h_instances h))) h
  | _, _ => h
  end.

Definition Push (x : nat) (h : instanceHeap) : instanceHeap :=
  setHeapInstances (h_instances h ++ [x]) h.

Definition Pop (h : instanceHeap) : option nat * instanceHeap :=
  (last (h_instances h), setHeapInstances (removelast (h_instances h)) h).

(** Go's [container/heap], over the interface implemented above.  The
    loops of [up] and [down] move an index strictly towards the root or the
    leaves, so the length of the slice bounds their iterations. *)
Module heap.

Fixpoint down_loop (fuel : nat) (σ : Store) (h : instanceHeap) (i n : nat)
    : instanceHeap :=
  match fuel with
  | O => h
  | S fuel' =>
      let j1 := (2 * i + 1)%nat in
      if bool_decide (n ≤ j1)%nat then h
      else
        let j2 := (j1 + 1)%nat in
        let j := if bool_decide (j2 < n)%nat && Less σ h j2 j1 then j2 else j1 in
        if negb (Less σ h j i) then h
        else down_loop fuel' σ (Swap i j h) j n
  end.

Definition down (σ : Store) (h : instanceHeap) (i0 n : nat) : instanceHeap :=
  down_loop n σ h i0 n.

Fixpoint up_loop (fuel : nat) (σ : Store) (h : instanceHeap) (j : nat) : instanceHeap :=
  match fuel with
  | O => h
  | S fuel' =>
      let i := ((j - 1) / 2)%nat in
      if bool_decide (i = j) || negb (Less σ h j i) then h
      else up_loop fuel' σ (Swap i j h) i
  end.

Definition up (σ : Store) (h : instanceHeap) (j : nat) : instanceHeap :=
  up_loop (S j) σ h j.

Definition Init (σ : Store) (h : instanceHeap) : instanceHeap :=
  let n := Len h in
  foldl (fun h i => down σ h i n) h (rev (seq 0 (n / 2))).

Definition Push (σ : Store) (x : nat) (h : instanceHeap) : instanceHeap :=
  let h := algo.Push x h in
  up σ h (Len h - 1).

Definition Pop (σ : Store) (h : instanceHeap) : option nat * instanceHeap :=
  let n := (Len h - 1)%nat in
  let h := Swap 0 n h in
  let h := down σ h 0 n in
  algo.Pop h.

End heap.

Definition newHeap (σ : Store) (instances : list nat) (capacityAscending : bool)
    (targetLoad : gmap string Z) (rackToWeightMap : gmap string Z) : instanceHeap :=
  heap.Init σ (mkHeap instances rackToWeightMap targetLoad capacityAscending).

Definition buildInstanceHeap (st : state) (instances : list nat)
    (availableCapacityAscending : bool) : instanceHeap :=
  newHeap st.2 instances availableCapacityAscending (targetLoad st.1) (rackToWeightMap st.1).

(** *** Placing, optimizing, reclaiming *)

Definition getShardMap (shards : list Shard) : list Shard :=
  foldl (fun r s => Add s r) [] shards.

(** One turn of the loop of [returnInitializingShardsToSource] over the
    working set. *)
Definition returnStep (candidateMap : gmap string nat) (from : nat)
    (acc : list Shard * state) (s : Shard) : list Shard * state :=
  let '(shardSet, st) := acc in
  if negb (bool_decide (s_state s = Initializing)) then (shardSet, st)
  else
    let sourceID := s_sourceID s in
    if bool_decide (sourceID = "") then (shardSet, st)
    else
      match candidateMap !! sourceID with
      | None => (shardSet, st)
      | Some sourceInstance =>
          if isLeavingAt st.2 sourceInstance then (shardSet, st)
          else
            let '(moved, st') := moveShard s (Some from) sourceInstance st in
            if moved then (Remove (s_id s) shardSet, st') else (shardSet, st')
      end.

Definition candidateMapOf (σ : Store) (candidates : list nat) : gmap string nat :=
  foldl (fun m candidate => <[idOf σ candidate := candidate]> m) ∅ candidates.

Definition returnInitializingShardsToSource (shardSet : list Shard) (from : nat)
    (candidates : list nat) (st : state) : list Shard * state :=
  let candidateMap := candidateMapOf st.2 candidates in
  foldl (returnStep candidateMap from) (shardSet, st) shardSet.

(** The inner loop of [PlaceShards]: pop instances until one takes the
    shard.  The heap shrinks by one at each turn, so its length bounds the
    number of turns. *)
Fixpoint tryInstances (fuel : nat) (s : Shard) (from : option nat)
    (instanceHeap : instanceHeap) (triedInstances : list nat) (st : state)
    : bool * list nat * algo.instanceHeap * state :=
  match fuel with
  | O => (false, triedInstances, instanceHeap, st)
  | S fuel' =>
      if bool_decide (Len instanceHeap = 0%nat)
      then (false, triedInstances, instanceHeap, st)
      else
        match heap.Pop st.2 instanceHeap with
        | (Some tryInstance, instanceHeap) =>
            let triedInstances := triedInstances ++ [tryInstance] in
            let '(moved, st') := moveShard s from tryInstance st in
            if moved then (true, triedInstances, instanceHeap, st')
            else tryInstances fuel' s from instanceHeap triedInstances st'
        | (None, instanceHeap) => (false, triedInstances, instanceHeap, st)
        end
  end.

Fixpoint placeLoop (shardSet : list Shard) (from : option nat)
    (instanceHeap : instanceHeap) (st : state) : option error * state :=
  match shardSet with
  | [] => (None, st)
  | s :: shardSet' =>
      if bool_decide (s_state s = Leaving) then placeLoop shardSet' from instanceHeap st
      else
        let '(moved, triedInstances, instanceHeap, st') :=
          tryInstances (Len instanceHeap) s from instanceHeap [] st in
        if negb moved then (Some errNotEnoughRacks, st')
        else
          let instanceHeap :=
            foldl (fun h triedInstance => heap.Push st'.2 triedInstance h)
                  instanceHeap triedInstances in
          placeLoop shardSet' from instanceHeap st'
  end.

Definition PlaceShards (shards : list Shard) (from : option nat)
    (candidates : list nat) (st : state) : option error * state :=
  let shardSet := getShardMap shards in
  let '(shardSet, st) :=
    match from with
    | Some f => returnInitializingShardsToSource shardSet f candidates st
    | None => (shardSet, st)
    end in
  let instanceHeap := buildInstanceHeap st (nonLeavingInstances st.2 candidates) true in
  placeLoop shardSet from instanceHeap st.

Definition ReturnInitializingShards (instance : nat) (st : state) : state :=
  let shardSet := getShardMap (All (shardsOf st.2 instance)) in
  (returnInitializingShardsToSource shardSet instance (Instances st.1) st).2.

Definition mostUnderLoadedInstance (st : state) : option nat :=
  let '(res, maxLoadGap) :=
    foldl (fun '(res, maxLoadGap) '(id, instance) =>
             let loadGap :=
               i64 (default 0 (targetLoad st.1 !! id) - loadOnInstance st.2 instance) in
             if bool_decide (maxLoadGap < loadGap) then (Some instance, loadGap)
             else (res, maxLoadGap))
          (None, 0) (instances st.1) in
  if bool_decide (0 < maxLoadGap) then res else None.

(** The loop of [assignTargetLoad]; [None] when [fuel] turns do not reach
    its exit. *)
Fixpoint assignTargetLoad_loop (fuel : nat)
    (moveOneShardFn : nat -> nat -> state -> bool * state)
    (targetInstance : nat) (targetLoad : Z) (instanceHeap : instanceHeap) (st : state)
    : option state :=
  match fuel with
  | O => None
  | S fuel' =>
      if bool_decide (NumShards (shardsOf st.2 targetInstance) < targetLoad)
         && negb (bool_decide (Len instanceHeap = 0%nat))
      then
        match heap.Pop st.2 instanceHeap with
        | (Some fromInstance, instanceHeap) =>
            let '(moved, st') := moveOneShardFn fromInstance targetInstance st in
            let instanceHeap :=
              if moved then heap.Push st'.2 fromInstance instanceHeap else instanceHeap in
            assignTargetLoad_loop fuel' moveOneShardFn targetInstance targetLoad
                                  instanceHeap st'
        | (None, _) => None
        end
      else Some st
  end.

Definition assignTargetLoad (fuel : nat) (targetInstance : nat)
    (moveOneShardFn : nat -> nat -> state -> bool * state) (st : state) : option state :=
  let targetLoad := targetLoadForInstance st.1 (idOf st.2 targetInstance) in
  let instanceHeap := buildInstanceHeap st (nonLeavingInstances st.2 (Instances st.1)) false in
  assignTargetLoad_loop fuel moveOneShardFn targetInstance targetLoad instanceHeap st.

Definition assignLoadToInstanceSafe (fuel : nat) (addingInstance : nat) (st : state)
    : option state :=
  assignTargetLoad fuel addingInstance
    (fun from to => moveOneShardInState from to Unknown) st.

Definition assignLoadToInstanceUnsafe (fuel : nat) (addingInstance : nat) (st : state)
    : option state :=
  assignTargetLoad fuel addingInstance (fun from to => moveOneShard from to) st.

(** The loop of [optimize]; [fuel] bounds its turns and, through [fn], the
    turns of each [assignTargetLoad]. *)
Fixpoint optimize_loop (fuel : nat) (fn : nat -> state -> option state)
    (uniq : gset string) (st : state) : option state :=
  match fuel with
  | O => None
  | S fuel' =>
      match mostUnderLoadedInstance st with
      | None => Some st
      | Some ins =>
          if bool_decide (idOf st.2 ins ∈ uniq) then Some st
          else
            match fn ins st with
            | Some st' => optimize_loop fuel' fn ({[idOf st.2 ins]} ∪ uniq) st'
            | None => None
            end
      end
  end.

Definition optimize (fuel : nat) (fn : nat -> state -> option state) (st : state)
    : option state :=
  optimize_loop fuel fn ∅ st.

Definition Optimize (fuel : nat) (t : optimizeType) (st : state) : option state :=
  match t with
  | safe => optimize fuel (assignLoadToInstanceSafe fuel) st
  | unsafe => optimize fuel (assignLoadToInstanceUnsafe fuel) st
  end.

(** The body of the inner loop of [ReclaimLeavingShards]. *)
Definition reclaimStep (id : string) (i instance : nat) (st : state) (s : Shard) : state :=
  if bool_decide (s_sourceID s = id)
  then (moveShard s (Some i) instance st).2
  else st.

Definition ReclaimLeavingShards (instance : nat) (st : state) : state :=
  if bool_decide (NumShardsForState Leaving (shardsOf st.2 instance) = 0) then st
  else
    let id := idOf st.2 instance in
    foldl (fun st i =>
             foldl (reclaimStep id i instance) st
                   (ShardsForState Initializing (shardsOf st.2 i)))
          st (Instances st.1).

Definition AddInstance (fuel : nat) (addingInstance : nat) (st : state) : option state :=
  assignLoadToInstanceUnsafe fuel addingInstance (ReclaimLeavingShards addingInstance st).

Definition GeneratePlacement (st : state) : Placement * Store :=
  let '(ph, σ) := st in
  let instances :=
    filter (fun instance => 0 < NumShards (shardsOf σ instance)) (Instances ph) in
  let σ' :=
    foldl (fun σ instance =>
             foldl (fun σ s =>
                      updShards instance
                        (Add (SetCutoverNanos (ShardCutoverNanosFn (opts ph))
                                (SetState Initializing
                                   (SetSourceID (s_sourceID s) (NewShard (s_id s)))))) σ)
                   σ (ShardsForState Unknown (shardsOf σ instance)))
          σ instances in
  (mkPlacement instances (uniqueShards ph) (rf ph) true (IsMirrored (opts ph))
               (PlacementCutoverNanosFn (opts ph)), σ').

(** What [clearSourceLinks] does to the shard set of one of the instances
    it visits. *)
Definition clearAt (shardID : Z) (toID : string) (ss : Shards) : Shards :=
  match Lookup ss shardID with
  | Some initShard =>
      if bool_decide (s_sourceID initShard = toID)
      then mutateShard shardID (SetSourceID "") ss
      else ss
  | None => ss
  end.

(** The target of a move still holds the shard as Leaving. *)
Definition holdsLeaving (σ : Store) (to : nat) (shardID : Z) : bool :=
  match Lookup (shardsOf σ to) shardID with
  | Some curShard => bool_decide (s_state curShard = Leaving)
  | None => false
  end.

(** The shard that [from] is left with after a move of [c], given the shard
    [cur] that it stored under that id. *)
Definition leftShard (cutoffNanos : Z) (c : Shard) (cur : option Shard) : option Shard :=
  match s_state c with
  | Unknown | Initializing => None
  | Available => (fun s => SetCutoffNanos cutoffNanos (SetState Leaving s)) <$> cur
  | Leaving => cur
  end.

(** The source id that a move gives to the new shard (before a reclaim). *)
Definition movedSourceID (σ : Store) (c : Shard) (from : option nat) : string :=
  match from with
  | Some f =>
      match s_state c with
      | Unknown | Initializing => s_sourceID c
      | Available => idOf σ f
      | Leaving => ""
      end
  | None => ""
  end.

Definition unlink (toID : string) (s : Shard) : Shard :=
  if bool_decide (s_sourceID s = toID) then SetSourceID "" s else s.

(** Two helpers differ at most in their reverse index. *)
Definition sameConfig (ph ph' : placementHelper) : Prop :=
  targetLoad ph' = targetLoad ph ∧ rackToInstancesMap ph' = rackToInstancesMap ph ∧
  rackToWeightMap ph' = rackToWeightMap ph ∧ totalWeight ph' = totalWeight ph ∧
  rf ph' = rf ph ∧ uniqueShards ph' = uniqueShards ph ∧
  instances ph' = instances ph ∧ opts ph' = opts ph.

(** The shard that the target of a successful move ends up with. *)
Definition arrivedShard (σ : Store) (c : Shard) (from : option nat) (to : nat) : Shard :=
  if holdsLeaving σ to (s_id c) then SetState Available (NewShard (s_id c))
  else SetSourceID (movedSourceID σ c from) (NewShard (s_id c)).

(** Two stores hold the same instances up to their shard sets. *)
Definition sameAttrs (σ σ' : Store) : Prop :=
  forall l, idOf σ' l = idOf σ l ∧ rackOf σ' l = rackOf σ l ∧
            weightOf σ' l = weightOf σ l ∧ (is_Some (σ' !! l) <-> is_Some (σ !! l)).

(** *** Predicates used to state the properties of the helper *)

(** Instance [l] owns shard [k] in a state other than Leaving. *)
Definition nonLeavingOwner (σ : Store) (l : nat) (k : Z) : Prop :=
  exists s, Lookup (shardsOf σ l) k = Some s ∧ s_state s ≠ Leaving.

(** Rack diversity: no two instances of one rack own the same shard id in a
    state other than Leaving. *)
Definition rackDiverse (σ : Store) : Prop :=
  forall l1 l2 k,
    nonLeavingOwner σ l1 k -> nonLeavingOwner σ l2 k ->
    rackOf σ l1 = rackOf σ l2 -> l1 = l2.

(** The reverse index records every non-Leaving ownership of the store.
    [scanCurrentLoad] indexes the instances of the helper and no other:
    the predicate holds of a helper built over a placement that lists every
    instance that owns a shard, and it fails for the helpers of
    [newRemoveInstanceHelper] and [newReplaceInstanceHelper], which leave the
    removed instances, still holding their shards, out of the placement. *)
Definition indexComplete (st : state) : Prop :=
  forall l k, nonLeavingOwner st.2 l k -> l ∈ ownersOf st.1 k.

Definition wfStore (σ : Store) : Prop := forall l, wfShards (shardsOf σ l).

(** The candidate handed to [moveShard] is the shard that [from] stores. *)
Definition candidateOn (σ : Store) (c : Shard) (from : option nat) : Prop :=
  forall f, from = Some f -> Lookup (shardsOf σ f) (s_id c) = Some c.

(** The condition under which the helper keeps rack diversity: it is not
    an invariant of every helper, see [indexComplete]. *)
Definition helperInv (st : state) : Prop :=
  wfStore st.2 ∧ indexComplete st ∧ rackDiverse st.2.

(** Shard [s], if instance [j] still stores it as an Initializing shard
    handed off from the instance of id [id], is refused by the instance [i]:
    it stays where it is only because the move back to [i] is rejected. *)
Definition refusedBack (id : string) (i : nat) (st : state) (j : nat) (s : Shard) : Prop :=
  Lookup (shardsOf st.2 j) (s_id s) = Some s ->
  s_state s = Initializing -> s_sourceID s = id ->
  canAssignInstance st.1 st.2 (s_id s) (Some j) i = false.

(** Shard [s] is one that [returnInitializingShardsToSource] hands back: it
    is Initializing and its source id names the candidate [src], which is not
    leaving. *)
Definition returnable (cm : gmap string nat) (σ : Store) (s : Shard) (src : nat) : Prop :=
  s_state s = Initializing ∧ s_sourceID s ≠ "" ∧
  cm !! s_sourceID s = Some src ∧ isLeavingAt σ src = false.

(** The instances of the store that hold shard [k] in a state other than
    Leaving: its replicas. *)
Definition ownsb (σ : Store) (l : nat) (k : Z) : bool :=
  match Lookup (shardsOf σ l) k with
  | Some s => negb (bool_decide (s_state s = Leaving))
  | None => false
  end.

Definition replicas (σ : Store) (k : Z) : list nat :=
  filter (fun l => ownsb σ l k = true) (seq 0 (length σ)).

(** The load of an instance as a count: its shards that are not Leaving;
    the load of all instances but one, and of all. *)
Definition loadN (σ : Store) (l : nat) : nat :=
  length (filter (fun s => s_state s ≠ Leaving) (shardsOf σ l)).

Definition loadElsewhere (σ : Store) (target : nat) : nat :=
  sum_list_with (fun l => if decide (l = target) then 0%nat else loadN σ l)
                (seq 0 (length σ)).

Definition totalLoad (σ : Store) : nat :=
  sum_list_with (loadN σ) (seq 0 (length σ)).

(** Turns that suffice for the loops of [assignTargetLoad] and [optimize]. *)
Definition enoughFuel (st : state) : nat :=
  S (length (Instances st.1) + totalLoad st.2).

(** A sequence of calls of [moveShard] that each hand a shard stored by an
    instance over to an instance of the store. *)
Inductive handoffs : state -> state -> Prop :=
| handoffs_refl st : handoffs st st
| handoffs_step c f to st moved st1 st2 :
    candidateOn st.2 c (Some f) ->
    is_Some (st.2 !! to) ->
    moveShard c (Some f) to st = (moved, st1) ->
    handoffs st1 st2 ->
    handoffs st st2.

(** What [assignTargetLoad] relies on in its [moveOneShardFn]: a call either
    changes nothing and returns false, or is one successful [moveShard] of
    a shard stored by [from]. *)
Definition mover (fn : nat -> nat -> state -> bool * state) : Prop :=
  forall from to st moved st',
    wfStore st.2 -> fn from to st = (moved, st') ->
    (moved = false -> st' = st) ∧
    (moved = true ->
       exists c, candidateOn st.2 c (Some from) ∧
                 moveShard c (Some from) to st = (true, st')).

(** The locations of a list are locations of the store. *)
Definition validLocs (σ : Store) (ls : list nat) : Prop :=
  forall l, l ∈ ls -> is_Some (σ !! l).

(** The order in which [moveOneShard] tries the shards of an instance: the
    cheaper a state, the earlier its shards are tried. *)
Definition stateCost (x : State) : nat :=
  match x with
  | Unknown => 0
  | Initializing => 1
  | Available => 2
  | Leaving => 3
  end.

(** The load gap that [mostUnderLoadedInstance] computes for an entry of
    [ph.instances]. *)
Definition loadGap (st : state) (id : string) (instance : nat) : Z :=
  i64 (default 0 (targetLoad st.1 !! id) - loadOnInstance st.2 instance).

(** The weight that [scanCurrentLoad] counts for an instance, and its sum
    over the instances of a helper, as exact integers. *)
Definition activeWeight (σ : Store) (l : nat) : Z :=
  if isLeavingAt σ l then 0 else weightOf σ l.

Definition scannedWeight (σ : Store) (ls : list nat) : Z :=
  foldr (fun l acc => activeWeight σ l + acc) 0 ls.

(** Exact sums over a rack-weight map: of all racks, and of the racks that
    satisfy [P]. *)
Definition mapSum (m : gmap string Z) : Z :=
  map_fold (fun _ w acc => w + acc) 0 m.

Definition overSum (P : Z -> bool) (m : gmap string Z) : Z :=
  map_fold (fun _ w acc => if P w then w + acc else acc) 0 m.

(** Executable checks of the invariants, for concrete states. *)
Definition wfStoreb (σ : Store) : bool :=
  forallb (fun i => bool_decide (wfShards (i_shards i))) σ.

Definition indexCompleteb (st : state) : bool :=
  forallb (fun l =>
             forallb (fun s => bool_decide (s_state s = Leaving)
                               || bool_decide (l ∈ ownersOf st.1 (s_id s)))
                     (shardsOf st.2 l))
          (seq 0 (length st.2)).

Definition rackDiverseb (σ : Store) : bool :=
  forallb (fun l1 =>
    forallb (fun l2 =>
      forallb (fun s1 =>
        forallb (fun s2 =>
                   negb (bool_decide (s_id s1 = s_id s2))
                   || bool_decide (s_state s1 = Leaving)
                   || bool_decide (s_state s2 = Leaving)
                   || negb (bool_decide (rackOf σ l1 = rackOf σ l2))
                   || bool_decide (l1 = l2))
                (shardsOf σ l2))
        (shardsOf σ l1))
      (seq 0 (length σ)))
    (seq 0 (length σ)).

Definition helperInvb (st : state) : bool :=
  wfStoreb st.2 && indexCompleteb st && rackDiverseb st.2.

(** A sequence of calls of [moveShard], each on a candidate stored by its
    [from]. *)
Inductive moves : state -> state -> Prop :=
| moves_refl st : moves st st
| moves_step c from to st moved st1 st2 :
    candidateOn st.2 c from ->
    moveShard c from to st = (moved, st1) ->
    moves st1 st2 ->
    moves st st2.



(** *** Predicates used to state the properties of [markShardAvailable] *)

(** The call gets past its first four checks: the instance is in the
    placement, holds the shard, the shard is Initializing and the cutover
    callback (when set) accepts it. *)
Definition passesCutover (p : Placement) (instanceID : string) (shardID : Z)
    (opts : Options) (σ : Store) : Prop :=
  exists instance s,
    FindInstance σ p instanceID = Some instance ∧
    Lookup (shardsOf σ instance) shardID = Some s ∧
    s_state s = Initializing ∧
    runCallback (IsShardCutoverFn opts) s = None.

(** The source named by the Initializing shard is in the placement, holds
    the shard in state Leaving, and the cutoff callback accepts it. *)
Definition sourceReady (p : Placement) (sourceID : string) (shardID : Z)
    (opts : Options) (σ : Store) : Prop :=
  exists source leavingShard,
    FindInstance σ p sourceID = Some source ∧
    Lookup (shardsOf σ source) shardID = Some leavingShard ∧
    s_state leavingShard = Leaving ∧
    runCallback (IsShardCutoffFn opts) leavingShard = None.

End algo.

Import algo.

(** ** The float64 arithmetic of the overweight test

    [isRackOverWeight] divides and compares in float64.  What follows names
    the pieces of the IEEE 754 specification of that computation
    ([SpecFloat]): a quotient [n / d] of integers with the position of the
    exact value above its integer part, and its rounding to nearest, ties to
    even. *)
Module float64.

(** Modelled from the spec: the "equivalent integer form" of the overweight
    test, [rackWeight * rf ≥ totalWeight], over exact integers. *)
Definition isRackOverWeight_spec (rackWeight totalWeight rf : Z) : bool :=
  bool_decide (totalWeight <= rackWeight * rf).

(** Where the fraction [r / d], with [0 <= r < d], lies in [0, 1). *)
Definition loc_of_frac (r d : Z) : location :=
  if r =? 0 then loc_Exact else loc_Inexact (2 * r ?= d).

(** The integer part of [n / d] with the position of the rest. *)
Definition rec_of_frac (n d : Z) : shr_record :=
  shr_record_of_loc (n / d) (loc_of_frac (n mod d) d).

(** [n / d] rounded to the nearest integer, ties to even. *)
Definition RNE (n d : Z) : Z := round_nearest_even (n / d) (loc_of_frac (n mod d) d).

(** The float of mantissa [M], from 2^52 to 2^53 included, and exponent [E]. *)
Definition normal (sx : bool) (M E : Z) : spec_float :=
  if M =? 2 ^ 53 then S754_finite sx (Z.to_pos (2 ^ 52)) (E + 1)
  else S754_finite sx (Z.to_pos M) E.

(** [n / D], between 2^52 and 2^53, scaled by [2^-p], is the fraction [A / B]. *)
Definition rep (A B n D p : Z) : Prop :=
  0 < B /\ 0 < D /\ 0 <= p /\ n * B = A * D * 2 ^ p /\ 2 ^ 52 * D <= n < 2 ^ 53 * D.

End float64.

Import float64.

(** ** Concrete inputs used by the examples below *)

Module examples.

Definition opts0 : Options := mkOptions false false 0 0 0 None None.

(** One instance that is taking shard 1 over from an instance "b" which the
    placement does not have. *)
Definition orphan_store : list Instance :=
  [mkInstance "a" "r1" "z1" 1 [mkShard 1 Initializing "b" 0 0]].
Definition orphan_p : Placement := mkPlacement [0%nat] [1] 1 true false 0.

(** Instance "a" takes shard 1 over from "b", which holds it as Leaving
    together with an Available shard 2; "c" holds only a Leaving shard 2. *)
Definition handoff_store : list Instance :=
  [mkInstance "a" "r1" "z1" 1 [mkShard 1 Initializing "b" 0 0];
   mkInstance "b" "r2" "z1" 1 [mkShard 1 Leaving "" 0 0]].
Definition handoff_p : Placement := mkPlacement [0%nat; 1%nat] [1] 1 true false 0.

(** Instance "a" still holds shard 1 as Leaving; "b" and "c", on other
    racks, hold it as Initializing with "a" as their source. *)
Definition reclaim_store : list Instance :=
  [mkInstance "a" "r1" "z1" 1 [mkShard 1 Leaving "" 0 7];
   mkInstance "b" "r2" "z1" 1 [mkShard 1 Initializing "a" 0 0];
   mkInstance "c" "r3" "z1" 1 [mkShard 1 Initializing "a" 0 0]].
Definition reclaim_ph : placementHelper :=
  mkHelper ∅ {[1 := {[1%nat; 2%nat]}]} ∅ ∅ 3 2 [1]
           [("a", 0%nat); ("b", 1%nat); ("c", 2%nat)] opts0.

(** Adding a replica: "a" alone on rack r1 holds the three shards; "b" and
    "c" share rack r2.  The helper is built for replica factor 2 and the
    three new replicas are placed. *)
Definition replica_store : list Instance :=
  [mkInstance "a" "r1" "z1" 1
     [mkShard 0 Available "" 0 0; mkShard 1 Available "" 0 0; mkShard 2 Available "" 0 0];
   mkInstance "b" "r2" "z1" 1 [];
   mkInstance "c" "r2" "z1" 1 []].
Definition replica_p : Placement :=
  mkPlacement [0%nat; 1%nat; 2%nat] [0; 1; 2] 1 true false 0.
Definition replica_placed : option (placementHelper * list Instance) :=
  match newAddReplicaHelper replica_store replica_p opts0 with
  | Some st =>
      match PlaceShards (newShards (p_shards replica_p)) None (p_instances replica_p) st with
      | (None, st') => Some st'
      | (Some _, _) => None
      end
  | None => None
  end.
Definition replica_once : option (placementHelper * list Instance) :=
  match replica_placed with Some st => Optimize 20 safe st | None => None end.
Definition replica_twice : option (placementHelper * list Instance) :=
  match replica_once with Some st => Optimize 20 safe st | None => None end.

(** The shard ids that the instance at [l] holds in the placement generated
    from a helper state. *)
Definition generatedIDs (l : nat) (st : option (placementHelper * list Instance))
    : option (list Z) :=
  match st with
  | Some st => Some (s_id <$> shardsOf (GeneratePlacement st).2 l)
  | None => None
  end.

(** Two instances on two racks; "a" holds both shards, "b" none. *)
Definition pair_store : list Instance :=
  [mkInstance "a" "r1" "z1" 1 [mkShard 0 Available "" 0 0; mkShard 1 Available "" 0 0];
   mkInstance "b" "r2" "z1" 1 []].
Definition pair_p : Placement := mkPlacement [0%nat; 1%nat] [0; 1] 1 true false 0.
Definition pair_start : placementHelper * list Instance :=
  default (mkHelper ∅ ∅ ∅ ∅ 0 0 [] [] opts0, [])
          (NewPlacementHelper pair_store pair_p opts0).
Definition pair_once : placementHelper * list Instance :=
  default pair_start (Optimize 10 unsafe pair_start).

(** Instance "a" holds no Leaving shard, while "b", on another rack, holds
    shard 1 as Initializing with "a" as its source. *)
Definition stale_store : list Instance :=
  [mkInstance "a" "r1" "z1" 1 [];
   mkInstance "b" "r2" "z1" 1 [mkShard 1 Initializing "a" 0 0]].
Definition stale_ph : placementHelper :=
  mkHelper ∅ {[1 := {[1%nat]}]} ∅ ∅ 2 1 [1] [("a", 0%nat); ("b", 1%nat)] opts0.

(** Weights that wrap around: the two instances of rack r1 weigh 2^31 each,
    the instance of rack r2 weighs 1. *)
Definition heavy_store : list Instance :=
  [mkInstance "a" "r1" "z1" (2 ^ 31) [];
   mkInstance "b" "r1" "z1" (2 ^ 31) [];
   mkInstance "c" "r2" "z1" 1 []].
Definition heavy_p : Placement := mkPlacement [0%nat; 1%nat; 2%nat] [1] 1 true false 0.
Definition heavy_ph0 : placementHelper :=
  mkHelper ∅ ∅ ∅ ∅ 0 1 [1] [("a", 0%nat); ("b", 1%nat); ("c", 2%nat)] opts0.

(** An instance of weight zero next to an instance of weight one. *)
Definition idle_store : list Instance :=
  [mkInstance "a" "r1" "z1" 0 []; mkInstance "b" "r2" "z1" 1 []].
Definition idle_ph0 : placementHelper :=
  mkHelper ∅ ∅ ∅ ∅ 0 1 [1] [("a", 0%nat); ("b", 1%nat)] opts0.

(** Instance "x" is being taken out: it holds shard 1 as Initializing with
    "a" as its source, and shard 2 as Available; "a" still holds shard 1 as
    Leaving, next to an Available shard 3; "b" is empty. *)
Definition moveout_store : list Instance :=
  [mkInstance "a" "r1" "z1" 1 [mkShard 1 Leaving "" 0 7; mkShard 3 Available "" 0 0];
   mkInstance "x" "r2" "z1" 1
     [mkShard 1 Initializing "a" 0 0; mkShard 2 Available "" 0 0];
   mkInstance "b" "r3" "z1" 1 []].
Definition moveout_ph : placementHelper :=
  mkHelper ∅ {[1 := {[1%nat]}; 2 := {[1%nat]}; 3 := {[0%nat]}]} ∅ ∅ 3 1 [1; 2; 3]
           [("a", 0%nat); ("x", 1%nat); ("b", 2%nat)] opts0.

Definition pair_ph0 : placementHelper :=
  mkHelper ∅ ∅ ∅ ∅ 0 1 [0; 1] [("a", 0%nat); ("b", 1%nat)] opts0.


(** Replacing "x1" and "x2" while "a" stays: "a" is handing shard 1 over to
    "x2" and holds shard 2; "x1" holds the other replica of the two shards. *)
Definition links_store : list Instance :=
  [mkInstance "a" "r1" "z1" 1 [mkShard 1 Leaving "" 0 7; mkShard 2 Available "" 0 0];
   mkInstance "x1" "r2" "z1" 1 [mkShard 1 Available "" 0 0; mkShard 2 Available "" 0 0];
   mkInstance "x2" "r3" "z1" 1 [mkShard 1 Initializing "a" 0 0]].
Definition links_p : Placement :=
  mkPlacement [0%nat; 1%nat; 2%nat] [1; 2] 2 true false 0.
Definition links_start : placementHelper * list Instance :=
  match newReplaceInstanceHelper links_store links_p ["x1"; "x2"] [] opts0 with
  | Some (st, _, _) => st
  | None => (mkHelper ∅ ∅ ∅ ∅ 0 0 [] [] opts0, [])
  end.

End examples.

(** * Facts about shard sets and the store *)

Section shard_sets.
Implicit Types (s : Shard) (ss : Shards) (id k : Z).

Lemma Lookup_Some_id ss k s : Lookup ss k = Some s -> s_id s = k.
Proof.
  induction ss as [|x ss IH]; simpl; [done|].
  case_decide; [by intros [= <-]|done].
Qed.

Lemma Lookup_Some_elem ss k s : Lookup ss k = Some s -> s ∈ ss.
Proof.
  induction ss as [|x ss IH]; simpl; [done|].
  case_decide; [intros [= <-]; left | intros; right; auto].
Qed.

Lemma Lookup_None ss k : Lookup ss k = None <-> forall s, s ∈ ss -> s_id s ≠ k.
Proof.
  induction ss as [|x ss IH]; simpl.
  - split; [intros _ s Hs; inversion Hs | done].
  - case_decide as Hx; split; try done.
    + intros H. exfalso. apply (H x); [left | done].
    + intros HN s Hs. apply elem_of_cons in Hs as [->|Hs]; [done|].
      by apply IH.
    + intros H. apply IH. intros s Hs. apply H. by right.
Qed.

Lemma Lookup_Add s ss k :
  Lookup (Add s ss) k = if decide (s_id s = k) then Some s else Lookup ss k.
Proof.
  induction ss as [|x ss IH]; simpl.
  - by case_decide.
  - destruct (decide (s_id x = s_id s)) as [E|NE]; simpl.
    + destruct (decide (s_id s = k)); [done|].
      case_decide; [congruence|done].
    + rewrite IH. destruct (decide (s_id x = k)), (decide (s_id s = k)); congruence.
Qed.

Lemma Lookup_Remove id ss k :
  Lookup (Remove id ss) k = if decide (id = k) then None else Lookup ss k.
Proof.
  unfold Remove. induction ss as [|x ss IH].
  - simpl. by case_decide.
  - rewrite filter_cons. destruct (decide (s_id x ≠ id)) as [NE|E]; simpl.
    + rewrite IH. destruct (decide (s_id x = k)), (decide (id = k)); congruence.
    + apply dec_stable in E. rewrite IH.
      destruct (decide (s_id x = k)), (decide (id = k)); congruence.
Qed.

Lemma Lookup_mutateShard id f ss k :
  (forall s, s_id (f s) = s_id s) ->
  Lookup (mutateShard id f ss) k =
    if decide (id = k) then f <$> Lookup ss k else Lookup ss k.
Proof.
  intros Hf. induction ss as [|x ss IH]; simpl.
  - by case_decide.
  - fold (mutateShard id f ss). rewrite IH.
    destruct (decide (s_id x = id)) as [E|NE]; simpl; rewrite ?Hf;
      destruct (decide (s_id x = k)), (decide (id = k)); simpl; congruence.
Qed.

Lemma Remove_elem id ss s : s ∈ Remove id ss <-> s ∈ ss ∧ s_id s ≠ id.
Proof. unfold Remove. rewrite list_elem_of_filter. tauto. Qed.

Lemma Lookup_elem ss s : wfShards ss -> s ∈ ss -> Lookup ss (s_id s) = Some s.
Proof.
  unfold wfShards. induction ss as [|x ss IH]; csimpl; [by intros _ ?%elem_of_nil|].
  rewrite NoDup_cons. intros [Hx HN] [->|Hs]%elem_of_cons.
  - by rewrite decide_True.
  - rewrite decide_False; [by apply IH|].
    intros E. apply Hx. rewrite E. by apply list_elem_of_fmap_2.
Qed.

Lemma Add_ids s ss :
  s_id <$> Add s ss = if Lookup ss (s_id s) is Some _ then s_id <$> ss
                      else (s_id <$> ss) ++ [s_id s].
Proof.
  induction ss as [|x ss IH]; csimpl; [done|].
  destruct (decide (s_id x = s_id s)) as [E|NE]; csimpl.
  - by rewrite E.
  - rewrite IH. by destruct (Lookup ss (s_id s)).
Qed.

Lemma wfShards_Add s ss : wfShards ss -> wfShards (Add s ss).
Proof.
  unfold wfShards. rewrite Add_ids. destruct (Lookup ss (s_id s)) eqn:E; [done|].
  intros HN. apply NoDup_app. split_and!; [done| |apply NoDup_singleton].
  intros x (y & -> & Hy)%list_elem_of_fmap ?%list_elem_of_singleton.
  by eapply Lookup_None.
Qed.

Lemma wfShards_Remove id ss : wfShards ss -> wfShards (Remove id ss).
Proof.
  unfold wfShards, Remove. induction ss as [|x ss IH]; [done|].
  rewrite filter_cons. csimpl. rewrite NoDup_cons. intros [Hx HN].
  case_decide; [|by apply IH]. csimpl. apply NoDup_cons. split; [|by apply IH].
  intros (y & Hy & Hin)%list_elem_of_fmap. apply list_elem_of_filter in Hin as [_ Hin].
  apply Hx. rewrite Hy. by apply list_elem_of_fmap_2.
Qed.

Lemma mutateShard_ids id f ss :
  (forall s, s_id (f s) = s_id s) -> s_id <$> mutateShard id f ss = s_id <$> ss.
Proof.
  intros Hf. unfold mutateShard. rewrite <- list_fmap_compose.
  apply list_fmap_ext. intros i x _. csimpl. by case_decide.
Qed.

Lemma wfShards_mutateShard id f ss :
  (forall s, s_id (f s) = s_id s) -> wfShards ss -> wfShards (mutateShard id f ss).
Proof. intros Hf. unfold wfShards. by rewrite mutateShard_ids. Qed.

Lemma length_Add s ss :
  length (Add s ss) = if Lookup ss (s_id s) is Some _ then length ss else S (length ss).
Proof.
  induction ss as [|x ss IH]; csimpl; [done|].
  destruct (decide (s_id x = s_id s)); csimpl; [done|].
  rewrite IH. by destruct (Lookup ss (s_id s)).
Qed.

End shard_sets.

(** * Facts about the store *)

Section store.
Implicit Types (σ : list Instance) (l : nat).

Lemma updShards_lookup l f σ l' :
  updShards l f σ !! l' =
    if decide (l = l') then (fun i => SetShards (f (i_shards i)) i) <$> σ !! l'
    else σ !! l'.
Proof.
  unfold updShards. destruct (σ !! l) as [i|] eqn:E.
  - case_decide as D.
    + subst l'. rewrite E. csimpl. apply list_lookup_insert_eq. by eapply lookup_lt_Some.
    + by apply list_lookup_insert_ne.
  - case_decide; [subst; by rewrite E|done].
Qed.

Lemma length_updShards l f σ : length (updShards l f σ) = length σ.
Proof. unfold updShards. destruct (σ !! l); [apply length_insert|done]. Qed.

Lemma shardsOf_updShards l f σ l' :
  shardsOf (updShards l f σ) l' =
    if decide (l = l' ∧ is_Some (σ !! l)) then f (shardsOf σ l) else shardsOf σ l'.
Proof.
  unfold shardsOf. rewrite updShards_lookup.
  destruct (decide (l = l')) as [<-|NE].
  - destruct (σ !! l) as [i|] eqn:E; csimpl.
    + by rewrite decide_True by eauto.
    + rewrite decide_False; [done|]. intros [_ [? ?]]. done.
  - rewrite decide_False; [done|]. tauto.
Qed.

Lemma shardsOf_updShards_eq l f σ :
  is_Some (σ !! l) -> shardsOf (updShards l f σ) l = f (shardsOf σ l).
Proof. intros H. rewrite shardsOf_updShards. by rewrite decide_True. Qed.

Lemma shardsOf_updShards_ne l f σ l' :
  l ≠ l' -> shardsOf (updShards l f σ) l' = shardsOf σ l'.
Proof. intros H. rewrite shardsOf_updShards. rewrite decide_False; tauto. Qed.

Lemma idOf_updShards l f σ l' : idOf (updShards l f σ) l' = idOf σ l'.
Proof.
  unfold idOf. rewrite updShards_lookup. case_decide; [|done].
  by destruct (σ !! l').
Qed.

Lemma rackOf_updShards l f σ l' : rackOf (updShards l f σ) l' = rackOf σ l'.
Proof.
  unfold rackOf. rewrite updShards_lookup. case_decide; [|done].
  by destruct (σ !! l').
Qed.

Lemma weightOf_updShards l f σ l' : weightOf (updShards l f σ) l' = weightOf σ l'.
Proof.
  unfold weightOf. rewrite updShards_lookup. case_decide; [|done].
  by destruct (σ !! l').
Qed.

Lemma is_Some_updShards l f σ l' : is_Some (updShards l f σ !! l') <-> is_Some (σ !! l').
Proof. rewrite !lookup_lt_is_Some, length_updShards. done. Qed.

Lemma hasID_updShards l f σ id l' : hasID (updShards l f σ) id l' <-> hasID σ id l'.
Proof.
  unfold hasID. rewrite updShards_lookup. case_decide; [|done].
  by destruct (σ !! l').
Qed.

Lemma FindInstance_updShards l f σ p id :
  FindInstance (updShards l f σ) p id = FindInstance σ p id.
Proof.
  unfold FindInstance. f_equal. apply list_find_ext. intros x. apply hasID_updShards.
Qed.

Lemma FindInstance_Some σ p id l :
  FindInstance σ p id = Some l -> l ∈ p_instances p ∧ idOf σ l = id ∧ is_Some (σ !! l).
Proof.
  unfold FindInstance. destruct (list_find _ _) as [[i x]|] eqn:E; [|done].
  intros [= ->]. apply list_find_Some in E as (Hi & Hid & _).
  split; [by eapply list_elem_of_lookup_2|].
  unfold hasID, idOf in *. destruct (σ !! l); [|done].
  csimpl in *. split; [congruence|eauto].
Qed.

End store.

(** * [markShardAvailable] *)

Section mark_available.
Implicit Types (σ : list Instance) (p : Placement) (opts : Options).

Lemma removeInstanceFromList_Permutation σ ls id i l :
  list_find (hasID σ id) ls = Some (i, l) ->
  Permutation ls (l :: removeInstanceFromList σ ls id).
Proof.
  intros Hf. unfold removeInstanceFromList. rewrite Hf.
  apply list_find_Some in Hf as (Hi & _ & _).
  apply list_elem_of_split_length in Hi as (l1 & l2 & -> & ->).
  destruct (last_is_Some (l1 ++ l :: l2)) as [_ [lst Hl]].
  { by destruct l1. }
  rewrite Hl. rewrite last_app_cons, last_cons in Hl.
  rewrite insert_app_r_alt, Nat.sub_diag by lia. simpl.
  rewrite length_app. simpl.
  replace (length l1 + S (length l2) - 1)%nat with (length l1 + length l2)%nat by lia.
  rewrite take_app_add'; [|done].
  destruct (last l2) as [x|] eqn:El2.
  - injection Hl as ->. apply last_Some in El2 as [l2' ->].
    rewrite length_app. simpl.
    replace (length l2' + 1)%nat with (S (length l2')) by lia.
    rewrite firstn_cons. rewrite take_app_length.
    rewrite <- Permutation_middle. constructor.
    apply Permutation_app_head. symmetry. apply Permutation_cons_append.
  - apply last_None in El2 as ->. simpl. rewrite app_nil_r.
    symmetry. apply Permutation_cons_append.
Qed.

Lemma FindInstance_removeInstanceFromList_Permutation σ p id l :
  FindInstance σ p id = Some l ->
  Permutation (p_instances p) (l :: removeInstanceFromList σ (p_instances p) id).
Proof.
  unfold FindInstance. destruct (list_find _ _) as [[i x]|] eqn:E; [|done].
  intros [= ->]. by eapply removeInstanceFromList_Permutation.
Qed.

Lemma removeInstanceFromList_updShards l f σ ls id :
  removeInstanceFromList (updShards l f σ) ls id = removeInstanceFromList σ ls id.
Proof.
  unfold removeInstanceFromList.
  rewrite (list_find_ext (hasID (updShards l f σ) id) (hasID σ id)); [done|].
  intros x. apply hasID_updShards.
Qed.

End mark_available.

(** C1, as stated, fails: when the source instance named by the Initializing
    shard is not in the placement, [markShardAvailable] returns an error, yet
    the shard of the input placement has already been replaced by an
    Available one. *)
Lemma markShardAvailable_error_mutates_input :
  let r := markShardAvailable examples.orphan_p "a" 1 examples.opts0 examples.orphan_store in
  Lookup (shardsOf examples.orphan_store 0) 1 = Some (mkShard 1 Initializing "b" 0 0) ∧
  r.2 = Err (errSourceInstanceNotExist "b" 1) ∧
  Lookup (shardsOf r.1 0) 1 = Some (mkShard 1 Available "" 0 0) ∧
  r.1 ≠ examples.orphan_store.
Proof. vm_compute. repeat split; discriminate. Qed.

(** C1, amended: an error raised by one of the first four checks (instance
    missing, shard missing, shard not Initializing, cutover callback refusal)
    leaves the store of instances as it was; an error raised later (source
    instance missing, source shard missing or not Leaving, cutoff callback
    refusal) leaves it changed in exactly one place: the shard [shardID] of
    [instanceID] is by then a fresh Available shard. *)
Theorem markShardAvailable_error_effect
    (p : Placement) (instanceID : string) (shardID : Z) (opts : Options)
    (σ σ' : list Instance) (e : error) :
  markShardAvailable p instanceID shardID opts σ = (σ', Err e) ->
  (¬ passesCutover p instanceID shardID opts σ -> σ' = σ) ∧
  (passesCutover p instanceID shardID opts σ ->
   exists instance,
     FindInstance σ p instanceID = Some instance ∧
     σ' = updShards instance (Add (SetState Available (NewShard shardID))) σ ∧
     Lookup (shardsOf σ' instance) shardID = Some (SetState Available (NewShard shardID)) ∧
     (forall k, k ≠ shardID ->
        Lookup (shardsOf σ' instance) k = Lookup (shardsOf σ instance) k) ∧
     (forall l, l ≠ instance -> σ' !! l = σ !! l) ∧
     length σ' = length σ).
Proof.
  unfold markShardAvailable, passesCutover. intros H.
  destruct (FindInstance σ p instanceID) as [instance|] eqn:Hfind.
  2:{ injection H as <- _. split; [done|]. intros (? & ? & ? & _). done. }
  destruct (Lookup (shardsOf σ instance) shardID) as [s|] eqn:Hs.
  2:{ injection H as <- _. split; [done|]. intros (? & ? & [= <-] & ? & _). congruence. }
  destruct (bool_decide (s_state s = Initializing)) eqn:Hst; simpl in H.
  2:{ injection H as <- _. split; [done|]. apply bool_decide_eq_false in Hst.
      intros (? & ? & [= <-] & ? & ? & _). congruence. }
  destruct (runCallback (IsShardCutoverFn opts) s) as [err|] eqn:Hcb.
  { injection H as <- _. split; [done|].
    intros (? & ? & [= <-] & ? & ? & ?). congruence. }
  apply bool_decide_eq_true in Hst.
  assert (Hvalid : is_Some (σ !! instance)) by (by apply FindInstance_Some in Hfind as (_ & _ & ?)).
  set (σ1 := updShards instance (Add (SetState Available (NewShard shardID))) σ) in *.
  assert (σ' = σ1) as ->.
  { destruct (bool_decide (s_sourceID s = "")); [done|].
    destruct (FindInstance σ1 p (s_sourceID s)); [|by injection H].
    destruct (Lookup (shardsOf σ1 n) shardID); [|by injection H].
    destruct (negb _); [by injection H|].
    destruct (runCallback (IsShardCutoffFn opts) s0); [by injection H|].
    by destruct (bool_decide _). }
  split.
  { intros HN. exfalso. apply HN. eauto 10. }
  intros _. exists instance. split_and!; [done|done| | | |].
  - subst σ1. rewrite shardsOf_updShards_eq, Lookup_Add by done. by rewrite decide_True.
  - intros k Hk. subst σ1. rewrite shardsOf_updShards_eq, Lookup_Add by done.
    rewrite decide_False; [done|]. simpl. congruence.
  - intros l Hl. subst σ1. rewrite updShards_lookup. by rewrite decide_False.
  - apply length_updShards.
Qed.

Lemma markShardAvailable_error_effect_witness :
  markShardAvailable examples.orphan_p "a" 1 examples.opts0 examples.orphan_store
    = ([mkInstance "a" "r1" "z1" 1 [mkShard 1 Available "" 0 0]],
       Err (errSourceInstanceNotExist "b" 1)) ∧
  passesCutover examples.orphan_p "a" 1 examples.opts0 examples.orphan_store ∧
  Lookup (shardsOf [mkInstance "a" "r1" "z1" 1 [mkShard 1 Available "" 0 0]] 0) 1
    = Some (mkShard 1 Available "" 0 0).
Proof.
  assert (H : markShardAvailable examples.orphan_p "a" 1 examples.opts0 examples.orphan_store
    = ([mkInstance "a" "r1" "z1" 1 [mkShard 1 Available "" 0 0]],
       Err (errSourceInstanceNotExist "b" 1))) by (vm_compute; reflexivity).
  assert (HP : passesCutover examples.orphan_p "a" 1 examples.opts0 examples.orphan_store).
  { exists 0%nat, (mkShard 1 Initializing "b" 0 0). vm_compute. repeat split. }
  split; [exact H|]. split; [exact HP|].
  destruct (markShardAvailable_error_effect _ _ _ _ _ _ _ H) as [_ HE].
  destruct (HE HP) as (i & Hi & _ & HL & _).
  vm_compute in Hi. injection Hi as <-. exact HL.
Defined.

(** C2, as stated, fails: the instance owns the shard in state Initializing
    and no callback refuses, yet the call returns an error because the source
    instance named by the shard is not in the placement. *)
Lemma markShardAvailable_orphan_source_fails :
  FindInstance examples.orphan_store examples.orphan_p "a" = Some 0%nat ∧
  Lookup (shardsOf examples.orphan_store 0) 1 = Some (mkShard 1 Initializing "b" 0 0) ∧
  IsShardCutoverFn examples.opts0 = None ∧
  IsShardCutoffFn examples.opts0 = None ∧
  (markShardAvailable examples.orphan_p "a" 1 examples.opts0 examples.orphan_store).2
    = Err (errSourceInstanceNotExist "b" 1).
Proof. vm_compute. repeat split. Qed.

(** C2, amended: when instance [instanceID] owns shard [shardID] in state
    Initializing, the cutover callback accepts it and, in case the shard
    names a source, that source is in the placement, holds the shard in state
    Leaving and the cutoff callback accepts it, then [markShardAvailable]
    succeeds; in the result the shard on the instance is a fresh Available
    shard; without a source nothing else changes; with a source the Leaving
    shard is gone from the source, and the source instance is taken out of the
    instance list exactly when it is left without shards. *)
Theorem markShardAvailable_success
    (p : Placement) (instanceID : string) (shardID : Z) (opts : Options)
    (σ : list Instance) (instance : nat) (s : Shard) :
  FindInstance σ p instanceID = Some instance ->
  Lookup (shardsOf σ instance) shardID = Some s ->
  s_state s = Initializing ->
  runCallback (IsShardCutoverFn opts) s = None ->
  (s_sourceID s ≠ "" -> sourceReady p (s_sourceID s) shardID opts σ) ->
  exists σ' p',
    markShardAvailable p instanceID shardID opts σ = (σ', Ok p') ∧
    Lookup (shardsOf σ' instance) shardID = Some (SetState Available (NewShard shardID)) ∧
    (s_sourceID s = "" ->
       p' = p ∧ σ' = updShards instance (Add (SetState Available (NewShard shardID))) σ) ∧
    (forall source,
       s_sourceID s ≠ "" -> FindInstance σ p (s_sourceID s) = Some source ->
       Lookup (shardsOf σ' source) shardID = None ∧
       (forall k, k ≠ shardID ->
          Lookup (shardsOf σ' source) k = Lookup (shardsOf σ source) k) ∧
       (shardsOf σ' source = [] ->
          Permutation (p_instances p) (source :: p_instances p')) ∧
       (shardsOf σ' source ≠ [] -> p' = p)).
Proof.
  intros Hfind Hs Hst Hcb Hsrc. unfold markShardAvailable.
  rewrite Hfind, Hs, Hcb. rewrite bool_decide_eq_true_2 by done. simpl.
  assert (Hvalid : is_Some (σ !! instance)) by (by apply FindInstance_Some in Hfind as (_ & _ & ?)).
  set (avail := SetState Available (NewShard shardID)).
  set (σ1 := updShards instance (Add avail) σ).
  assert (Hav : Lookup (shardsOf σ1 instance) shardID = Some avail).
  { subst σ1. rewrite shardsOf_updShards_eq, Lookup_Add by done. by rewrite decide_True. }
  destruct (decide (s_sourceID s = "")) as [E|NE].
  { rewrite bool_decide_eq_true_2 by done. exists σ1, p. split_and!; try done. }
  rewrite bool_decide_eq_false_2 by done.
  destruct (Hsrc NE) as (source & ls & Hfs & Hls & Hlst & Hcut).
  assert (Hne : instance ≠ source) by (intros ->; congruence).
  assert (Hvs : is_Some (σ !! source)) by (by apply FindInstance_Some in Hfs as (_ & _ & ?)).
  subst σ1. rewrite FindInstance_updShards, Hfs.
  rewrite shardsOf_updShards_ne, Hls by done.
  rewrite bool_decide_eq_true_2 by done. simpl. rewrite Hcut.
  set (σ1 := updShards instance (Add avail) σ) in *.
  set (σ2 := updShards source (Remove shardID) σ1).
  assert (Hvs1 : is_Some (σ1 !! source)) by (by apply is_Some_updShards).
  assert (Hsh2 : shardsOf σ2 source = Remove shardID (shardsOf σ source)).
  { subst σ2 σ1. rewrite shardsOf_updShards_eq by done. by rewrite shardsOf_updShards_ne. }
  assert (Hav2 : Lookup (shardsOf σ2 instance) shardID = Some avail).
  { subst σ2. by rewrite shardsOf_updShards_ne. }
  assert (Hsrc2 : Lookup (shardsOf σ2 source) shardID = None ∧
            (forall k, k ≠ shardID ->
               Lookup (shardsOf σ2 source) k = Lookup (shardsOf σ source) k)).
  { rewrite Hsh2. split.
    - rewrite Lookup_Remove. by rewrite decide_True.
    - intros k Hk. rewrite Lookup_Remove. by rewrite decide_False. }
  destruct Hsrc2 as [Hgone Hrest].
  destruct (bool_decide (NumShards (shardsOf σ2 source) = 0)) eqn:Hnum.
  - apply bool_decide_eq_true in Hnum.
    eexists σ2, _. split; [done|]. split_and!; [done|done|].
    intros source' _ [= <-].
    split_and!; [done|done| |].
    + intros _. simpl. subst σ2 σ1.
      rewrite !idOf_updShards, !removeInstanceFromList_updShards.
      apply FindInstance_Some in Hfs as Hid. destruct Hid as (_ & -> & _).
      by apply FindInstance_removeInstanceFromList_Permutation.
    + intros HN. exfalso. apply HN. unfold NumShards in Hnum.
      destruct (shardsOf σ2 source); [done|simpl in Hnum; lia].
  - apply bool_decide_eq_false in Hnum.
    exists σ2, p. split; [done|]. split_and!; [done|done|].
    intros source' _ [= <-].
    split_and!; [done|done| |done].
    intros E. rewrite E in Hnum. done.
Qed.

Lemma markShardAvailable_success_witness :
  FindInstance examples.handoff_store examples.handoff_p "a" = Some 0%nat ∧
  Lookup (shardsOf examples.handoff_store 0) 1 = Some (mkShard 1 Initializing "b" 0 0) ∧
  sourceReady examples.handoff_p "b" 1 examples.opts0 examples.handoff_store ∧
  exists σ' p',
    markShardAvailable examples.handoff_p "a" 1 examples.opts0 examples.handoff_store
      = (σ', Ok p') ∧
    Lookup (shardsOf σ' 0) 1 = Some (SetState Available (NewShard 1)).
Proof.
  assert (Hf : FindInstance examples.handoff_store examples.handoff_p "a" = Some 0%nat)
    by (vm_compute; reflexivity).
  assert (Hl : Lookup (shardsOf examples.handoff_store 0) 1
                 = Some (mkShard 1 Initializing "b" 0 0)) by (vm_compute; reflexivity).
  assert (Hr : sourceReady examples.handoff_p "b" 1 examples.opts0 examples.handoff_store).
  { exists 1%nat, (mkShard 1 Leaving "" 0 0). vm_compute. repeat split. }
  split; [exact Hf|]. split; [exact Hl|]. split; [exact Hr|].
  destruct (markShardAvailable_success examples.handoff_p "a" 1 examples.opts0
              examples.handoff_store 0%nat _ Hf Hl eq_refl eq_refl (fun _ => Hr))
    as (σ' & p' & H1 & H2 & _).
  exists σ', p'. split; [exact H1 | exact H2].
Defined.

(** * The helper: [canAssignInstance] and [moveShard] *)

Section index.
Implicit Types (ph : placementHelper) (σ : list Instance) (k : Z) (l : nat).

Lemma ownersOf_insert ph k X k' :
  ownersOf (setIndex (<[k := X]> (shardToInstanceMap ph)) ph) k' =
    if decide (k = k') then X else ownersOf ph k'.
Proof.
  unfold ownersOf. simpl. case_decide as E.
  - subst. by rewrite lookup_insert_eq.
  - by rewrite lookup_insert_ne.
Qed.

Lemma ownersOf_remove ph k l k' :
  ownersOf (setIndex (alter (fun X => X ∖ {[l]}) k (shardToInstanceMap ph)) ph) k' =
    if decide (k = k') then ownersOf ph k' ∖ {[l]} else ownersOf ph k'.
Proof.
  unfold ownersOf. simpl. case_decide as E.
  - subst. rewrite lookup_alter_eq. by destruct (shardToInstanceMap ph !! k'); simpl; [|rewrite difference_disjoint_L by apply disjoint_empty_l].
  - by rewrite lookup_alter_ne.
Qed.

Lemma HasRackConflict_false ph σ k from rack :
  HasRackConflict ph σ k from rack = false <->
    (exists f, from = Some f ∧ rackOf σ f = rack) ∨
    (forall l, l ∈ ownersOf ph k -> rackOf σ l ≠ rack).
Proof.
  unfold HasRackConflict.
  set (scan := existsb _ _).
  assert (Hscan : scan = false <-> forall l, l ∈ ownersOf ph k -> rackOf σ l ≠ rack).
  { subst scan. rewrite <- not_true_iff_false, existsb_exists. split.
    - intros HN l Hl E. apply HN. exists l. split.
      + apply list_elem_of_In. by apply elem_of_elements.
      + by apply bool_decide_eq_true.
    - intros H (l & Hl & E). apply bool_decide_eq_true in E.
      apply (H l); [|done]. apply elem_of_elements. by apply list_elem_of_In. }
  destruct from as [f|].
  - destruct (bool_decide (rackOf σ f = rack)) eqn:E.
    + apply bool_decide_eq_true in E. split; [eauto|done].
    + apply bool_decide_eq_false in E. rewrite Hscan. split; [eauto|].
      intros [(f' & [= <-] & ?)|?]; done.
  - rewrite Hscan. split; [eauto|]. intros [(f' & ? & ?)|?]; done.
Qed.

End index.

(** C4: [canAssignInstance] accepts exactly when the target does not own the
    shard or owns it only as Leaving, and either the rack check is loose, or
    [from] is given and sits on the rack of the target (the rack check is then
    skipped), or no instance recorded as an owner of the shard is on the rack
    of the target. *)
Theorem canAssignInstance_iff
    (ph : placementHelper) (σ : list Instance) (shardID : Z) (from : option nat) (to : nat) :
  canAssignInstance ph σ shardID from to = true <->
    (Lookup (shardsOf σ to) shardID = None ∨
     exists s, Lookup (shardsOf σ to) shardID = Some s ∧ s_state s = Leaving) ∧
    (LooseRackCheck (opts ph) = true ∨
     (exists f, from = Some f ∧ rackOf σ f = rackOf σ to) ∨
     (forall l, l ∈ ownersOf ph shardID -> rackOf σ l ≠ rackOf σ to)).
Proof.
  unfold canAssignInstance.
  assert (Hrack : LooseRackCheck (opts ph) || negb (HasRackConflict ph σ shardID from (rackOf σ to)) = true
            <-> LooseRackCheck (opts ph) = true ∨
                (exists f, from = Some f ∧ rackOf σ f = rackOf σ to) ∨
                (forall l, l ∈ ownersOf ph shardID -> rackOf σ l ≠ rackOf σ to)).
  { rewrite orb_true_iff, negb_true_iff, HasRackConflict_false. tauto. }
  destruct (Lookup (shardsOf σ to) shardID) as [s|] eqn:Hs.
  - destruct (bool_decide (s_state s = Leaving)) eqn:E; simpl.
    + apply bool_decide_eq_true in E. rewrite Hrack. split; [|tauto].
      intros H. split; [right; eauto|done].
    + apply bool_decide_eq_false in E. split; [done|].
      intros [[?|(s' & [= <-] & ?)] _]; done.
  - rewrite Hrack. split; [|tauto]. intros H. split; [by left|done].
Qed.

Section blocks.
Implicit Types (ph : placementHelper) (σ : list Instance) (k : Z) (l : nat).

(** An update by a function that keeps the empty set empty needs no
    validity side condition. *)
Lemma shardsOf_updShards_nil l f σ l' :
  f [] = [] ->
  shardsOf (updShards l f σ) l' = if decide (l = l') then f (shardsOf σ l) else shardsOf σ l'.
Proof.
  intros Hf. rewrite shardsOf_updShards.
  destruct (decide (l = l')) as [<-|NE].
  - destruct (σ !! l) as [i|] eqn:E.
    + by rewrite decide_True by eauto.
    + rewrite decide_False by (intros [_ [? ?]]; done).
      unfold shardsOf. rewrite E. simpl. by rewrite Hf.
  - rewrite decide_False; [done|]. tauto.
Qed.

Lemma wfStore_updShards l f σ :
  (forall ss, wfShards ss -> wfShards (f ss)) -> wfStore σ -> wfStore (updShards l f σ).
Proof.
  intros Hf Hwf l'. rewrite shardsOf_updShards. case_decide; [apply Hf|]; apply Hwf.
Qed.

Lemma Lookup_clearAt k toID ss k' :
  Lookup (clearAt k toID ss) k' =
    if decide (k = k')
    then (fun s => if bool_decide (s_sourceID s = toID) then SetSourceID "" s else s)
           <$> Lookup ss k'
    else Lookup ss k'.
Proof.
  unfold clearAt. destruct (decide (k = k')) as [<-|NE].
  - destruct (Lookup ss k) as [s|] eqn:E; [|by rewrite E].
    destruct (bool_decide (s_sourceID s = toID)) eqn:B.
    + rewrite Lookup_mutateShard by done. rewrite decide_True by done.
      rewrite E. simpl. by rewrite B.
    + rewrite E. simpl. by rewrite B.
  - destruct (Lookup ss k) as [s|] eqn:E; [|done].
    destruct (bool_decide (s_sourceID s = toID)); [|done].
    rewrite Lookup_mutateShard by done. by rewrite decide_False.
Qed.

Lemma wfShards_clearAt k toID ss : wfShards ss -> wfShards (clearAt k toID ss).
Proof.
  unfold clearAt. intros H. destruct (Lookup ss k); [|done].
  destruct (bool_decide _); [|done]. by apply wfShards_mutateShard.
Qed.

Lemma clearSourceLinks_cons k toID x ls σ :
  clearSourceLinks k toID (x :: ls) σ =
    clearSourceLinks k toID ls (updShards x (clearAt k toID) σ).
Proof.
  unfold clearSourceLinks. simpl. f_equal.
  unfold clearAt, updShards, shardsOf.
  destruct (σ !! x) as [i|] eqn:E; simpl; [|done].
  destruct (Lookup (i_shards i) k) as [s|]; simpl.
  - destruct (bool_decide _); [done|].
    destruct i; simpl. symmetry. by apply list_insert_id.
  - destruct i; simpl. symmetry. by apply list_insert_id.
Qed.

Lemma clearSourceLinks_shardsOf k toID ls σ l :
  NoDup ls ->
  shardsOf (clearSourceLinks k toID ls σ) l =
    if decide (l ∈ ls) then clearAt k toID (shardsOf σ l) else shardsOf σ l.
Proof.
  intros HN. revert σ. induction HN as [|x ls Hx HN IH]; intros σ.
  - unfold clearSourceLinks. cbn [foldl]. rewrite decide_False; [done|]. apply not_elem_of_nil.
  - rewrite clearSourceLinks_cons, IH.
    rewrite !shardsOf_updShards_nil by done.
    destruct (decide (x = l)) as [->|NE].
    + rewrite decide_False by done. by rewrite decide_True by left.
    + destruct (decide (l ∈ ls)).
      * by rewrite decide_True by (by right).
      * rewrite decide_False; [done|]. intros [?|?]%elem_of_cons; congruence.
Qed.

Lemma clearSourceLinks_lookup_attrs k toID ls σ l :
  idOf (clearSourceLinks k toID ls σ) l = idOf σ l ∧
  rackOf (clearSourceLinks k toID ls σ) l = rackOf σ l ∧
  weightOf (clearSourceLinks k toID ls σ) l = weightOf σ l ∧
  (is_Some (clearSourceLinks k toID ls σ !! l) <-> is_Some (σ !! l)).
Proof.
  revert σ. induction ls as [|x ls IH]; intros σ; [done|].
  rewrite clearSourceLinks_cons.
  destruct (IH (updShards x (clearAt k toID) σ)) as (-> & -> & -> & ->).
  by rewrite idOf_updShards, rackOf_updShards, weightOf_updShards, is_Some_updShards.
Qed.

Lemma wfStore_clearSourceLinks k toID ls σ :
  wfStore σ -> wfStore (clearSourceLinks k toID ls σ).
Proof.
  revert σ. induction ls as [|x ls IH]; intros σ H; [done|].
  rewrite clearSourceLinks_cons. apply IH.
  apply wfStore_updShards; [|done]. apply wfShards_clearAt.
Qed.

End blocks.

Section move.
Implicit Types (ph : placementHelper) (σ : list Instance) (k : Z) (l : nat) (c : Shard).

Lemma sameAttrs_refl σ : sameAttrs σ σ.
Proof. by intros l. Qed.

Lemma sameAttrs_trans σ1 σ2 σ3 : sameAttrs σ1 σ2 -> sameAttrs σ2 σ3 -> sameAttrs σ1 σ3.
Proof.
  intros H1 H2 l. destruct (H1 l) as (? & ? & ? & ?), (H2 l) as (? & ? & ? & ?).
  split_and!; try congruence. tauto.
Qed.

Lemma sameAttrs_updShards l f σ : sameAttrs σ (updShards l f σ).
Proof.
  intros l'. by rewrite idOf_updShards, rackOf_updShards, weightOf_updShards, is_Some_updShards.
Qed.

Lemma sameAttrs_clearSourceLinks k toID ls σ : sameAttrs σ (clearSourceLinks k toID ls σ).
Proof. intros l. apply clearSourceLinks_lookup_attrs. Qed.

Lemma leaveFrom_spec c f ns ph σ :
  s_state c ≠ Leaving ->
  exists σ1,
    leaveFrom c f ns (ph, σ) =
      (SetSourceID (movedSourceID σ c (Some f)) ns,
       (setIndex (alter (fun X => X ∖ {[f]}) (s_id c) (shardToInstanceMap ph)) ph, σ1)) ∧
    sameAttrs σ σ1 ∧
    (wfStore σ -> wfStore σ1) ∧
    (forall l k,
       Lookup (shardsOf σ1 l) k =
         if decide (l = f ∧ k = s_id c)
         then leftShard (ShardCutoffNanosFn (opts ph)) c (Lookup (shardsOf σ l) k)
         else Lookup (shardsOf σ l) k).
Proof.
  unfold leaveFrom, movedSourceID, leftShard. intros HnL.
  destruct (s_state c) eqn:Hst; [| | |done]; eexists; (split; [reflexivity|]).
  - split_and!; [apply sameAttrs_updShards| |].
    + apply wfStore_updShards. intros. by apply wfShards_Remove.
    + intros l k. rewrite shardsOf_updShards_nil by done.
      destruct (decide (f = l)) as [->|NE].
      * rewrite Lookup_Remove. destruct (decide (s_id c = k)) as [->|NE'].
        -- by rewrite decide_True.
        -- rewrite decide_False; [done|]. intros [_ ?]; congruence.
      * rewrite decide_False; [done|]. intros [? _]; congruence.
  - split_and!; [apply sameAttrs_updShards| |].
    + apply wfStore_updShards. intros. by apply wfShards_Remove.
    + intros l k. rewrite shardsOf_updShards_nil by done.
      destruct (decide (f = l)) as [->|NE].
      * rewrite Lookup_Remove. destruct (decide (s_id c = k)) as [->|NE'].
        -- by rewrite decide_True.
        -- rewrite decide_False; [done|]. intros [_ ?]; congruence.
      * rewrite decide_False; [done|]. intros [? _]; congruence.
  - split_and!; [apply sameAttrs_updShards| |].
    + apply wfStore_updShards. intros. by apply wfShards_mutateShard.
    + intros l k. rewrite shardsOf_updShards_nil by done.
      destruct (decide (f = l)) as [->|NE].
      * rewrite Lookup_mutateShard by done. destruct (decide (s_id c = k)) as [->|NE'].
        -- by rewrite decide_True.
        -- rewrite decide_False; [done|]. intros [_ ?]; congruence.
      * rewrite decide_False; [done|]. intros [? _]; congruence.
Qed.

Lemma takeBack_spec k to ns ph σ :
  exists σ2,
    takeBack k to ns (ph, σ) =
      (if holdsLeaving σ to k then SetState Available (NewShard k) else ns, (ph, σ2)) ∧
    sameAttrs σ σ2 ∧
    (wfStore σ -> wfStore σ2) ∧
    (forall l k',
       Lookup (shardsOf σ2 l) k' =
         if decide (holdsLeaving σ to k = true ∧ k' = k ∧ l ∈ ownersOf ph k)
         then unlink (idOf σ to) <$> Lookup (shardsOf σ l) k'
         else Lookup (shardsOf σ l) k').
Proof.
  unfold takeBack, holdsLeaving.
  destruct (Lookup (shardsOf σ to) k) as [cur|] eqn:Hcur.
  2:{ exists σ. split_and!; [done|apply sameAttrs_refl|done|].
      intros. rewrite decide_False; [done|]. intros [? _]; done. }
  destruct (bool_decide (s_state cur = Leaving)) eqn:B.
  2:{ exists σ. split_and!; [done|apply sameAttrs_refl|done|].
      intros. rewrite decide_False; [done|]. intros [? _]; done. }
  eexists. split; [reflexivity|].
  split_and!; [apply sameAttrs_clearSourceLinks|apply wfStore_clearSourceLinks|].
  intros l k'. rewrite clearSourceLinks_shardsOf by apply NoDup_elements.
  destruct (decide (l ∈ elements (ownersOf ph k))) as [Hin|Hin];
    rewrite elem_of_elements in Hin.
  - rewrite Lookup_clearAt. destruct (decide (k = k')) as [<-|NE].
    + by rewrite decide_True.
    + rewrite decide_False; [done|]. intros (_ & ? & _); congruence.
  - rewrite decide_False; [done|]. tauto.
Qed.

Lemma assignShardToInstance_spec s to ph σ :
  exists σ3,
    assignShardToInstance s to (ph, σ) =
      (setIndex (<[s_id s := ownersOf ph (s_id s) ∪ {[to]}]> (shardToInstanceMap ph)) ph, σ3) ∧
    sameAttrs σ σ3 ∧
    (wfStore σ -> wfStore σ3) ∧
    (forall l k,
       Lookup (shardsOf σ3 l) k =
         if decide (l = to ∧ k = s_id s ∧ is_Some (σ !! to)) then Some s
         else Lookup (shardsOf σ l) k).
Proof.
  unfold assignShardToInstance. eexists. split; [reflexivity|].
  split_and!; [apply sameAttrs_updShards| |].
  - apply wfStore_updShards. intros. by apply wfShards_Add.
  - intros l k. rewrite shardsOf_updShards.
    destruct (decide (to = l ∧ is_Some (σ !! to))) as [[-> Hv]|NE].
    + rewrite Lookup_Add. destruct (decide (s_id s = k)) as [<-|NE'].
      * by rewrite decide_True.
      * rewrite decide_False; [done|]. intros (_ & ? & _); congruence.
    + rewrite decide_False; [done|]. intros (-> & _ & ?). tauto.
Qed.

Lemma moveShard_false c from to st st' :
  moveShard c from to st = (false, st') ->
  st' = st ∧ (canAssignInstance st.1 st.2 (s_id c) from to = false ∨ s_state c = Leaving).
Proof.
  unfold moveShard.
  destruct (canAssignInstance _ _ _ _ _); simpl; [|intros [= <-]; auto].
  destruct (bool_decide (s_state c = Leaving)) eqn:B.
  - apply bool_decide_eq_true in B. intros [= <-]; auto.
  - destruct from; [destruct (leaveFrom _ _ _ _)|];
      destruct (takeBack _ _ _ _); discriminate.
Qed.

Lemma moveShard_moved c from to st :
  (moveShard c from to st).1 = true <->
    canAssignInstance st.1 st.2 (s_id c) from to = true ∧ s_state c ≠ Leaving.
Proof.
  unfold moveShard.
  destruct (canAssignInstance _ _ _ _ _); simpl; [|split; [done|intros [? _]; done]].
  destruct (bool_decide (s_state c = Leaving)) eqn:B.
  - apply bool_decide_eq_true in B. simpl. split; [done|intros [_ ?]; done].
  - apply bool_decide_eq_false in B.
    destruct from; [destruct (leaveFrom _ _ _ _)|];
      destruct (takeBack _ _ _ _); simpl; done.
Qed.

Lemma moveShard_not_onto_from c to ph σ :
  candidateOn σ c (Some to) -> (moveShard c (Some to) to (ph, σ)).1 = false.
Proof.
  intros Hc. apply not_true_iff_false. rewrite moveShard_moved. simpl.
  intros [Hcan Hst]. apply canAssignInstance_iff in Hcan as [[HN|(s & Hs & HL)] _].
  - rewrite (Hc to) in HN; done.
  - rewrite (Hc to) in Hs by done. congruence.
Qed.

(** The effect of a successful [moveShard], shard by shard. *)
Lemma moveShard_true_effect c from to ph σ ph' σ' :
  moveShard c from to (ph, σ) = (true, (ph', σ')) ->
  from ≠ Some to ->
  sameAttrs σ σ' ∧ sameConfig ph ph' ∧ (wfStore σ -> wfStore σ') ∧
  (forall k, ownersOf ph' k =
     if decide (k = s_id c)
     then match from with
          | Some f => ownersOf ph k ∖ {[f]}
          | None => ownersOf ph k
          end ∪ {[to]}
     else ownersOf ph k) ∧
  (forall l k, Lookup (shardsOf σ' l) k =
     if decide (k = s_id c)
     then if decide (l = to ∧ is_Some (σ !! to)) then Some (arrivedShard σ c from to)
          else if decide (from = Some l)
               then leftShard (ShardCutoffNanosFn (opts ph)) c (Lookup (shardsOf σ l) k)
               else if decide (holdsLeaving σ to k = true ∧ l ∈ ownersOf ph k)
                    then unlink (idOf σ to) <$> Lookup (shardsOf σ l) k
                    else Lookup (shardsOf σ l) k
     else Lookup (shardsOf σ l) k).
Proof.
  intros Hm Hne.
  assert (Hmoved : (moveShard c from to (ph, σ)).1 = true) by (by rewrite Hm).
  apply moveShard_moved in Hmoved as [Hcan HnL]. simpl in Hcan.
  unfold moveShard in Hm. cbn [fst snd] in Hm. rewrite Hcan in Hm. cbn [negb] in Hm.
  rewrite bool_decide_eq_false_2 in Hm by done.
  (* the state after the [from] block *)
  assert (exists ph1 σ1,
    match from with
    | Some f => leaveFrom c f (NewShard (s_id c)) (ph, σ)
    | None => (NewShard (s_id c), (ph, σ))
    end = (SetSourceID (movedSourceID σ c from) (NewShard (s_id c)), (ph1, σ1)) ∧
    sameAttrs σ σ1 ∧ sameConfig ph ph1 ∧ (wfStore σ -> wfStore σ1) ∧
    (forall k, ownersOf ph1 k =
       if decide (k = s_id c)
       then match from with
            | Some f => ownersOf ph k ∖ {[f]}
            | None => ownersOf ph k
            end
       else ownersOf ph k) ∧
    (forall l k, Lookup (shardsOf σ1 l) k =
       if decide (from = Some l ∧ k = s_id c)
       then leftShard (ShardCutoffNanosFn (opts ph)) c (Lookup (shardsOf σ l) k)
       else Lookup (shardsOf σ l) k)) as (ph1 & σ1 & E1 & Ha1 & Hc1 & Hw1 & Ho1 & Hl1).
  { destruct from as [f|].
    - destruct (leaveFrom_spec c f (NewShard (s_id c)) ph σ HnL) as (σ1 & E & Ha & Hw & Hl).
      eexists _, σ1. split; [exact E|]. split_and!; [done|done|done| |].
      + intros k. rewrite ownersOf_remove.
        destruct (decide (s_id c = k)) as [<-|NE].
        * by rewrite decide_True.
        * by rewrite decide_False by congruence.
      + intros l k. rewrite Hl.
        destruct (decide (l = f ∧ k = s_id c)) as [[-> ->]|NE].
        * by rewrite decide_True.
        * rewrite decide_False; [done|]. intros [[= ->] ->]. tauto.
    - exists ph, σ. split_and!; [done|apply sameAttrs_refl|done|done| |].
      + intros k. by case_decide.
      + intros l k. rewrite decide_False; [done|]. intros [? _]; done. }
  rewrite E1 in Hm. clear E1.
  destruct (takeBack_spec (s_id c) to (SetSourceID (movedSourceID σ c from) (NewShard (s_id c)))
              ph1 σ1) as (σ2 & E2 & Ha2 & Hw2 & Hl2).
  rewrite E2 in Hm. clear E2.
  assert (Hhold : holdsLeaving σ1 to (s_id c) = holdsLeaving σ to (s_id c)).
  { unfold holdsLeaving. rewrite Hl1. rewrite decide_False; [done|].
    intros [? _]. congruence. }
  rewrite Hhold in Hm.
  fold (arrivedShard σ c from to) in Hm.
  destruct (assignShardToInstance_spec (arrivedShard σ c from to) to ph1 σ2)
    as (σ3 & E3 & Ha3 & Hw3 & Hl3).
  rewrite E3 in Hm. clear E3. injection Hm as <- <-.
  assert (Hid : s_id (arrivedShard σ c from to) = s_id c).
  { unfold arrivedShard. by destruct (holdsLeaving σ to (s_id c)). }
  split_and!.
  - eauto using sameAttrs_trans.
  - unfold sameConfig in *. simpl. tauto.
  - auto.
  - intros k. rewrite ownersOf_insert, Hid.
    destruct (decide (s_id c = k)) as [<-|NE].
    + rewrite decide_True by done. rewrite Ho1. by rewrite decide_True.
    + rewrite decide_False by congruence. rewrite Ho1. by rewrite decide_False by congruence.
  - intros l k. rewrite Hl3, Hid, Hl2, Hl1, Hhold.
    assert (Hv : is_Some (σ2 !! to) <-> is_Some (σ !! to)).
    { destruct (Ha1 to) as (_ & _ & _ & <-). by destruct (Ha2 to) as (_ & _ & _ & ?). }
    assert (Hidto : idOf σ1 to = idOf σ to) by (by destruct (Ha1 to) as (-> & _)).
    rewrite Hidto.
    destruct (decide (k = s_id c)) as [->|NEk].
    2:{ rewrite !decide_False; [done| | |]; tauto. }
    destruct (decide (l = to ∧ is_Some (σ !! to))) as [[-> Hvalid]|NEto].
    { rewrite decide_True; [done|]. tauto. }
    rewrite (decide_False (P := l = to ∧ _ ∧ _)) by tauto.
    rewrite Ho1, (decide_True (P := s_id c = s_id c)) by done.
    destruct (decide (from = Some l)) as [->|NEf].
    + rewrite decide_False by set_solver. by rewrite decide_True.
    + rewrite (decide_False (P := from = Some l ∧ _)) by tauto.
      apply decide_ext. destruct from as [f|]; [|tauto].
      assert (l ≠ f) by congruence. set_solver.
Qed.

End move.

(** * The invariants of the helper *)

Section checks.
Implicit Types (ph : placementHelper) (σ : list Instance) (k : Z) (l : nat).

Lemma shardsOf_ge σ l : (length σ ≤ l)%nat -> shardsOf σ l = [].
Proof. intros H. unfold shardsOf. by rewrite lookup_ge_None_2. Qed.

Lemma nonLeavingOwner_valid σ l k : nonLeavingOwner σ l k -> (l < length σ)%nat.
Proof.
  intros (s & Hs & _). destruct (decide (l < length σ)%nat); [done|].
  rewrite shardsOf_ge in Hs by lia. done.
Qed.

Lemma wfStoreb_sound σ : wfStoreb σ = true -> wfStore σ.
Proof.
  unfold wfStoreb. rewrite forallb_forall. intros H l. unfold shardsOf.
  destruct (σ !! l) as [i|] eqn:E; simpl; [|apply NoDup_nil_2].
  eapply bool_decide_eq_true, H, list_elem_of_In, list_elem_of_lookup_2, E.
Qed.

Lemma indexCompleteb_sound ph σ : indexCompleteb (ph, σ) = true -> indexComplete (ph, σ).
Proof.
  unfold indexCompleteb. rewrite forallb_forall. intros H l k Ho.
  pose proof (nonLeavingOwner_valid _ _ _ Ho) as Hl.
  destruct Ho as (s & Hs & HnL). simpl in *.
  specialize (H l). rewrite forallb_forall in H.
  assert (Hin : In l (seq 0 (length σ))) by (apply in_seq; lia).
  specialize (H Hin s (proj1 (list_elem_of_In _ _) (Lookup_Some_elem _ _ _ Hs))).
  apply orb_true_iff in H as [H|H]; apply bool_decide_eq_true in H; [done|].
  by rewrite (Lookup_Some_id _ _ _ Hs) in H.
Qed.

Lemma rackDiverseb_sound σ : rackDiverseb σ = true -> rackDiverse σ.
Proof.
  unfold rackDiverseb. rewrite forallb_forall. intros H l1 l2 k Ho1 Ho2 Hr.
  pose proof (nonLeavingOwner_valid _ _ _ Ho1) as Hl1.
  pose proof (nonLeavingOwner_valid _ _ _ Ho2) as Hl2.
  destruct Ho1 as (s1 & Hs1 & HnL1), Ho2 as (s2 & Hs2 & HnL2).
  assert (Hin1 : In l1 (seq 0 (length σ))) by (apply in_seq; lia).
  assert (Hin2 : In l2 (seq 0 (length σ))) by (apply in_seq; lia).
  specialize (H l1 Hin1). rewrite forallb_forall in H.
  specialize (H l2 Hin2). rewrite forallb_forall in H.
  specialize (H s1 (proj1 (list_elem_of_In _ _) (Lookup_Some_elem _ _ _ Hs1))).
  rewrite forallb_forall in H.
  specialize (H s2 (proj1 (list_elem_of_In _ _) (Lookup_Some_elem _ _ _ Hs2))).
  rewrite (Lookup_Some_id _ _ _ Hs1), (Lookup_Some_id _ _ _ Hs2) in H.
  rewrite !orb_true_iff, !negb_true_iff in H.
  destruct H as [[[[H|H]|H]|H]|H];
    first [apply bool_decide_eq_true in H | apply bool_decide_eq_false in H]; done.
Qed.

Lemma helperInvb_sound ph σ : helperInvb (ph, σ) = true -> helperInv (ph, σ).
Proof.
  unfold helperInvb. rewrite !andb_true_iff. intros [[H1 H2] H3].
  split_and!; [by apply wfStoreb_sound|by apply indexCompleteb_sound|by apply rackDiverseb_sound].
Qed.

End checks.

Section invariant.
Implicit Types (ph : placementHelper) (σ : list Instance) (k : Z) (l : nat) (c : Shard).

Lemma moveShard_owner_after c from to ph σ ph' σ' :
  moveShard c from to (ph, σ) = (true, (ph', σ')) ->
  from ≠ Some to ->
  forall l k,
    nonLeavingOwner σ' l k ->
    (k = s_id c ∧ l = to) ∨ (nonLeavingOwner σ l k ∧ ¬ (k = s_id c ∧ from = Some l)).
Proof.
  intros Hm Hne l k (s & Hs & HnL).
  assert (Hmoved : (moveShard c from to (ph, σ)).1 = true) by (by rewrite Hm).
  apply moveShard_moved in Hmoved as [_ HcL].
  destruct (moveShard_true_effect _ _ _ _ _ _ _ Hm Hne) as (_ & _ & _ & _ & HL).
  rewrite HL in Hs. clear HL.
  destruct (decide (k = s_id c)) as [->|NEk].
  2:{ right. split; [by exists s|]. tauto. }
  destruct (decide (l = to ∧ _)) as [[-> _]|NEto]; [by left|].
  right. destruct (decide (from = Some l)) as [->|NEf].
  - exfalso. unfold leftShard in Hs. destruct (s_state c); try done.
    destruct (Lookup (shardsOf σ l) (s_id c)); by simplify_eq/=.
  - split; [|tauto]. destruct (decide (_ ∧ _)); [|by exists s].
    destruct (Lookup (shardsOf σ l) (s_id c)) as [s0|] eqn:E; simplify_eq/=.
    exists s0. split; [done|]. unfold unlink in HnL. by destruct (bool_decide _).
Qed.


End invariant.

(** C5, as stated, fails: the links are cleared on the instances that the
    reverse index records for the shard, and on no other.  The helper that
    [newReplaceInstanceHelper] builds to replace "x1" and "x2" does not index
    them.  Moving shard 1 from "x1" to "a", which holds it as Leaving,
    succeeds and makes the shard Available on "a"; the Initializing shard 1
    of "x2" names "a" as its source before the move and still does after
    it. *)
Lemma moveShard_keeps_unindexed_link :
  let st := examples.links_start in
  let c := mkShard 1 Available "" 0 0 in
  let r := moveShard c (Some 1%nat) 0%nat st in
  newReplaceInstanceHelper examples.links_store examples.links_p ["x1"; "x2"] []
                           examples.opts0 = Some (st, [1%nat; 2%nat], []) ∧
  Instances st.1 = [0%nat] ∧ st.2 = examples.links_store ∧
  ownersOf st.1 1 = ∅ ∧
  candidateOn st.2 c (Some 1%nat) ∧
  holdsLeaving st.2 0 1 = true ∧
  idOf st.2 0 = "a" ∧
  Lookup (shardsOf st.2 2) 1 = Some (mkShard 1 Initializing "a" 0 0) ∧
  r.1 = true ∧
  Lookup (shardsOf r.2.2 0) 1 = Some (mkShard 1 Available "" 0 0) ∧
  Lookup (shardsOf r.2.2 2) 1 = Some (mkShard 1 Initializing "a" 0 0).
Proof.
  intros st c r.
  assert (Hs : st.2 = examples.links_store) by (vm_compute; reflexivity).
  split; [vm_compute; reflexivity|].
  split; [vm_compute; reflexivity|].
  split; [exact Hs|].
  split; [vm_compute; reflexivity|].
  split.
  { intros f Hf. assert (f = 1%nat) as -> by congruence. rewrite Hs. reflexivity. }
  split; [rewrite Hs; reflexivity|].
  split; [rewrite Hs; reflexivity|].
  split; [rewrite Hs; reflexivity|].
  split; [vm_compute; reflexivity|].
  split; vm_compute; reflexivity.
Qed.

(** C5, amended: [moveShard] returns false exactly when [canAssignInstance]
    refuses or the candidate is Leaving, and then changes nothing.  Otherwise
    it succeeds and: an Unknown or Initializing candidate is removed from
    [from] and the new shard on [to] inherits its source id; an Available
    candidate becomes Leaving on [from], stamped with the cutoff time, and
    the new shard on [to] has the id of [from] as its source; and when [to]
    still holds the shard as Leaving, the new shard on [to] is a fresh
    Available one without source, every other instance that the reverse
    index records for the shard and whose shard of that id names [to] as its
    source has the source cleared, and the shard of that id of every other
    instance that the index does not record stays as it is.  In a helper
    whose index records every ownership, the source is cleared on every
    other instance whose Initializing shard names [to].  The candidate is the
    shard stored by [from]; nothing is assumed of the reverse index. *)
Theorem moveShard_spec
    (c : Shard) (from : option nat) (to : nat) (ph : placementHelper) (σ : list Instance) :
  candidateOn σ c from ->
  is_Some (σ !! to) ->
  let k := s_id c in
  let r := moveShard c from to (ph, σ) in
  let σ' := r.2.2 in
  (r.1 = false <-> canAssignInstance ph σ k from to = false ∨ s_state c = Leaving) ∧
  (r.1 = false -> r.2 = (ph, σ)) ∧
  (r.1 = true ->
     (forall f, from = Some f ->
        (s_state c = Unknown ∨ s_state c = Initializing ->
           Lookup (shardsOf σ' f) k = None) ∧
        (s_state c = Available ->
           Lookup (shardsOf σ' f) k =
             Some (SetCutoffNanos (ShardCutoffNanosFn (opts ph)) (SetState Leaving c)))) ∧
     (holdsLeaving σ to k = false ->
        exists newShard,
          Lookup (shardsOf σ' to) k = Some newShard ∧
          s_id newShard = k ∧ s_state newShard = Unknown ∧
          (from = None -> s_sourceID newShard = "") ∧
          (forall f, from = Some f ->
             (s_state c = Unknown ∨ s_state c = Initializing ->
                s_sourceID newShard = s_sourceID c) ∧
             (s_state c = Available -> s_sourceID newShard = idOf σ f))) ∧
     (holdsLeaving σ to k = true ->
        Lookup (shardsOf σ' to) k = Some (SetState Available (NewShard k)) ∧
        s_sourceID (SetState Available (NewShard k)) = "" ∧
        (forall l s,
           l ≠ to -> from ≠ Some l -> l ∈ ownersOf ph k ->
           Lookup (shardsOf σ l) k = Some s -> s_sourceID s = idOf σ to ->
           Lookup (shardsOf σ' l) k = Some (SetSourceID "" s)) ∧
        (forall l,
           l ≠ to -> from ≠ Some l -> l ∉ ownersOf ph k ->
           Lookup (shardsOf σ' l) k = Lookup (shardsOf σ l) k) ∧
        (indexComplete (ph, σ) ->
         forall l s,
           l ≠ to -> from ≠ Some l ->
           Lookup (shardsOf σ l) k = Some s ->
           s_state s = Initializing -> s_sourceID s = idOf σ to ->
           Lookup (shardsOf σ' l) k = Some (SetSourceID "" s)))).
Proof.
  intros Hc Hv k r σ'. subst r σ' k.
  split_and!.
  - rewrite <- not_true_iff_false, moveShard_moved. simpl.
    destruct (canAssignInstance _ _ _ _ _).
    2:{ split; [by left|]. intros _ [? _]. done. }
    split.
    + intros HN. right. destruct (decide (s_state c = Leaving)); [done|]. tauto.
    + intros [?|?] [_ ?]; done.
  - intros Hf. destruct (moveShard c from to (ph, σ)) as [moved st'] eqn:Hm.
    simpl in Hf. subst moved. by apply moveShard_false in Hm as [-> _].
  - intros Ht. destruct (moveShard c from to (ph, σ)) as [moved [ph' σ']] eqn:Hm.
    simpl in Ht. subst moved. simpl.
    assert (Hne : from ≠ Some to).
    { intros ->. pose proof (moveShard_not_onto_from c to ph σ Hc) as HN.
      rewrite Hm in HN. done. }
    destruct (moveShard_true_effect _ _ _ _ _ _ _ Hm Hne) as (_ & _ & _ & _ & HL).
    split_and!.
    + intros f ->. rewrite HL, decide_True by done.
      rewrite decide_False by (intros [-> _]; done).
      rewrite decide_True by done. rewrite (Hc f) by done. unfold leftShard.
      split; [intros [->| ->]; done|by intros ->].
    + intros Hh. eexists. rewrite HL, decide_True by done.
      rewrite decide_True by done. split; [done|].
      unfold arrivedShard. rewrite Hh. simpl. split_and!; [done|done| |].
      * by intros ->.
      * intros f ->. simpl. split; [intros [->| ->]; done|by intros ->].
    + intros Hh.
      assert (Hclear : forall l s,
                 l ≠ to -> from ≠ Some l -> l ∈ ownersOf ph (s_id c) ->
                 Lookup (shardsOf σ l) (s_id c) = Some s -> s_sourceID s = idOf σ to ->
                 Lookup (shardsOf σ' l) (s_id c) = Some (SetSourceID "" s)).
      { intros l s Hlt Hfl Hin Hs Hsrc. rewrite HL, decide_True by done.
        rewrite decide_False by (intros [-> _]; done).
        rewrite decide_False by done.
        rewrite decide_True by done.
        rewrite Hs. simpl. unfold unlink. by rewrite bool_decide_eq_true_2. }
      split_and!; [|done|exact Hclear| |].
      * rewrite HL, decide_True by done. rewrite decide_True by done.
        unfold arrivedShard. by rewrite Hh.
      * intros l Hlt Hfl Hout. rewrite HL, decide_True by done.
        rewrite decide_False by (intros [-> _]; done).
        rewrite decide_False by done.
        rewrite decide_False; [done|]. by intros [_ ?].
      * intros HIC l s Hlt Hfl Hs Hst Hsrc. apply Hclear; try done.
        apply (HIC l (s_id c)). exists s. split; [done|]. rewrite Hst. done.
Qed.

Lemma moveShard_spec_witness :
  let c := mkShard 1 Initializing "a" 0 0 in
  let r := moveShard c (Some 1%nat) 0%nat (examples.reclaim_ph, examples.reclaim_store) in
  candidateOn examples.reclaim_store c (Some 1%nat) ∧
  r.1 = true ∧
  Lookup (shardsOf r.2.2 1) 1 = None ∧
  Lookup (shardsOf r.2.2 0) 1 = Some (mkShard 1 Available "" 0 0) ∧
  Lookup (shardsOf r.2.2 2) 1 = Some (mkShard 1 Initializing "" 0 0).
Proof.
  intros c r.
  assert (Hc : candidateOn examples.reclaim_store c (Some 1%nat)).
  { intros f [= <-]. reflexivity. }
  assert (Hv : is_Some (examples.reclaim_store !! 0%nat)) by (eexists; reflexivity).
  assert (Hr : r.1 = true) by (vm_compute; reflexivity).
  destruct (moveShard_spec c (Some 1%nat) 0%nat examples.reclaim_ph examples.reclaim_store
              Hc Hv) as (_ & _ & H).
  destruct (H Hr) as (Hfrom & _ & Hre).
  destruct (Hfrom 1%nat eq_refl) as [Hgone _].
  destruct (Hre eq_refl) as (Hto & _ & Hlinks & _ & _).
  split; [exact Hc|]. split; [exact Hr|].
  split; [apply Hgone; right; reflexivity|].
  split; [exact Hto|].
  apply (Hlinks 2%nat (mkShard 1 Initializing "a" 0 0)); [lia|discriminate| | |].
  - vm_compute. set_solver.
  - reflexivity.
  - reflexivity.
Defined.

(** * Every operation of the helper is a sequence of [moveShard] calls *)

Section sequences.
Implicit Types (st : placementHelper * list Instance) (c s : Shard) (from : option nat).

Lemma moveShard_preserves c from to st moved st' :
  candidateOn st.2 c from ->
  moveShard c from to st = (moved, st') ->
  sameAttrs st.2 st'.2 ∧ sameConfig st.1 st'.1 ∧ (wfStore st.2 -> wfStore st'.2) ∧
  (forall l k, k ≠ s_id c -> Lookup (shardsOf st'.2 l) k = Lookup (shardsOf st.2 l) k).
Proof.
  destruct st as [ph σ], st' as [ph' σ']. simpl. intros Hc Hm. destruct moved.
  - assert (Hne : from ≠ Some to).
    { intros ->. pose proof (moveShard_not_onto_from c to ph σ Hc) as HN.
      rewrite Hm in HN. done. }
    destruct (moveShard_true_effect _ _ _ _ _ _ _ Hm Hne) as (Ha & Hcf & Hw & _ & HL).
    split_and!; [done|done|done|]. intros l k Hk. rewrite HL. by rewrite decide_False.
  - apply moveShard_false in Hm as [[= -> ->] _].
    split_and!; [apply sameAttrs_refl|by unfold sameConfig|done|done].
Qed.



Lemma sameConfig_trans ph1 ph2 ph3 :
  sameConfig ph1 ph2 -> sameConfig ph2 ph3 -> sameConfig ph1 ph3.
Proof.
  unfold sameConfig. intros (?&?&?&?&?&?&?&?) (?&?&?&?&?&?&?&?).
  split_and!; congruence.
Qed.

Lemma moves_preserves st st' :
  moves st st' ->
  sameAttrs st.2 st'.2 ∧ sameConfig st.1 st'.1 ∧ (wfStore st.2 -> wfStore st'.2).
Proof.
  induction 1 as [st|c from to st moved st1 st2 Hc Hm _ (Ha & Hcf & Hw)].
  - split_and!; [apply sameAttrs_refl|by unfold sameConfig|done].
  - destruct (moveShard_preserves _ _ _ _ _ _ Hc Hm) as (Ha1 & Hcf1 & Hw1 & _).
    split_and!; [by eapply sameAttrs_trans|by eapply sameConfig_trans|auto].
Qed.

Lemma moves_wfStore st st' : wfStore st.2 -> moves st st' -> wfStore st'.2.
Proof. intros Hw Hm. by apply moves_preserves in Hm as (_ & _ & ?); auto. Qed.



Lemma candidateOn_elem σ s f :
  wfStore σ -> s ∈ shardsOf σ f -> candidateOn σ s (Some f).
Proof. intros Hw Hs f' [= <-]. by apply Lookup_elem. Qed.








Lemma Add_elem_weak s ss x : x ∈ Add s ss -> x = s ∨ x ∈ ss.
Proof.
  induction ss as [|y ss IH]; simpl.
  - intros ->%list_elem_of_singleton. by left.
  - case_decide.
    + intros [->|Hx]%elem_of_cons; [by left|]. right. by right.
    + intros [->|Hx]%elem_of_cons; [right; by left|].
      destruct (IH Hx) as [->|?]; [by left|]. right. by right.
Qed.

Lemma getShardMap_wf shards : wfShards (getShardMap shards).
Proof.
  unfold getShardMap. assert (H : wfShards []) by apply NoDup_nil_2.
  revert H. generalize (@nil Shard).
  induction shards as [|s shards IH]; intros acc H; simpl; [done|].
  apply IH. by apply wfShards_Add.
Qed.

Lemma getShardMap_elem shards x : x ∈ getShardMap shards -> x ∈ shards.
Proof.
  unfold getShardMap.
  assert (H : forall acc, x ∈ foldl (fun r s => Add s r) acc shards -> x ∈ acc ∨ x ∈ shards).
  { induction shards as [|s shards IH]; intros acc; simpl; [by left|].
    intros [Hx|Hx]%IH; [|right; by right].
    apply Add_elem_weak in Hx as [->|?]; [right; by left|by left]. }
  intros [Hx|Hx]%H; [by apply elem_of_nil in Hx|done].
Qed.

Lemma ShardsForState_NoDup x ss : wfShards ss -> NoDup (s_id <$> ShardsForState x ss).
Proof.
  unfold wfShards, ShardsForState. induction ss as [|s ss IH]; [done|].
  csimpl. rewrite NoDup_cons. intros [Hs HN]. rewrite filter_cons.
  case_decide; [|by apply IH]. csimpl. apply NoDup_cons. split; [|by apply IH].
  intros (y & Hy & Hin)%list_elem_of_fmap. apply list_elem_of_filter in Hin as [_ Hin].
  apply Hs. rewrite Hy. by apply list_elem_of_fmap_2.
Qed.

Lemma candidateOn_after_move c from to st moved st' s' :
  candidateOn st.2 c from ->
  moveShard c from to st = (moved, st') ->
  candidateOn st.2 s' from ->
  s_id s' ≠ s_id c ->
  candidateOn st'.2 s' from.
Proof.
  intros Hc Hm Hs' Hne f Hf.
  destruct (moveShard_preserves _ _ _ _ _ _ Hc Hm) as (_ & _ & _ & HL).
  rewrite HL by done. by apply Hs'.
Qed.

(** A loop that hands the shards of one list, of distinct ids, to
    [moveShard] one after the other, all from the same [from]. *)
Lemma reclaim_inner_moves id i instance ss st :
  NoDup (s_id <$> ss) ->
  (forall s, s ∈ ss -> candidateOn st.2 s (Some i)) ->
  moves st (foldl (reclaimStep id i instance) st ss).
Proof.
  revert st. induction ss as [|s ss IH]; intros st HN Hc; [apply moves_refl|].
  csimpl in HN. apply NoDup_cons in HN as [Hs HN]. simpl.
  assert (Hcs : candidateOn st.2 s (Some i)) by (apply Hc; by left).
  unfold reclaimStep at 2. destruct (bool_decide (s_sourceID s = id)).
  - destruct (moveShard s (Some i) instance st) as [m st1] eqn:Hm. simpl.
    eapply moves_step; [exact Hcs|exact Hm|]. apply IH; [done|].
    intros s' Hs'. eapply candidateOn_after_move; [exact Hcs|exact Hm| |].
    + apply Hc. by right.
    + intros E. apply Hs. rewrite <- E. by apply list_elem_of_fmap_2.
  - apply IH; [done|]. intros s' Hs'. apply Hc. by right.
Qed.



Lemma returnStep_cases cm (f : nat) ws st s :
  returnStep cm f (ws, st) s = (ws, st) ∨
  exists src st1,
    moveShard s (Some f) src st = (true, st1) ∧
    returnStep cm f (ws, st) s = (Remove (s_id s) ws, st1).
Proof.
  unfold returnStep.
  destruct (negb _); [by left|].
  destruct (bool_decide (s_sourceID s = "")); [by left|].
  destruct (cm !! s_sourceID s) as [src|]; [|by left].
  destruct (isLeavingAt st.2 src); [by left|].
  destruct (moveShard s (Some f) src st) as [m st1] eqn:Hm. destruct m.
  - right. eauto.
  - apply moveShard_false in Hm as [-> _]. by left.
Qed.

Lemma returnStep_moves cm (f : nat) todo ws st :
  NoDup (s_id <$> todo) ->
  (forall s, s ∈ todo -> s ∈ ws) ->
  wfShards ws ->
  (forall s, s ∈ ws -> candidateOn st.2 s (Some f)) ->
  let r := foldl (returnStep cm f) (ws, st) todo in
  moves st r.2 ∧ wfShards r.1 ∧
  (forall s, s ∈ r.1 -> s ∈ ws ∧ candidateOn r.2.2 s (Some f)).
Proof.
  revert ws st. induction todo as [|s todo IH]; intros ws st HN Hin Hw Hc; cbn [foldl].
  { split_and!; [apply moves_refl|done|]. intros; split; auto. }
  csimpl in HN. apply NoDup_cons in HN as [Hs HN].
  assert (Hrest : forall s', s' ∈ todo -> s_id s' ≠ s_id s).
  { intros s' Hs' E. apply Hs. rewrite <- E. by apply list_elem_of_fmap_2. }
  destruct (returnStep_cases cm f ws st s) as [->|(src & st1 & Hm & ->)].
  { apply IH; auto. intros s' Hs'. apply Hin. by right. }
  assert (Hcs : candidateOn st.2 s (Some f)) by (apply Hc, Hin; by left).
  assert (Hc1 : forall s', s' ∈ ws -> s_id s' ≠ s_id s -> candidateOn st1.2 s' (Some f)).
  { intros s' Hs' Hne. eapply candidateOn_after_move; [exact Hcs|exact Hm|by apply Hc|done]. }
  destruct (IH (Remove (s_id s) ws) st1) as (Hmv & Hwf & Hel); auto.
  - intros s' Hs'. apply Remove_elem. split; [apply Hin; by right|by apply Hrest].
  - by apply wfShards_Remove.
  - intros s' [Hs' Hne]%Remove_elem. by apply Hc1.
  - split_and!; [by eapply moves_step|done|].
    intros s0 Hs0. destruct (Hel _ Hs0) as [[? ?]%Remove_elem ?]. done.
Qed.







End sequences.

(** * [Optimize] *)

(** C8, as stated, fails.  After a replica has been added to a placement in
    which two instances share a rack, one safe [Optimize] leaves instance "c"
    with shard 0 and a second one leaves it with shard 2: the second run
    moves shards, and the generated placements differ. *)
Lemma Optimize_twice_differs :
  examples.generatedIDs 1 examples.replica_placed = Some [0; 2] ∧
  examples.generatedIDs 2 examples.replica_placed = Some [1] ∧
  examples.generatedIDs 1 examples.replica_once = Some [2; 1] ∧
  examples.generatedIDs 2 examples.replica_once = Some [0] ∧
  examples.generatedIDs 1 examples.replica_twice = Some [1; 0] ∧
  examples.generatedIDs 2 examples.replica_twice = Some [2].
Proof. vm_compute. repeat split. Qed.

(** C8, amended: when a run of [Optimize] ends with no instance under its
    target load, a second run in the same mode moves no shard and returns the
    same state. *)
Theorem Optimize_idempotent_when_balanced
    (fuel fuel' : nat) (t : optimizeType) (st st1 : placementHelper * list Instance) :
  Optimize fuel t st = Some st1 ->
  mostUnderLoadedInstance st1 = None ->
  Optimize (S fuel') t st1 = Some st1.
Proof.
  intros _ Hnone. unfold Optimize, optimize. destruct t; cbn [optimize_loop]; by rewrite Hnone.
Qed.

Lemma Optimize_idempotent_when_balanced_witness :
  Optimize 10 unsafe examples.pair_start = Some examples.pair_once ∧
  mostUnderLoadedInstance examples.pair_once = None ∧
  s_id <$> shardsOf examples.pair_once.2 1 = [0] ∧
  Optimize 1 unsafe examples.pair_once = Some examples.pair_once.
Proof.
  assert (H1 : Optimize 10 unsafe examples.pair_start = Some examples.pair_once)
    by (vm_compute; reflexivity).
  assert (H2 : mostUnderLoadedInstance examples.pair_once = None)
    by (vm_compute; reflexivity).
  split; [exact H1|]. split; [exact H2|]. split; [vm_compute; reflexivity|].
  exact (Optimize_idempotent_when_balanced 10 0 unsafe _ _ H1 H2).
Defined.

(** * [ReclaimLeavingShards] *)

Section reclaim.
Implicit Types (st : placementHelper * list Instance) (c s : Shard).

Lemma canAssignInstance_frame ph σ ph1 σ1 k from to :
  Lookup (shardsOf σ1 to) k = Lookup (shardsOf σ to) k ->
  opts ph1 = opts ph -> (forall l, rackOf σ1 l = rackOf σ l) ->
  ownersOf ph1 k = ownersOf ph k ->
  canAssignInstance ph1 σ1 k from to = canAssignInstance ph σ k from to.
Proof.
  intros HL Ho Hr Hown. apply eq_true_iff_eq.
  rewrite !canAssignInstance_iff, HL, Ho, Hown.
  assert (E : (exists f, from = Some f ∧ rackOf σ1 f = rackOf σ1 to)
              <-> (exists f, from = Some f ∧ rackOf σ f = rackOf σ to)).
  { split; intros (f & ? & ?); exists f; rewrite ?Hr in *; done. }
  rewrite E. clear E.
  assert (E : (forall l, l ∈ ownersOf ph k -> rackOf σ1 l ≠ rackOf σ1 to)
              <-> (forall l, l ∈ ownersOf ph k -> rackOf σ l ≠ rackOf σ to)).
  { split; intros H l Hl; specialize (H l Hl); rewrite ?Hr in *; done. }
  rewrite E. done.
Qed.

Lemma SetSourceID_same s : SetSourceID (s_sourceID s) s = s.
Proof. by destruct s. Qed.

(** One call of [moveShard] towards [i], seen from a shard that names [i]
    as its source. *)
Lemma moveShard_back_step c j' i st moved st1 :
  candidateOn st.2 c (Some j') ->
  is_Some (st.2 !! i) ->
  moveShard c (Some j') i st = (moved, st1) ->
  idOf st1.2 i = idOf st.2 i ∧ is_Some (st1.2 !! i) ∧
  (forall k, nonLeavingOwner st.2 i k -> nonLeavingOwner st1.2 i k) ∧
  (forall j s, s_state s = Initializing -> s_sourceID s = idOf st.2 i ->
     Lookup (shardsOf st.2 j) (s_id s) = Some s ->
     nonLeavingOwner st1.2 i (s_id s) ∨ Lookup (shardsOf st1.2 j) (s_id s) = Some s) ∧
  (forall j s, s_state s = Initializing -> s_sourceID s = idOf st.2 i ->
     Lookup (shardsOf st1.2 j) (s_id s) = Some s ->
     Lookup (shardsOf st.2 j) (s_id s) = Some s ∧
     (canAssignInstance st.1 st.2 (s_id s) (Some j) i = false ->
      canAssignInstance st1.1 st1.2 (s_id s) (Some j) i = false)).
Proof.
  destruct st as [ph σ], st1 as [ph1 σ1]. simpl. intros Hc Hv Hm. destruct moved.
  2:{ apply moveShard_false in Hm as [[= -> ->] _]. split_and!; auto. }
  assert (Hne : Some j' ≠ Some i).
  { intros [= ->]. pose proof (moveShard_not_onto_from c i ph σ Hc) as HN.
    rewrite Hm in HN. done. }
  assert (Hmoved : (moveShard c (Some j') i (ph, σ)).1 = true) by (by rewrite Hm).
  apply moveShard_moved in Hmoved as [_ HcL].
  destruct (moveShard_true_effect _ _ _ _ _ _ _ Hm Hne) as (Ha & Hcf & _ & Ho & HL).
  assert (Hid : idOf σ1 i = idOf σ i) by (by destruct (Ha i) as (? & _)).
  assert (Hv1 : is_Some (σ1 !! i)) by (by destruct (Ha i) as (_ & _ & _ & ->)).
  assert (Harr : Lookup (shardsOf σ1 i) (s_id c) = Some (arrivedShard σ c (Some j') i)).
  { rewrite HL, decide_True by done. by rewrite decide_True. }
  assert (HarrL : s_state (arrivedShard σ c (Some j') i) ≠ Leaving).
  { unfold arrivedShard. by destruct (holdsLeaving σ i (s_id c)). }
  assert (Hown : nonLeavingOwner σ1 i (s_id c)) by (by eexists).
  split_and!; [done|done| | |].
  - intros k (s0 & Hs0 & HnL). destruct (decide (k = s_id c)) as [->|NE]; [done|].
    exists s0. split; [|done]. rewrite HL. by rewrite decide_False.
  - intros j s Hst Hsrc Hs. destruct (decide (s_id s = s_id c)) as [E|NE].
    + left. by rewrite E.
    + right. rewrite HL. by rewrite decide_False.
  - intros j s Hst Hsrc Hs1. destruct (decide (s_id s = s_id c)) as [E|NE].
    + assert (Hs : Lookup (shardsOf σ j) (s_id s) = Some s).
      { rewrite HL, decide_True in Hs1 by done.
        destruct (decide (j = i ∧ _)) as [[-> _]|_].
        { injection Hs1 as <-. unfold arrivedShard in Hst.
          destruct (holdsLeaving σ i (s_id c)); done. }
        destruct (decide (Some j' = Some j)) as [[= <-]|_].
        { unfold leftShard in Hs1. destruct (s_state c); try done.
          destruct (Lookup (shardsOf σ j') (s_id s)); simplify_eq/=. }
        destruct (decide (_ ∧ _)); [|done].
        destruct (Lookup (shardsOf σ j) (s_id s)) as [s0|]; simplify_eq/=.
        f_equal. unfold unlink in *. destruct (bool_decide _) eqn:B; [|done].
        apply bool_decide_eq_true in B. simpl in Hsrc.
        assert (Hz : s_sourceID s0 = "") by congruence.
        rewrite <- Hz. symmetry. apply SetSourceID_same. }
      split; [done|]. intros _. apply not_true_iff_false.
      rewrite canAssignInstance_iff. rewrite E, Harr.
      intros [[?|(s' & [= <-] & ?)] _]; done.
    + assert (Hs : Lookup (shardsOf σ1 j) (s_id s) = Lookup (shardsOf σ j) (s_id s)).
      { rewrite HL. by rewrite decide_False. }
      split; [by rewrite <- Hs|]. intros <-. simpl.
      apply canAssignInstance_frame.
      * rewrite HL. by rewrite decide_False.
      * by destruct Hcf as (_ & _ & _ & _ & _ & _ & _ & ?).
      * intros l. by destruct (Ha l) as (_ & ? & _).
      * rewrite Ho. by rewrite decide_False.
Qed.

Variables (id : string) (i : nat).

(** What every state of the loops satisfies: [i] is an instance, of id [id]. *)
Let target (st : placementHelper * list Instance) : Prop :=
  is_Some (st.2 !! i) ∧ idOf st.2 i = id.

Lemma target_step c j st moved st1 :
  target st -> candidateOn st.2 c (Some j) ->
  moveShard c (Some j) i st = (moved, st1) -> target st1.
Proof.
  intros [Hv Hid] Hc Hm.
  destruct (moveShard_back_step _ _ _ _ _ _ Hc Hv Hm) as (? & ? & _).
  split; [done|congruence].
Qed.

Lemma reclaim_inner_inv (Q : placementHelper * list Instance -> Prop) j ss st :
  (forall c st moved st1,
     Q st -> candidateOn st.2 c (Some j) ->
     moveShard c (Some j) i st = (moved, st1) -> Q st1) ->
  NoDup (s_id <$> ss) ->
  (forall s, s ∈ ss -> candidateOn st.2 s (Some j)) ->
  Q st ->
  Q (foldl (reclaimStep id j i) st ss).
Proof.
  intros HQ. revert st. induction ss as [|s ss IH]; intros st HN Hc Hq; [done|].
  csimpl in HN. apply NoDup_cons in HN as [Hs HN]. cbn [foldl].
  assert (Hcs : candidateOn st.2 s (Some j)) by (apply Hc; by left).
  unfold reclaimStep at 2. destruct (bool_decide (s_sourceID s = id)).
  - destruct (moveShard s (Some j) i st) as [m st1] eqn:Hm. simpl.
    apply IH; [done| |by eapply HQ].
    intros s' Hs'. eapply candidateOn_after_move; [exact Hcs|exact Hm| |].
    + apply Hc. by right.
    + intros E. apply Hs. rewrite <- E. by apply list_elem_of_fmap_2.
  - apply IH; [done| |done]. intros s' Hs'. apply Hc. by right.
Qed.

Lemma reclaim_outer_inv (Q : placementHelper * list Instance -> Prop) ls st :
  (forall c j st moved st1,
     Q st -> candidateOn st.2 c (Some j) ->
     moveShard c (Some j) i st = (moved, st1) -> Q st1) ->
  wfStore st.2 -> Q st ->
  Q (foldl (fun st j => foldl (reclaimStep id j i) st
                          (ShardsForState Initializing (shardsOf st.2 j))) st ls).
Proof.
  intros HQ. revert st. induction ls as [|j ls IH]; intros st Hw Hq; [done|].
  cbn [foldl]. apply IH.
  - eapply moves_wfStore; [exact Hw|].
    apply reclaim_inner_moves; [by apply ShardsForState_NoDup|].
    intros s Hs. apply candidateOn_elem; [done|].
    unfold ShardsForState in Hs. by apply list_elem_of_filter in Hs as [_ ?].
  - apply reclaim_inner_inv; [by eauto|by apply ShardsForState_NoDup| |done].
    intros s Hs. apply candidateOn_elem; [done|].
    unfold ShardsForState in Hs. by apply list_elem_of_filter in Hs as [_ ?].
Qed.

Lemma refusedBack_step c j' st moved st1 j s :
  target st ∧ refusedBack id i st j s ->
  candidateOn st.2 c (Some j') ->
  moveShard c (Some j') i st = (moved, st1) ->
  target st1 ∧ refusedBack id i st1 j s.
Proof.
  intros [Ht Hr] Hc Hm. split; [by eapply target_step|].
  destruct Ht as [Hv Hid].
  destruct (moveShard_back_step _ _ _ _ _ _ Hc Hv Hm) as (_ & _ & _ & _ & Hb).
  intros Hs Hst Hsrc. rewrite <- Hid in Hsrc.
  destruct (Hb j s Hst Hsrc Hs) as [Hs0 Hcan]. apply Hcan, Hr; [done|done|congruence].
Qed.

Lemma reclaim_inner_refused j ss st :
  target st ->
  NoDup (s_id <$> ss) ->
  (forall s, s ∈ ss -> candidateOn st.2 s (Some j)) ->
  forall s, s ∈ ss -> refusedBack id i (foldl (reclaimStep id j i) st ss) j s.
Proof.
  revert st. induction ss as [|s0 ss IH]; intros st Ht HN Hc s Hs;
    [by apply elem_of_nil in Hs|].
  csimpl in HN. apply NoDup_cons in HN as [Hs0 HN]. cbn [foldl].
  assert (Hcs : candidateOn st.2 s0 (Some j)) by (apply Hc; by left).
  set (st1 := reclaimStep id j i st s0).
  assert (H1 : target st1 ∧ refusedBack id i st1 j s0 ∧
               forall s', s' ∈ ss -> candidateOn st1.2 s' (Some j)).
  { subst st1. unfold reclaimStep. destruct (bool_decide (s_sourceID s0 = id)) eqn:B.
    - destruct (moveShard s0 (Some j) i st) as [m st1] eqn:Hm. simpl.
      split_and!.
      + by eapply target_step.
      + destruct m.
        * intros HL Hst _. exfalso.
          assert (Hne : Some j ≠ Some i).
          { intros [= ->]. pose proof (moveShard_not_onto_from s0 i st.1 st.2 Hcs) as HNo.
            destruct st. simpl in HNo. rewrite Hm in HNo. done. }
          destruct st as [ph σ], st1 as [ph1 σ1].
          destruct (moveShard_true_effect _ _ _ _ _ _ _ Hm Hne) as (_ & _ & _ & _ & HLk).
          simpl in HL. rewrite HLk, decide_True in HL by done.
          rewrite decide_False in HL by (intros [-> _]; done).
          rewrite decide_True in HL by done. unfold leftShard in HL.
          by rewrite Hst in HL.
        * apply moveShard_false in Hm as [-> [Hcan|HL]].
          -- intros _ _ _. done.
          -- intros _ Hst _. congruence.
      + intros s' Hs'. eapply candidateOn_after_move; [exact Hcs|exact Hm| |].
        * apply Hc. by right.
        * intros E. apply Hs0. rewrite <- E. by apply list_elem_of_fmap_2.
    - apply bool_decide_eq_false in B. split_and!; [done| |].
      + intros _ _ ?. done.
      + intros s' Hs'. apply Hc. by right. }
  destruct H1 as (Ht1 & Hr1 & Hc1).
  apply elem_of_cons in Hs as [->|Hs]; [|by apply IH].
  apply (reclaim_inner_inv (fun st => target st ∧ refusedBack id i st j s0)); try done.
  intros. by eapply refusedBack_step.
Qed.

Lemma reclaim_outer_refused ls st (D : nat -> Prop) :
  wfStore st.2 -> target st ->
  (forall j s, D j -> refusedBack id i st j s) ->
  forall j s, D j ∨ j ∈ ls ->
    refusedBack id i
      (foldl (fun st j => foldl (reclaimStep id j i) st
                            (ShardsForState Initializing (shardsOf st.2 j))) st ls) j s.
Proof.
  revert st D. induction ls as [|j0 ls IH]; intros st D Hw Ht HD j s Hj.
  { destruct Hj as [?|Hj]; [by apply HD|by apply elem_of_nil in Hj]. }
  cbn [foldl].
  set (ss := ShardsForState Initializing (shardsOf st.2 j0)).
  assert (HN : NoDup (s_id <$> ss)) by (by apply ShardsForState_NoDup).
  assert (Hc : forall s, s ∈ ss -> candidateOn st.2 s (Some j0)).
  { intros s' Hs'. apply candidateOn_elem; [done|].
    unfold ss, ShardsForState in Hs'. by apply list_elem_of_filter in Hs' as [_ ?]. }
  set (st1 := foldl (reclaimStep id j0 i) st ss).
  assert (Hw1 : wfStore st1.2).
  { eapply moves_wfStore; [exact Hw|]. by apply reclaim_inner_moves. }
  assert (Ht1 : target st1).
  { apply (reclaim_inner_inv target); try done. intros. by eapply target_step. }
  apply (IH st1 (fun j => D j ∨ j = j0)); [done|done| |].
  2:{ destruct Hj as [?|[->|?]%elem_of_cons]; auto. }
  clear j s Hj. intros j s [Hd| ->].
  - apply (reclaim_inner_inv (fun st => target st ∧ refusedBack id i st j s)); try done.
    + intros. by eapply refusedBack_step.
    + split; [done|by apply HD].
  - intros Hs Hst Hsrc.
    assert (Hback : target st1 ∧
              (Lookup (shardsOf st1.2 j0) (s_id s) = Some s ->
               Lookup (shardsOf st.2 j0) (s_id s) = Some s)).
    { apply (reclaim_inner_inv
               (fun st' => target st' ∧
                  (Lookup (shardsOf st'.2 j0) (s_id s) = Some s ->
                   Lookup (shardsOf st.2 j0) (s_id s) = Some s))); try done.
      intros c st' m st'' [[Hv Hid] Hq] Hc' Hm'.
      split; [eapply target_step; [split; [exact Hv|exact Hid]|exact Hc'|exact Hm']|].
      intros Hs'.
      destruct (moveShard_back_step _ _ _ _ _ _ Hc' Hv Hm') as (_ & _ & _ & _ & Hb).
      apply Hq. apply (Hb j0 s); [done|congruence|done]. }
    destruct Hback as [_ Hback].
    assert (Hin : s ∈ ss).
    { unfold ss, ShardsForState. apply list_elem_of_filter. split; [done|].
      eapply Lookup_Some_elem, Hback, Hs. }
    by apply (reclaim_inner_refused j0 ss st Ht HN Hc s Hin).
Qed.

End reclaim.

(** C9, as stated, fails: instance "a" holds no Leaving shard, so
    [ReclaimLeavingShards] returns at once; the Initializing shard on "b" that
    names "a" as its source stays in place although [canAssignInstance] accepts
    the move back and [moveShard] would have made it. *)
Lemma ReclaimLeavingShards_skips_without_leaving :
  let st := (examples.stale_ph, examples.stale_store) in
  let s := mkShard 1 Initializing "a" 0 0 in
  Lookup (shardsOf st.2 1) 1 = Some s ∧
  s_sourceID s = idOf st.2 0 ∧
  ReclaimLeavingShards 0 st = st ∧
  canAssignInstance st.1 st.2 1 (Some 1%nat) 0 = true ∧
  (moveShard s (Some 1%nat) 0%nat st).1 = true.
Proof. vm_compute. repeat split. Qed.

(** C9, amended: when instance [i] holds no Leaving shard,
    [ReclaimLeavingShards i] changes nothing.  When it holds one, every
    Initializing shard held by an instance of the helper whose source id is
    the id of [i] is, after the call, either reclaimed ([i] owns that shard id
    in a state other than Leaving) or still in place and refused by
    [canAssignInstance], that is, left only because the move is rejected. *)
Theorem ReclaimLeavingShards_spec (i : nat) (st : placementHelper * list Instance) :
  wfStore st.2 ->
  let st' := ReclaimLeavingShards i st in
  (NumShardsForState Leaving (shardsOf st.2 i) = 0 -> st' = st) ∧
  (NumShardsForState Leaving (shardsOf st.2 i) ≠ 0 ->
   forall j s,
     j ∈ Instances st.1 ->
     Lookup (shardsOf st.2 j) (s_id s) = Some s ->
     s_state s = Initializing -> s_sourceID s = idOf st.2 i ->
     nonLeavingOwner st'.2 i (s_id s) ∨
     (Lookup (shardsOf st'.2 j) (s_id s) = Some s ∧
      canAssignInstance st'.1 st'.2 (s_id s) (Some j) i = false)).
Proof.
  intros Hw st'. subst st'. unfold ReclaimLeavingShards.
  destruct (bool_decide (NumShardsForState Leaving (shardsOf st.2 i) = 0)) eqn:B.
  { apply bool_decide_eq_true in B. split; [done|]. intros HN. done. }
  apply bool_decide_eq_false in B. split; [done|]. intros _ j s Hj Hs Hst Hsrc.
  assert (Hv : is_Some (st.2 !! i)).
  { apply lookup_lt_is_Some. destruct (decide (i < length st.2)%nat); [done|].
    exfalso. apply B. rewrite shardsOf_ge by lia. done. }
  set (id := idOf st.2 i) in *.
  set (loop := foldl _ st (Instances st.1)).
  assert (Hfwd : (is_Some (loop.2 !! i) ∧ idOf loop.2 i = id) ∧
            (nonLeavingOwner loop.2 i (s_id s) ∨ Lookup (shardsOf loop.2 j) (s_id s) = Some s)).
  { apply (reclaim_outer_inv id i
             (fun st' => (is_Some (st'.2 !! i) ∧ idOf st'.2 i = id) ∧
                (nonLeavingOwner st'.2 i (s_id s) ∨
                 Lookup (shardsOf st'.2 j) (s_id s) = Some s))); [|done|auto].
    intros c j' st0 m st1 [[Hv0 Hid0] Hq] Hc Hm.
    destruct (moveShard_back_step _ _ _ _ _ _ Hc Hv0 Hm) as (Hid1 & Hv1 & Hkeep & Hf & _).
    split; [split; [done|congruence]|].
    destruct Hq as [Ho|Hl]; [left; by apply Hkeep|].
    apply Hf; [done|congruence|done]. }
  destruct Hfwd as [_ [Ho|Hl]]; [by left|]. right. split; [done|].
  assert (Hr : refusedBack id i loop j s).
  { apply (reclaim_outer_refused id i (Instances st.1) st (fun _ => False)); auto.
    intros ? ? []. }
  by apply Hr.
Qed.

Lemma ReclaimLeavingShards_spec_witness :
  let st := (examples.reclaim_ph, examples.reclaim_store) in
  let st' := ReclaimLeavingShards 0 st in
  wfStore st.2 ∧
  NumShardsForState Leaving (shardsOf st.2 0) = 1 ∧
  Lookup (shardsOf st.2 1) 1 = Some (mkShard 1 Initializing "a" 0 0) ∧
  (nonLeavingOwner st'.2 0 1 ∨
   (Lookup (shardsOf st'.2 1) 1 = Some (mkShard 1 Initializing "a" 0 0) ∧
    canAssignInstance st'.1 st'.2 1 (Some 1%nat) 0 = false)).
Proof.
  intros st st'.
  assert (Hw : wfStore st.2) by (apply wfStoreb_sound; vm_compute; reflexivity).
  assert (Hn : NumShardsForState Leaving (shardsOf st.2 0) = 1) by reflexivity.
  assert (Hs : Lookup (shardsOf st.2 1) 1 = Some (mkShard 1 Initializing "a" 0 0))
    by reflexivity.
  split; [exact Hw|]. split; [exact Hn|]. split; [exact Hs|].
  destruct (ReclaimLeavingShards_spec 0 st Hw) as [_ H].
  apply (H ltac:(rewrite Hn; discriminate) 1%nat (mkShard 1 Initializing "a" 0 0)).
  - vm_compute. right. left.
  - exact Hs.
  - reflexivity.
  - reflexivity.
Defined.

(** * Target load: the divisors of [buildTargetLoad] *)

Section sums.
Implicit Types (m : gmap string Z) (P : Z -> bool).

Lemma u32_small z : 0 <= z < 2 ^ 32 -> u32 z = z.
Proof. intros H. unfold u32. by apply Z.mod_small. Qed.

Lemma u32_add_l a b : u32 (u32 a + b) = u32 (a + b).
Proof. unfold u32. by rewrite Zplus_mod_idemp_l. Qed.

Lemma mapSum_insert_None m r v : m !! r = None -> mapSum (<[r := v]> m) = v + mapSum m.
Proof.
  intros H. unfold mapSum. rewrite map_fold_insert_L; [done| |done]. intros. lia.
Qed.

Lemma overSum_insert_None P m r v :
  m !! r = None ->
  overSum P (<[r := v]> m) = if P v then v + overSum P m else overSum P m.
Proof.
  intros H. unfold overSum. rewrite map_fold_insert_L; [done| |done].
  intros. destruct (P z1), (P z2); lia.
Qed.

Lemma mapSum_delete m r v : m !! r = Some v -> mapSum m = v + mapSum (delete r m).
Proof.
  intros H. rewrite <- (insert_delete_id m r v H) at 1.
  apply mapSum_insert_None, lookup_delete_eq.
Qed.

Lemma mapSum_insert m r v : mapSum (<[r := v]> m) = v + mapSum m - default 0 (m !! r).
Proof.
  destruct (m !! r) as [w|] eqn:E; simpl.
  - rewrite <- insert_delete_eq. rewrite mapSum_insert_None by apply lookup_delete_eq.
    rewrite (mapSum_delete m r w) by done. lia.
  - rewrite mapSum_insert_None by done. lia.
Qed.

Lemma overSum_bound P m :
  (forall r v, m !! r = Some v -> 0 <= v) -> 0 <= overSum P m <= mapSum m.
Proof.
  induction m as [|r v m Hr IH] using map_ind; intros Hpos.
  - unfold overSum, mapSum. rewrite !map_fold_empty. lia.
  - rewrite overSum_insert_None, mapSum_insert_None by done.
    assert (0 <= v) by (apply (Hpos r); apply lookup_insert_eq).
    assert (0 <= overSum P m <= mapSum m).
    { apply IH. intros r' v' Hv'. apply (Hpos r'). rewrite lookup_insert_ne; [done|].
      intros ->. congruence. }
    destruct (P v); lia.
Qed.

Lemma overSum_excl P m r0 w0 :
  (forall r v, m !! r = Some v -> 0 <= v) ->
  m !! r0 = Some w0 -> P w0 = false ->
  0 <= overSum P m <= mapSum m - w0.
Proof.
  intros Hpos Hr0 HP.
  rewrite (mapSum_delete m r0 w0) by done.
  rewrite <- (insert_delete_id m r0 w0 Hr0) at 1 2.
  rewrite overSum_insert_None by apply lookup_delete_eq. rewrite HP.
  assert (0 <= overSum P (delete r0 m) <= mapSum (delete r0 m)); [|lia].
  apply overSum_bound. intros r v Hv. apply (Hpos r).
  apply lookup_delete_Some in Hv as [_ ?]. done.
Qed.

Lemma overWeightOf_overSum ph :
  (overWeightOf ph).2 =
    u32 (overSum (fun w => isRackOverWeight w (totalWeight ph) (rf ph)) (rackToWeightMap ph)).
Proof.
  unfold overWeightOf.
  apply (map_fold_weak_ind
           (fun r m => r.2 = u32 (overSum (fun w => isRackOverWeight w (totalWeight ph) (rf ph)) m))).
  - unfold overSum. by rewrite map_fold_empty.
  - intros r w m [n O] Hr. simpl. intros ->. rewrite overSum_insert_None by done.
    destruct (isRackOverWeight w (totalWeight ph) (rf ph)); simpl; [|done].
    rewrite u32_add_l. f_equal. lia.
Qed.

End sums.

Section scan.
Implicit Types (ph : placementHelper) (σ : list Instance) (l : nat).

Lemma Add_elem_self s ss : s ∈ Add s ss.
Proof.
  induction ss as [|x ss IH]; simpl; [by left|].
  case_decide; [by left|by right].
Qed.

Lemma isLeavingAt_assign σ l s l' :
  isLeavingAt σ l = false -> s_state s ≠ Leaving ->
  isLeavingAt (updShards l (Add s) σ) l' = isLeavingAt σ l'.
Proof.
  intros Hl Hs. unfold isLeavingAt in *. rewrite updShards_lookup.
  destruct (decide (l = l')) as [<-|NE]; [|done].
  destruct (σ !! l) as [i|] eqn:E; [|done]. simpl in *. rewrite Hl.
  unfold IsLeaving. simpl. apply bool_decide_eq_false. intros [_ HF].
  rewrite Forall_forall in HF. apply Hs, HF, Add_elem_self.
Qed.

(** The loop of [scanCurrentLoad] over the shards of one instance. *)
Lemma scan_shards l ss ph σ :
  isLeavingAt σ l = false ->
  let st' := foldl (fun st s => if bool_decide (s_state s = Leaving) then st
                                else assignShardToInstance s l st) (ph, σ) ss in
  rackToWeightMap st'.1 = rackToWeightMap ph ∧ rf st'.1 = rf ph ∧
  instances st'.1 = instances ph ∧ totalWeight st'.1 = totalWeight ph ∧
  sameAttrs σ st'.2 ∧ (forall l', isLeavingAt st'.2 l' = isLeavingAt σ l').
Proof.
  revert ph σ. induction ss as [|s ss IH]; intros ph σ Hl; cbn [foldl]; cbv zeta.
  { split_and!; try done; apply sameAttrs_refl. }
  destruct (bool_decide (s_state s = Leaving)) eqn:B; [by apply IH|].
  apply bool_decide_eq_false in B.
  remember (assignShardToInstance s l (ph, σ)) as st1 eqn:E0.
  unfold assignShardToInstance in E0. destruct st1 as [p1 σ1]. injection E0 as -> ->.
  match goal with |- context [foldl _ (?p, ?s') ss] =>
    specialize (IH p s') end.
  cbv zeta in IH.
  destruct IH as (E1 & E2 & E3 & E4 & Ha & Hlv).
  { by rewrite isLeavingAt_assign. }
  rewrite E1, E2, E3, E4.
  split_and!; try done.
  - eapply sameAttrs_trans; [apply sameAttrs_updShards|exact Ha].
  - intros l'. rewrite Hlv. by apply isLeavingAt_assign.
Qed.

Lemma scanInstance_spec ph σ tw l :
  exists ph1 σ1,
    scanInstance ((ph, σ), tw) l =
      ((ph1, σ1), if isLeavingAt σ l then tw else u32 (tw + weightOf σ l)) ∧
    rf ph1 = rf ph ∧ instances ph1 = instances ph ∧
    sameAttrs σ σ1 ∧ (forall l', isLeavingAt σ1 l' = isLeavingAt σ l') ∧
    rackToWeightMap ph1 =
      if isLeavingAt σ l then rackToWeightMap ph
      else <[rackOf σ l := u32 (default 0 (rackToWeightMap ph !! rackOf σ l) + weightOf σ l)]>
             (rackToWeightMap ph).
Proof.
  unfold scanInstance. destruct (isLeavingAt σ l) eqn:Hlv.
  - eexists _, _. split; [reflexivity|]. split_and!; try done; apply sameAttrs_refl.
  - match goal with |- context [foldl ?f (?p, σ) (All (shardsOf σ l))] =>
      pose proof (scan_shards l (All (shardsOf σ l)) p σ Hlv) as Hsh;
      destruct (foldl f (p, σ) (All (shardsOf σ l))) as [ph1 σ1] end.
    cbv zeta in Hsh. simpl in Hsh. destruct Hsh as (E1 & E2 & E3 & _ & Ha & Hl).
    exists ph1, σ1. split; [reflexivity|]. split_and!; done.
Qed.

Lemma scannedWeight_nonneg σ ls :
  (forall l, l ∈ ls -> isLeavingAt σ l = false -> 0 <= weightOf σ l) ->
  0 <= scannedWeight σ ls.
Proof.
  induction ls as [|l ls IH]; intros H; simpl; [done|].
  assert (0 <= scannedWeight σ ls) by (apply IH; intros; apply H; [by right|done]).
  assert (0 <= activeWeight σ l); [|lia].
  unfold activeWeight. destruct (isLeavingAt σ l) eqn:E; [done|]. apply H; [by left|done].
Qed.

Lemma mapSum_nonneg (m : gmap string Z) :
  (forall r v, m !! r = Some v -> 0 <= v) -> 0 <= mapSum m.
Proof.
  intros Hpos. pose proof (overSum_bound (fun _ => false) m Hpos) as Hb.
  assert (overSum (fun _ => false) m = 0) as Hz; [|lia].
  unfold overSum. apply (map_fold_weak_ind (fun r _ => r = 0)); done.
Qed.

Lemma scannedWeight_ext σ σ1 ls :
  sameAttrs σ σ1 -> (forall l, isLeavingAt σ1 l = isLeavingAt σ l) ->
  scannedWeight σ1 ls = scannedWeight σ ls.
Proof.
  intros Ha Hl. induction ls as [|x ls IH]; simpl; [done|].
  rewrite IH. unfold activeWeight. rewrite Hl. by destruct (Ha x) as (_ & _ & -> & _).
Qed.

(** What the loop of [scanCurrentLoad] over the instances computes, when
    the weights do not wrap around. *)
Lemma scan_fold ls ph σ tw :
  (forall r v, rackToWeightMap ph !! r = Some v -> 0 <= v) ->
  (forall l, l ∈ ls -> isLeavingAt σ l = false -> 0 <= weightOf σ l) ->
  mapSum (rackToWeightMap ph) + scannedWeight σ ls < 2 ^ 32 ->
  0 <= tw -> tw + scannedWeight σ ls < 2 ^ 32 ->
  exists ph' σ',
    foldl scanInstance ((ph, σ), tw) ls = ((ph', σ'), tw + scannedWeight σ ls) ∧
    sameAttrs σ σ' ∧ (forall l, isLeavingAt σ' l = isLeavingAt σ l) ∧
    rf ph' = rf ph ∧ instances ph' = instances ph ∧
    mapSum (rackToWeightMap ph') = mapSum (rackToWeightMap ph) + scannedWeight σ ls ∧
    (forall r' v, rackToWeightMap ph' !! r' = Some v -> 0 <= v) ∧
    (forall r' v, rackToWeightMap ph !! r' = Some v ->
       exists v', rackToWeightMap ph' !! r' = Some v' ∧ v <= v') ∧
    (forall l, l ∈ ls -> isLeavingAt σ l = false ->
       exists v, rackToWeightMap ph' !! rackOf σ l = Some v ∧ weightOf σ l <= v).
Proof.
  revert ph σ tw. induction ls as [|l ls IH]; intros ph σ tw Hpos Hw Hsum Htw Htws;
    cbn [foldl].
  { exists ph, σ. simpl in *.
    split_and!; try done; try lia; try (f_equal; lia); try apply sameAttrs_refl.
    - intros r v Hv. exists v. split; [done|lia].
    - intros ? []%elem_of_nil. }
  cbn [scannedWeight foldr] in *. fold (scannedWeight σ ls) in *.
  assert (Hrest : 0 <= scannedWeight σ ls).
  { apply scannedWeight_nonneg. intros; apply Hw; [by right|done]. }
  pose proof (mapSum_nonneg _ Hpos) as Hm0.
  destruct (scanInstance_spec ph σ tw l) as (ph1 & σ1 & -> & Hrf1 & Hin1 & Ha1 & Hlv1 & Hr2w).
  pose proof (scannedWeight_ext σ σ1 ls Ha1 Hlv1) as Hsw.
  unfold activeWeight in *. destruct (isLeavingAt σ l) eqn:Hlv.
  - assert (P1 : forall r v, rackToWeightMap ph1 !! r = Some v -> 0 <= v) by (by rewrite Hr2w).
    assert (P2 : forall l', l' ∈ ls -> isLeavingAt σ1 l' = false -> 0 <= weightOf σ1 l').
    { intros l' Hl' Hl'v. rewrite Hlv1 in Hl'v. destruct (Ha1 l') as (_ & _ & -> & _).
      apply Hw; [by right|done]. }
    assert (P3 : mapSum (rackToWeightMap ph1) + scannedWeight σ1 ls < 2 ^ 32)
      by (rewrite Hr2w, Hsw; lia).
    assert (P5 : tw + scannedWeight σ1 ls < 2 ^ 32) by (rewrite Hsw; lia).
    destruct (IH ph1 σ1 tw P1 P2 P3 Htw P5)
      as (ph' & σ' & E & Ha & Hl & Hrf & Hin & Hms & Hp' & Hmono & Hent).
    exists ph', σ'. rewrite Hsw, Hr2w in *. split_and!.
    + rewrite E; f_equal; lia.
    + by eapply sameAttrs_trans.
    + intros l'. by rewrite Hl, Hlv1.
    + congruence.
    + congruence.
    + lia.
    + done.
    + done.
    + intros l' [->|Hl']%elem_of_cons Hl'v; [congruence|].
      destruct (Hent l' Hl') as (v & Hv & Hle); [by rewrite Hlv1|].
      destruct (Ha1 l') as (_ & Hrk & Hwt & _). rewrite Hrk, Hwt in *. eauto.
  - set (rack := rackOf σ l) in *. set (w := weightOf σ l) in *.
    set (old := default 0 (rackToWeightMap ph !! rack)) in *.
    assert (Hw0 : 0 <= w) by (apply Hw; [by left|done]).
    assert (Hold : 0 <= old <= mapSum (rackToWeightMap ph)).
    { subst old. destruct (rackToWeightMap ph !! rack) as [v|] eqn:E; simpl; [|lia].
      split; [by eapply Hpos|].
      rewrite (mapSum_delete _ _ _ E).
      assert (0 <= mapSum (delete rack (rackToWeightMap ph))); [|lia].
      apply mapSum_nonneg. intros r v' [_ ?]%lookup_delete_Some. by eapply Hpos. }
    rewrite (u32_small (old + w)) in Hr2w by lia. rewrite (u32_small (tw + w)) by lia.
    assert (Hms1 : mapSum (rackToWeightMap ph1) = mapSum (rackToWeightMap ph) + w).
    { rewrite Hr2w. rewrite mapSum_insert. fold old. lia. }
    assert (P1 : forall r v, rackToWeightMap ph1 !! r = Some v -> 0 <= v).
    { rewrite Hr2w. intros r v. rewrite lookup_insert. case_decide.
      - intros [= <-]. lia.
      - apply Hpos. }
    assert (P2 : forall l', l' ∈ ls -> isLeavingAt σ1 l' = false -> 0 <= weightOf σ1 l').
    { intros l' Hl' Hl'v. rewrite Hlv1 in Hl'v. destruct (Ha1 l') as (_ & _ & -> & _).
      apply Hw; [by right|done]. }
    assert (P3 : mapSum (rackToWeightMap ph1) + scannedWeight σ1 ls < 2 ^ 32)
      by (rewrite Hsw; lia).
    assert (P4 : 0 <= tw + w) by lia.
    assert (P5 : tw + w + scannedWeight σ1 ls < 2 ^ 32) by (rewrite Hsw; lia).
    destruct (IH ph1 σ1 (tw + w) P1 P2 P3 P4 P5)
      as (ph' & σ' & E & Ha & Hl & Hrf & Hin & Hms & Hp' & Hmono & Hent).
    exists ph', σ'. rewrite Hsw in *. split_and!.
    + rewrite E; f_equal; lia.
    + by eapply sameAttrs_trans.
    + intros l'. by rewrite Hl, Hlv1.
    + congruence.
    + congruence.
    + lia.
    + done.
    + intros r v Hv. destruct (decide (r = rack)) as [->|NE].
      * destruct (Hmono rack (old + w)) as (v' & Hv' & Hle).
        { rewrite Hr2w. apply lookup_insert_eq. }
        exists v'. split; [done|]. subst old. rewrite Hv in Hle. simpl in Hle. lia.
      * apply Hmono. rewrite Hr2w. by rewrite lookup_insert_ne.
    + intros l' [->|Hl']%elem_of_cons Hl'v.
      * destruct (Hmono rack (old + w)) as (v' & Hv' & Hle).
        { rewrite Hr2w. apply lookup_insert_eq. }
        exists v'. split; [done|]. fold w. lia.
      * destruct (Hent l' Hl') as (v & Hv & Hle); [by rewrite Hlv1|].
        destruct (Ha1 l') as (_ & Hrk & Hwt & _). rewrite Hrk, Hwt in *. eauto.
Qed.

End scan.

Section target_load.
Implicit Types (ph : placementHelper) (σ : list Instance) (l : nat).

Lemma scanCurrentLoad_spec ph0 σ :
  (forall l, l ∈ Instances ph0 -> isLeavingAt σ l = false -> 0 <= weightOf σ l) ->
  scannedWeight σ (Instances ph0) < 2 ^ 32 ->
  exists ph σ',
    scanCurrentLoad (ph0, σ) = (ph, σ') ∧
    sameAttrs σ σ' ∧ (forall l, isLeavingAt σ' l = isLeavingAt σ l) ∧
    rf ph = rf ph0 ∧ instances ph = instances ph0 ∧
    totalWeight ph = scannedWeight σ (Instances ph0) ∧
    mapSum (rackToWeightMap ph) = scannedWeight σ (Instances ph0) ∧
    (forall r v, rackToWeightMap ph !! r = Some v -> 0 <= v) ∧
    (forall l, l ∈ Instances ph0 -> isLeavingAt σ l = false ->
       exists v, rackToWeightMap ph !! rackOf σ l = Some v ∧ weightOf σ l <= v).
Proof.
  intros Hw Hsum. unfold scanCurrentLoad.
  set (ph1 := setScan ∅ ∅ ∅ (totalWeight ph0) ph0).
  assert (Hm0 : mapSum (rackToWeightMap ph1) = 0).
  { unfold mapSum. simpl. by rewrite map_fold_empty. }
  change (Instances ph1) with (Instances ph0).
  destruct (scan_fold (Instances ph0) ph1 σ 0)
    as (ph' & σ' & E & Ha & Hl & Hrf & Hin & Hms & Hp & _ & Hent); try done; try lia.
  rewrite E. eexists _, σ'. split; [reflexivity|]. simpl.
  split_and!; try done; lia.
Qed.

Lemma buildTargetLoad_is_Some ph σ :
  (forall l, l ∈ Instances ph -> isLeavingAt σ l = false -> is_Some (targetLoadOf ph σ l)) ->
  is_Some (buildTargetLoad (ph, σ)).
Proof.
  unfold buildTargetLoad, Instances.
  generalize (∅ : gmap string Z). induction (instances ph) as [|[id l] ls IH]; intros tl H.
  - simpl. eauto.
  - cbn [foldl]. simpl. destruct (isLeavingAt σ l) eqn:Hl.
    + apply IH. intros l' Hl'. apply H. csimpl. by right.
    + destruct (H l) as [t Ht]; [csimpl; by left|done|]. rewrite Ht. simpl.
      apply IH. intros l' Hl'. apply H. csimpl. by right.
Qed.

End target_load.

(** C10, as stated, fails: with strictly positive weights whose sum wraps
    around in [uint32], the divisor of the normal-rack branch is zero and
    [buildTargetLoad] divides by zero. *)
Lemma positive_weights_zero_divisor :
  let st := scanCurrentLoad (examples.heavy_ph0, examples.heavy_store) in
  Forall (fun l => isLeavingAt examples.heavy_store l = false ∧
                   0 < weightOf examples.heavy_store l < 2 ^ 32)
         (Instances examples.heavy_ph0) ∧
  totalWeight st.1 = 1 ∧
  isRackOverWeight (default 0 (rackToWeightMap st.1 !! rackOf st.2 0)) (totalWeight st.1)
                   (rf st.1) = false ∧
  normalDivisor st.1 = 0 ∧
  targetLoadOf st.1 st.2 0 = None ∧
  buildTargetLoad st = None ∧
  newHelper examples.heavy_store examples.heavy_p 1 examples.opts0 = None.
Proof.
  cbv zeta. split.
  { repeat constructor; vm_compute; congruence. }
  vm_compute. repeat split.
Qed.

(** C10, amended: when every non-leaving instance has a strictly positive
    weight and the sum of these weights fits in [uint32] (no wrap-around),
    then after [scanCurrentLoad], for every non-leaving instance the divisor
    of the branch that [buildTargetLoad] takes is not zero: the divisor
    [totalWeight - overWeight] in the normal-rack branch and the rack weight in
    the over-weighted branch; [buildTargetLoad] returns without a division by
    zero.  For some input with a non-leaving instance of weight zero the
    divisor of the normal-rack branch is zero. *)
Theorem buildTargetLoad_divisors :
  (forall (ph0 : placementHelper) (σ : list Instance),
     (forall l, l ∈ Instances ph0 -> isLeavingAt σ l = false -> 0 < weightOf σ l) ->
     scannedWeight σ (Instances ph0) < 2 ^ 32 ->
     let st := scanCurrentLoad (ph0, σ) in
     (forall l, l ∈ Instances ph0 -> isLeavingAt st.2 l = false ->
        let rackWeight := default 0 (rackToWeightMap st.1 !! rackOf st.2 l) in
        (isRackOverWeight rackWeight (totalWeight st.1) (rf st.1) = false ->
           normalDivisor st.1 ≠ 0) ∧
        (isRackOverWeight rackWeight (totalWeight st.1) (rf st.1) = true ->
           rackWeight ≠ 0) ∧
        is_Some (targetLoadOf st.1 st.2 l)) ∧
     is_Some (buildTargetLoad st)) ∧
  (exists (ph0 : placementHelper) (σ : list Instance) (l : nat),
     l ∈ Instances ph0 ∧ isLeavingAt σ l = false ∧ weightOf σ l = 0 ∧
     normalDivisor (scanCurrentLoad (ph0, σ)).1 = 0 ∧
     buildTargetLoad (scanCurrentLoad (ph0, σ)) = None).
Proof.
  split.
  2:{ exists examples.idle_ph0, examples.idle_store, 0%nat.
      split; [left|]. vm_compute. repeat split. }
  intros ph0 σ Hpos Hsum st.
  destruct (scanCurrentLoad_spec ph0 σ) as (ph & σ' & E & Ha & Hl & Hrf & Hin & Htw & Hms & Hnn & Hent);
    [|done|].
  { intros l Hl Hlv. specialize (Hpos l Hl Hlv). lia. }
  subst st. rewrite E. simpl.
  assert (Hmain : forall l, l ∈ Instances ph0 -> isLeavingAt σ' l = false ->
            (isRackOverWeight (default 0 (rackToWeightMap ph !! rackOf σ' l))
               (totalWeight ph) (rf ph) = false -> normalDivisor ph ≠ 0) ∧
            (isRackOverWeight (default 0 (rackToWeightMap ph !! rackOf σ' l))
               (totalWeight ph) (rf ph) = true ->
             default 0 (rackToWeightMap ph !! rackOf σ' l) ≠ 0) ∧
            is_Some (targetLoadOf ph σ' l)).
  { intros l Hin' Hlv. rewrite Hl in Hlv.
    destruct (Hent l Hin' Hlv) as (v & Hv & Hle).
    specialize (Hpos l Hin' Hlv).
    destruct (Ha l) as (_ & Hrk & _). rewrite Hrk, Hv. simpl.
    assert (Hnormal : isRackOverWeight v (totalWeight ph) (rf ph) = false ->
              normalDivisor ph ≠ 0).
    { intros Hov. unfold normalDivisor. rewrite overWeightOf_overSum.
      pose proof (overSum_excl (fun w => isRackOverWeight w (totalWeight ph) (rf ph))
                    _ _ _ Hnn Hv Hov) as Hb.
      rewrite Hms in Hb. rewrite Htw in Hb |- *.
      rewrite (u32_small (overSum _ _)) by lia. rewrite u32_small by lia. lia. }
    split_and!; [done|lia|].
    unfold targetLoadOf. rewrite Hrk, Hv. simpl.
    destruct (isRackOverWeight v (totalWeight ph) (rf ph)) eqn:Hov; [eauto|].
    rewrite bool_decide_eq_false_2 by auto. eauto. }
  split; [done|].
  apply buildTargetLoad_is_Some. unfold Instances in *. rewrite Hin.
  intros l Hl' Hlv. by apply Hmain.
Qed.

Lemma buildTargetLoad_divisors_witness :
  let st := scanCurrentLoad (examples.pair_ph0, examples.pair_store) in
  Forall (fun l => 0 < weightOf examples.pair_store l) (Instances examples.pair_ph0) ∧
  scannedWeight examples.pair_store (Instances examples.pair_ph0) = 2 ∧
  normalDivisor st.1 ≠ 0 ∧
  is_Some (buildTargetLoad st).
Proof.
  intros st.
  assert (H1 : forall l, l ∈ Instances examples.pair_ph0 ->
                 isLeavingAt examples.pair_store l = false ->
                 0 < weightOf examples.pair_store l).
  { intros l Hl _. vm_compute in Hl.
    apply elem_of_cons in Hl as [->|Hl]; [reflexivity|].
    apply elem_of_cons in Hl as [->|Hl]; [reflexivity|].
    by apply elem_of_nil in Hl. }
  assert (H2 : scannedWeight examples.pair_store (Instances examples.pair_ph0) < 2 ^ 32)
    by (vm_compute; reflexivity).
  destruct (proj1 buildTargetLoad_divisors examples.pair_ph0 examples.pair_store H1 H2)
    as [Hall Hsome].
  split; [repeat constructor|]. split; [reflexivity|]. split; [|exact Hsome].
  destruct (Hall 0%nat) as (Hn & _ & _); [left|reflexivity|].
  apply Hn. vm_compute. reflexivity.
Defined.

(** * [PlaceShards] *)

(** ** The heap holds the same instances whatever their order *)

Section heap_contents.
Implicit Types (h : instanceHeap) (σ : list Instance) (l : list nat).

Lemma insert_swap_head l (j : nat) (a b : nat) :
  l !! j = Some b -> b :: <[j := a]> l ≡ₚ a :: l.
Proof.
  revert j. induction l as [|y l IH]; intros [|j] H; simplify_eq/=.
  - apply perm_swap.
  - rewrite perm_swap. rewrite (IH j H). apply perm_swap.
Qed.

Lemma insert_swap l (i j : nat) (a b : nat) :
  l !! i = Some a -> l !! j = Some b -> <[i := b]> (<[j := a]> l) ≡ₚ l.
Proof.
  revert i j. induction l as [|y l IH]; intros [|i] [|j] Hi Hj; simplify_eq/=; try done.
  - by apply insert_swap_head.
  - by apply insert_swap_head.
  - f_equiv. by apply IH.
Qed.

Lemma Swap_contents i j h : h_instances (Swap i j h) ≡ₚ h_instances h.
Proof.
  unfold Swap. destruct (h_instances h !! i) as [a|] eqn:Hi; [|done].
  destruct (h_instances h !! j) as [b|] eqn:Hj; [|done]. simpl.
  by apply insert_swap.
Qed.

Lemma down_loop_contents fuel σ h i n :
  h_instances (heap.down_loop fuel σ h i n) ≡ₚ h_instances h.
Proof.
  revert h i. induction fuel as [|fuel IH]; intros h i; cbn [heap.down_loop]; [done|].
  destruct (bool_decide _); [done|].
  destruct (negb _); [done|].
  rewrite IH. apply Swap_contents.
Qed.

Lemma up_loop_contents fuel σ h j :
  h_instances (heap.up_loop fuel σ h j) ≡ₚ h_instances h.
Proof.
  revert h j. induction fuel as [|fuel IH]; intros h j; cbn [heap.up_loop]; [done|].
  destruct (_ || _); [done|].
  rewrite IH. apply Swap_contents.
Qed.

Lemma Init_contents σ h : h_instances (heap.Init σ h) ≡ₚ h_instances h.
Proof.
  unfold heap.Init. generalize (Len h). intros n.
  generalize (rev (seq 0 (n / 2))). intros ls. revert h.
  induction ls as [|i ls IH]; intros h; cbn [foldl]; [done|].
  rewrite IH. apply down_loop_contents.
Qed.

Lemma heap_Push_contents σ x h : h_instances (heap.Push σ x h) ≡ₚ x :: h_instances h.
Proof.
  unfold heap.Push, heap.up. rewrite up_loop_contents. simpl.
  by rewrite Permutation_app_comm.
Qed.

Lemma heap_Pop_contents σ h :
  Len h ≠ 0%nat ->
  exists x h', heap.Pop σ h = (Some x, h') ∧ x :: h_instances h' ≡ₚ h_instances h.
Proof.
  intros Hn. unfold heap.Pop, Pop, heap.down.
  set (h1 := heap.down_loop _ _ _ _ _).
  assert (Hp : h_instances h1 ≡ₚ h_instances h).
  { unfold h1. rewrite down_loop_contents. apply Swap_contents. }
  destruct (h_instances h1) as [|y l] eqn:E using rev_ind.
  { apply Permutation_length in Hp. unfold Len in Hn. simpl in Hp. lia. }
  clear IHl. exists y. eexists. rewrite last_snoc, removelast_last. split; [done|].
  simpl. rewrite <- Hp. by rewrite Permutation_app_comm.
Qed.

Lemma heap_Pop_None σ h x h' : heap.Pop σ h = (x, h') -> Len h ≠ 0%nat -> is_Some x.
Proof.
  intros H Hn. destruct (heap_Pop_contents σ h Hn) as (y & h1 & E & _).
  rewrite E in H. injection H as <- _. eauto.
Qed.


Lemma buildInstanceHeap_contents st l asc :
  h_instances (buildInstanceHeap st l asc) ≡ₚ l.
Proof. unfold buildInstanceHeap, newHeap. by rewrite Init_contents. Qed.

End heap_contents.

(** ** The inner loop: popping candidates until one takes the shard *)

Section place.
Implicit Types (h : instanceHeap) (st : placementHelper * list Instance) (s c : Shard).


(** A successful move leaves the shard on its target in a state other than
    Leaving, and touches the shards of no other id. *)
Lemma moveShard_arrived c from to st st1 :
  candidateOn st.2 c from -> is_Some (st.2 !! to) ->
  moveShard c from to st = (true, st1) ->
  nonLeavingOwner st1.2 to (s_id c).
Proof.
  destruct st as [ph σ], st1 as [ph1 σ1]. simpl. intros Hc Hv Hm.
  assert (Hne : from ≠ Some to).
  { intros ->. pose proof (moveShard_not_onto_from c to ph σ Hc) as HN.
    rewrite Hm in HN. done. }
  destruct (moveShard_true_effect _ _ _ _ _ _ _ Hm Hne) as (_ & _ & _ & _ & HL).
  exists (arrivedShard σ c from to). split.
  - rewrite HL, decide_True by done. by rewrite decide_True.
  - unfold arrivedShard. by destruct (holdsLeaving σ to (s_id c)).
Qed.

Lemma nonLeavingOwner_frame σ σ' l k :
  Lookup (shardsOf σ' l) k = Lookup (shardsOf σ l) k ->
  nonLeavingOwner σ l k -> nonLeavingOwner σ' l k.
Proof. intros E (s & Hs & Hn). exists s. by rewrite E. Qed.

(** ** The outer loop *)




End place.

(** ** Leaving instances *)

Section leaving.
Implicit Types (st : placementHelper * list Instance) (s c : Shard) (σ : list Instance).

Lemma all_Leaving_Lookup (ss : list Shard) :
  wfShards ss ->
  (ss ≠ [] ∧ Forall (fun s => s_state s = Leaving) ss) <->
  (exists k s, Lookup ss k = Some s) ∧
  (forall k s, Lookup ss k = Some s -> s_state s = Leaving).
Proof.
  intros Hw. rewrite Forall_forall. split.
  - intros [Hne Hall]. split.
    + destruct ss as [|x ss]; [done|]. exists (s_id x), x.
      apply Lookup_elem; [done|by left].
    + intros k s Hs. by apply Hall, (Lookup_Some_elem _ k).
  - intros [(k & s & Hs) Hall]. split.
    + intros ->. done.
    + intros x Hx. apply (Hall (s_id x)). by apply Lookup_elem.
Qed.

Lemma isLeavingAt_true_iff σ l :
  wfStore σ ->
  isLeavingAt σ l = true <->
  (exists k s, Lookup (shardsOf σ l) k = Some s) ∧
  (forall k s, Lookup (shardsOf σ l) k = Some s -> s_state s = Leaving).
Proof.
  intros Hw. rewrite <- all_Leaving_Lookup by apply Hw.
  unfold isLeavingAt, shardsOf. destruct (σ !! l) as [i|]; simpl.
  - unfold IsLeaving. by rewrite bool_decide_eq_true.
  - split; [done|]. by intros [? _].
Qed.

Lemma nonLeavingOwner_not_leaving σ l k :
  nonLeavingOwner σ l k -> isLeavingAt σ l = false.
Proof.
  intros (s & Hs & Hn). apply Lookup_Some_elem in Hs.
  unfold isLeavingAt, shardsOf in *. destruct (σ !! l) as [i|]; simpl in *; [|done].
  unfold IsLeaving. apply bool_decide_eq_false. intros [_ Hall].
  rewrite Forall_forall in Hall. by apply Hn, Hall.
Qed.

Lemma unlink_state id s : s_state (unlink id s) = s_state s.
Proof. unfold unlink. by destruct (bool_decide _). Qed.

(** A move changes which instances are leaving only at its two ends. *)
Lemma moveShard_leaving_other c from to st st1 l :
  wfStore st.2 -> candidateOn st.2 c from ->
  moveShard c from to st = (true, st1) ->
  from ≠ Some l -> l ≠ to ->
  isLeavingAt st1.2 l = isLeavingAt st.2 l.
Proof.
  destruct st as [ph σ], st1 as [ph1 σ1]. simpl. intros Hw Hc Hm Hf Hto.
  assert (Hne : from ≠ Some to).
  { intros ->. pose proof (moveShard_not_onto_from c to ph σ Hc) as HN.
    rewrite Hm in HN. done. }
  destruct (moveShard_true_effect _ _ _ _ _ _ _ Hm Hne) as (_ & _ & Hw1 & _ & HL).
  assert (Hrel : forall k, exists g : Shard -> Shard,
             (forall s, s_state (g s) = s_state s) ∧
             Lookup (shardsOf σ1 l) k = g <$> Lookup (shardsOf σ l) k).
  { intros k. rewrite HL. destruct (decide (k = s_id c)) as [->|_].
    2:{ exists (fun s => s). split; [done|]. by rewrite option_fmap_id. }
    rewrite decide_False by (intros [? _]; done).
    rewrite decide_False by done.
    destruct (decide (_ ∧ _)).
    - exists (unlink (idOf σ to)). split; [apply unlink_state|done].
    - exists (fun s => s). split; [done|]. by rewrite option_fmap_id. }
  apply eq_true_iff_eq. rewrite !isLeavingAt_true_iff by auto. split.
  - intros [(k & s & Hs) Hall]. split.
    + destruct (Hrel k) as (g & _ & E). rewrite E in Hs.
      destruct (Lookup (shardsOf σ l) k) as [s0|] eqn:E0; [by exists k, s0|done].
    + intros k' s0 Hs0. destruct (Hrel k') as (g & Hg & E).
      rewrite Hs0 in E. simpl in E. rewrite <- (Hg s0). by apply (Hall k').
  - intros [(k & s & Hs) Hall]. split.
    + destruct (Hrel k) as (g & _ & E). rewrite Hs in E. eauto.
    + intros k' s1 Hs1. destruct (Hrel k') as (g & Hg & E). rewrite E in Hs1.
      destruct (Lookup (shardsOf σ l) k') as [s0|] eqn:E0; simplify_eq/=.
      rewrite Hg. by apply (Hall k').
Qed.

Lemma candidateMapOf_lookup σ candidates id (x : nat) :
  candidateMapOf σ candidates !! id = Some x -> x ∈ candidates ∧ idOf σ x = id.
Proof.
  unfold candidateMapOf.
  assert (H : forall (m : gmap string nat),
            (forall id x, m !! id = Some x -> x ∈ candidates ∧ idOf σ x = id) ->
            forall ls, (forall y, y ∈ ls -> y ∈ candidates) ->
            forall id x, foldl (fun m candidate => <[idOf σ candidate := candidate]> m) m ls
                           !! id = Some x -> x ∈ candidates ∧ idOf σ x = id).
  { intros m Hm ls. revert m Hm. induction ls as [|y ls IH]; intros m Hm Hls; [done|].
    cbn [foldl]. apply IH.
    - intros id' x'. rewrite lookup_insert. case_decide as E.
      + intros [= <-]. split; [apply Hls; by left|done].
      + apply Hm.
    - intros z Hz. apply Hls. by right. }
  apply (H ∅); [by intros ? ?; rewrite lookup_empty|done].
Qed.

Lemma candidateMapOf_present σ candidates (x : nat) :
  x ∈ candidates -> is_Some (candidateMapOf σ candidates !! idOf σ x).
Proof.
  unfold candidateMapOf. generalize (∅ : gmap string nat).
  induction candidates as [|y ls IH]; intros m; [by intros ?%elem_of_nil|].
  cbn [foldl]. intros [->|Hx]%elem_of_cons; [|by apply IH].
  assert (H : forall ls' (m' : gmap string nat),
            is_Some (m' !! idOf σ y) ->
            is_Some (foldl (fun m candidate => <[idOf σ candidate := candidate]> m) m' ls'
                       !! idOf σ y)).
  { induction ls' as [|z ls' IH']; intros m' Hm'; [done|]. cbn [foldl]. apply IH'.
    rewrite lookup_insert. case_decide; [eauto|done]. }
  apply H. rewrite lookup_insert_eq. eauto.
Qed.

End leaving.

(** ** Returning Initializing shards to their sources *)

Section source_return.
Implicit Types (st : placementHelper * list Instance) (s c : Shard) (σ : list Instance).
Variables (cm : gmap string nat) (f : nat).

Lemma returnStep_returnable ws st s :
  (returnStep cm f (ws, st) s = (ws, st) ∧
   forall src, returnable cm st.2 s src -> (moveShard s (Some f) src st).1 = false) ∨
  (exists src st1,
     returnable cm st.2 s src ∧ moveShard s (Some f) src st = (true, st1) ∧
     returnStep cm f (ws, st) s = (Remove (s_id s) ws, st1)).
Proof.
  unfold returnStep, returnable.
  destruct (bool_decide (s_state s = Initializing)) eqn:B1; simpl.
  2:{ apply bool_decide_eq_false in B1. left. split; [done|]. by intros src (? & _). }
  apply bool_decide_eq_true in B1.
  destruct (bool_decide (s_sourceID s = "")) eqn:B2.
  { apply bool_decide_eq_true in B2. left. split; [done|]. by intros src (_ & ? & _). }
  apply bool_decide_eq_false in B2.
  destruct (cm !! s_sourceID s) as [src|] eqn:E.
  2:{ left. split; [done|]. by intros src (_ & _ & ? & _). }
  destruct (isLeavingAt st.2 src) eqn:HL.
  { left. split; [done|]. intros src' (_ & _ & [= <-] & ?). congruence. }
  destruct (moveShard s (Some f) src st) as [m st1] eqn:Hm. destruct m.
  - right. exists src, st1. done.
  - apply moveShard_false in Hm as Hf. destruct Hf as [-> _]. left. split; [done|].
    intros src' (_ & _ & [= <-] & _). by rewrite Hm.
Qed.

Lemma moveShard_owners_frame c from to st moved st1 k :
  candidateOn st.2 c from -> moveShard c from to st = (moved, st1) ->
  k ≠ s_id c -> ownersOf st1.1 k = ownersOf st.1 k.
Proof.
  destruct st as [ph σ], st1 as [ph1 σ1]. simpl. intros Hc Hm Hk. destruct moved.
  - assert (Hne : from ≠ Some to).
    { intros ->. pose proof (moveShard_not_onto_from c to ph σ Hc) as HN.
      rewrite Hm in HN. done. }
    destruct (moveShard_true_effect _ _ _ _ _ _ _ Hm Hne) as (_ & _ & _ & Ho & _).
    rewrite Ho. by rewrite decide_False.
  - by apply moveShard_false in Hm as [[= -> ->] _].
Qed.

(** Whether a source that a shard of [f] names is leaving does not change
    when another shard of [f] is handed back. *)
Lemma returnable_step c to st st1 s src :
  wfStore st.2 ->
  candidateOn st.2 c (Some f) -> isLeavingAt st.2 to = false -> is_Some (st.2 !! to) ->
  moveShard c (Some f) to st = (true, st1) ->
  candidateOn st.2 s (Some f) -> candidateOn st1.2 s (Some f) ->
  returnable cm st1.2 s src <-> returnable cm st.2 s src.
Proof.
  intros Hw Hc Hto Hv Hm Hs Hs1. unfold returnable.
  assert (E : s_state s = Initializing -> isLeavingAt st1.2 src = isLeavingAt st.2 src).
  { intros Hst. destruct (decide (src = f)) as [->|Hf].
    { rewrite (nonLeavingOwner_not_leaving st.2 f (s_id s)).
      - apply (nonLeavingOwner_not_leaving _ _ (s_id s)). exists s.
        split; [by apply Hs1|congruence].
      - exists s. split; [by apply Hs|congruence]. }
    destruct (decide (src = to)) as [->|Ht].
    { rewrite Hto. apply (nonLeavingOwner_not_leaving _ _ (s_id c)).
      by eapply moveShard_arrived. }
    eapply moveShard_leaving_other; [done|exact Hc|exact Hm|congruence|done]. }
  split; intros (H1 & H2 & H3 & H4); split_and!; try done.
  - by rewrite <- E.
  - by rewrite E.
Qed.

Lemma return_fold todo ws st :
  wfStore st.2 ->
  (forall id x, cm !! id = Some x -> is_Some (st.2 !! x)) ->
  NoDup (s_id <$> todo) ->
  (forall s, s ∈ todo -> s ∈ ws) ->
  wfShards ws ->
  (forall s, s ∈ ws -> candidateOn st.2 s (Some f)) ->
  let r := foldl (returnStep cm f) (ws, st) todo in
  (forall l k, k ∉ s_id <$> todo ->
     Lookup (shardsOf r.2.2 l) k = Lookup (shardsOf st.2 l) k ∧
     ownersOf r.2.1 k = ownersOf st.1 k) ∧
  sameAttrs st.2 r.2.2 ∧ opts r.2.1 = opts st.1 ∧
  (forall s, s ∈ ws ->
     s ∈ r.1 ∨
     (s ∈ todo ∧ exists src, returnable cm st.2 s src ∧ nonLeavingOwner r.2.2 src (s_id s))) ∧
  (forall s src, s ∈ todo -> s ∈ r.1 -> returnable cm st.2 s src ->
     canAssignInstance r.2.1 r.2.2 (s_id s) (Some f) src = false).
Proof.
  revert ws st. induction todo as [|c todo IH]; intros ws st Hw Hcm HN Hin Hwf Hc;
    cbn [foldl].
  { simpl. split_and!; [done|apply sameAttrs_refl|done|by left|].
    by intros s src ?%elem_of_nil. }
  csimpl in HN. apply NoDup_cons in HN as [Hc0 HN].
  assert (Hcw : c ∈ ws) by (apply Hin; by left).
  assert (Hcc : candidateOn st.2 c (Some f)) by by apply Hc.
  assert (Hrest : forall s, s ∈ todo -> s_id s ≠ s_id c).
  { intros s Hs E. apply Hc0. rewrite <- E. by apply list_elem_of_fmap_2. }
  assert (Hinj : forall s, s ∈ ws -> s_id s = s_id c -> s = c).
  { intros s Hs E. apply (Lookup_elem ws) in Hs; [|done].
    apply (Lookup_elem ws) in Hcw; [|done]. congruence. }
  destruct (returnStep_returnable ws st c)
    as [[-> Hno]|(src0 & st1 & Hret0 & Hm & ->)].
  { destruct (IH ws st) as (Hfr & Ha & Ho & Hkeep & Href); auto.
    { intros s Hs. apply Hin. by right. }
    split_and!; [|done|done| |].
    - intros l k Hk. apply Hfr. csimpl in Hk. set_solver.
    - intros s Hs. destruct (Hkeep s Hs) as [?|[? ?]]; [by left|right].
      split; [by right|done].
    - intros s src [->|Hs]%elem_of_cons Hr Hrt; [|by eapply Href].
      specialize (Hno _ Hrt).
      assert (Hcan : canAssignInstance st.1 st.2 (s_id c) (Some f) src = false).
      { apply not_true_iff_false. intros Hcan. apply not_true_iff_false in Hno.
        apply Hno. apply moveShard_moved. split; [done|].
        destruct Hrt as (-> & _). done. }
      rewrite <- Hcan. destruct (Hfr src (s_id c) Hc0) as [HL HO].
      apply canAssignInstance_frame; [done|done| |done].
      intros l. by destruct (Ha l) as (_ & ? & _). }
  destruct Hret0 as (Hst0 & Hsrc0 & Hcm0 & Hlv0).
  assert (Hv0 : is_Some (st.2 !! src0)) by (by eapply Hcm).
  destruct (moveShard_preserves _ _ _ _ _ _ Hcc Hm) as (Ha1 & Hcf1 & Hw1 & HL1).
  assert (Hc1 : forall s, s ∈ ws -> s_id s ≠ s_id c -> candidateOn st1.2 s (Some f)).
  { intros s Hs Hne. eapply candidateOn_after_move; [exact Hcc|exact Hm|by apply Hc|done]. }
  assert (Hown0 : nonLeavingOwner st1.2 src0 (s_id c)) by (by eapply moveShard_arrived).
  destruct (returnStep_moves cm f todo (Remove (s_id c) ws) st1) as (_ & _ & Hsub).
  { done. }
  { intros s Hs. apply Remove_elem. split; [apply Hin; by right|by apply Hrest]. }
  { by apply wfShards_Remove. }
  { intros s [Hs Hne]%Remove_elem. by apply Hc1. }
  destruct (IH (Remove (s_id c) ws) st1) as (Hfr & Ha & Ho & Hkeep & Href); auto.
  { intros id x Hx. destruct (Ha1 x) as (_ & _ & _ & ->). by eapply Hcm. }
  { intros s Hs. apply Remove_elem. split; [apply Hin; by right|by apply Hrest]. }
  { by apply wfShards_Remove. }
  { intros s [Hs Hne]%Remove_elem. by apply Hc1. }
  assert (Hconv : forall s src, s ∈ todo ->
            returnable cm st1.2 s src <-> returnable cm st.2 s src).
  { intros s src Hs. eapply returnable_step; [done|exact Hcc|done|done|exact Hm| |].
    - apply Hc, Hin. by right.
    - apply Hc1; [apply Hin; by right|by apply Hrest]. }
  split_and!.
  - intros l k Hk. csimpl in Hk. destruct (Hfr l k) as [-> ->]; [set_solver|].
    split; [apply HL1; set_solver|].
    eapply moveShard_owners_frame; [exact Hcc|exact Hm|set_solver].
  - by eapply sameAttrs_trans.
  - rewrite Ho. by destruct Hcf1 as (_ & _ & _ & _ & _ & _ & _ & ?).
  - intros s Hs. destruct (decide (s_id s = s_id c)) as [E|NE].
    + apply Hinj in E as ->; [|done]. right. split; [by left|]. exists src0.
      split; [done|]. eapply nonLeavingOwner_frame; [|exact Hown0]. by apply Hfr.
    + destruct (Hkeep s) as [?|(Hs' & src & Hrt & Hown)].
      * by apply Remove_elem.
      * by left.
      * right. split; [by right|]. exists src. split; [|done]. by apply Hconv.
  - intros s src [->|Hs]%elem_of_cons Hr Hrt.
    + apply Hsub in Hr as [[_ Hr]%Remove_elem _]. done.
    + apply Href; [done|done|]. by apply Hconv.
Qed.

End source_return.

Section place_shards.
Implicit Types (st : placementHelper * list Instance) (s c : Shard).

Lemma Add_fresh s (ss : list Shard) : Lookup ss (s_id s) = None -> Add s ss = ss ++ [s].
Proof.
  induction ss as [|x ss IH]; simpl; [done|].
  destruct (decide (s_id x = s_id s)); [done|]. intros H. by rewrite IH.
Qed.

(** A list of shards of distinct ids is its own working set. *)
Lemma getShardMap_NoDup (shards : list Shard) :
  NoDup (s_id <$> shards) -> getShardMap shards = shards.
Proof.
  unfold getShardMap.
  assert (H : forall acc : list Shard,
            NoDup (s_id <$> (acc ++ shards)) ->
            foldl (fun r s => Add s r) acc shards = acc ++ shards).
  { induction shards as [|s shards IH]; intros acc HN; cbn [foldl].
    { by rewrite app_nil_r. }
    rewrite Add_fresh.
    - rewrite IH; rewrite <- app_assoc; done.
    - apply Lookup_None. intros x Hx E.
      rewrite fmap_app in HN. apply NoDup_app in HN as (_ & HN & _).
      eapply HN; [by apply list_elem_of_fmap_2|]. csimpl. rewrite E. by left. }
  intros HN. by apply (H []).
Qed.

End place_shards.



(** * The overweight test: float64 against the integer form *)

(** ** Rounding in [SpecFloat] *)

Lemma digits2_pos_log2 p : Zpos (digits2_pos p) = Z.log2 (Zpos p) + 1.
Proof.
  induction p as [p IH|p IH|]; cbn [digits2_pos]; rewrite ?Pos2Z.inj_succ, ?IH.
  - rewrite (Pos2Z.inj_xI p), Z.log2_succ_double by lia. lia.
  - rewrite (Pos2Z.inj_xO p), Z.log2_double by lia. lia.
  - reflexivity.
Qed.

Lemma new_location_spec d r : 0 < d -> 0 <= r < d -> new_location d r = loc_of_frac r d.
Proof.
  intros Hd Hr. unfold new_location, new_location_even, new_location_odd, loc_of_frac.
  destruct (Z.even d) eqn:E; [reflexivity|].
  destruct (r =? 0); [reflexivity|]. f_equal.
  assert (Ho : Z.odd d = true) by (rewrite <- Z.negb_even, E; reflexivity).
  apply Z.odd_spec in Ho as [c Hc].
  destruct (Z.compare_spec (2 * r + 1) d), (Z.compare_spec (2 * r) d); try reflexivity; lia.
Qed.

Lemma loc_of_shr_record_of_loc m l : loc_of_shr_record (shr_record_of_loc m l) = l.
Proof. destruct l as [|[]]; reflexivity. Qed.

Lemma shr_m_of_loc m l : shr_m (shr_record_of_loc m l) = m.
Proof. destruct l as [|[]]; reflexivity. Qed.

Lemma shr_1_rec n d : 0 <= n -> 0 < d -> shr_1 (rec_of_frac n d) = rec_of_frac n (2 * d).
Proof.
  intros Hn Hd. unfold rec_of_frac.
  assert (Hq : n / (2 * d) = (n / d) / 2).
  { rewrite (Z.mul_comm 2 d), Z.div_div by lia. reflexivity. }
  assert (Hr : n mod (2 * d) = n mod d + (n / d) mod 2 * d).
  { rewrite (Z.mul_comm 2 d), Z.rem_mul_r by lia. lia. }
  pose proof (Z.mod_pos_bound n d Hd) as Hb.
  pose proof (Z.div_pos n d Hn Hd) as Hq0.
  rewrite Hq, Hr. clear Hq Hr.
  set (q := n / d) in *. set (r := n mod d) in *. clearbody q r.
  assert (Hq2 : q = 2 * (q / 2) + q mod 2) by (apply Z.div_mod; lia).
  pose proof (Z.mod_pos_bound q 2 eq_refl) as Hm.
  set (h := q / 2) in *. set (b := q mod 2) in *. clearbody h b.
  unfold loc_of_frac.
  assert (Hcases : (q = 0 /\ h = 0 /\ b = 0) \/ (q = 1 /\ h = 0 /\ b = 1) \/
                   (exists p, q = Zpos p~0 /\ h = Zpos p /\ b = 0) \/
                   (exists p, q = Zpos p~1 /\ h = Zpos p /\ b = 1)).
  { destruct q as [|[p|p|]|p]; try lia.
    - right; right; right. exists p. lia.
    - right; right; left. exists p. lia. }
  destruct Hcases as [(-> & -> & ->)|[(-> & -> & ->)|[(p & -> & -> & ->)|(p & -> & -> & ->)]]];
    rewrite ?Z.mul_0_l, ?Z.mul_1_l, ?Z.add_0_r;
    destruct (Z.eqb_spec r 0) as [->|Hr0]; rewrite ?Z.add_0_l;
    try (destruct (Z.eqb_spec (r + d) 0); [lia|]);
    try (destruct (Z.eqb_spec d 0); [lia|]);
    try (destruct (Z.compare_spec (2 * r) d));
    try (destruct (Z.compare_spec (2 * (r + d)) (2 * d)));
    try (destruct (Z.compare_spec (2 * d) (2 * d)));
    try (destruct (Z.compare_spec (2 * r) (2 * d)));
    try reflexivity; try lia.
Qed.

Lemma pow2_xO p : 2 ^ Zpos p~0 = 2 ^ Zpos p * 2 ^ Zpos p.
Proof. rewrite <- Z.pow_add_r by lia. f_equal. lia. Qed.

Lemma pow2_xI p : 2 ^ Zpos p~1 = 2 ^ Zpos p * (2 ^ Zpos p * 2).
Proof.
  replace (Zpos p~1) with (Zpos p + (Zpos p + 1)) by lia.
  rewrite !Z.pow_add_r by lia. reflexivity.
Qed.

Lemma iter_pos_shr_1 p n d :
  0 <= n -> 0 < d -> SpecFloat.iter_pos shr_1 p (rec_of_frac n d) = rec_of_frac n (2 ^ Zpos p * d).
Proof.
  intros Hn. revert d. induction p as [p IH|p IH|]; intros d Hd; cbn [SpecFloat.iter_pos];
    try assert (HP : 0 < 2 ^ Zpos p) by (apply Z.pow_pos_nonneg; lia).
  - rewrite shr_1_rec, IH, IH by nia. f_equal. rewrite pow2_xI. ring.
  - rewrite IH, IH by nia. f_equal. rewrite pow2_xO. ring.
  - rewrite shr_1_rec by lia. reflexivity.
Qed.

Lemma shr_rec n d e k :
  0 <= n -> 0 < d -> 0 <= k ->
  shr (rec_of_frac n d) e k = (rec_of_frac n (2 ^ k * d), e + k).
Proof.
  intros Hn Hd Hk. unfold shr. destruct k as [|p|p]; [| |lia].
  - rewrite Z.pow_0_r, Z.mul_1_l, Z.add_0_r. reflexivity.
  - rewrite iter_pos_shr_1 by lia. reflexivity.
Qed.

Lemma rec_of_frac_exact m : rec_of_frac m 1 = shr_record_of_loc m loc_Exact.
Proof. unfold rec_of_frac, loc_of_frac. rewrite Z.div_1_r, Z.mod_1_r. reflexivity. Qed.

Lemma RNE_floor n d : 0 < d -> 0 <= n -> n / d <= RNE n d <= n / d + 1.
Proof.
  intros Hd Hn. unfold RNE, round_nearest_even, loc_of_frac.
  destruct (n mod d =? 0); [lia|].
  destruct (2 * (n mod d) ?= d); try lia. destruct (Z.even (n / d)); lia.
Qed.

Lemma Zdigits2_log2 m : 0 < m -> Zdigits2 m = Z.log2 m + 1.
Proof. destruct m; try lia. intros _. apply digits2_pos_log2. Qed.

Lemma log2_bounds m k : 0 < m -> (Z.log2 m + 1 = k <-> 2 ^ (k - 1) <= m < 2 ^ k).
Proof.
  intros Hm. split.
  - intros <-. pose proof (Z.log2_spec m Hm) as H.
    replace (Z.log2 m + 1 - 1) with (Z.log2 m) by lia.
    replace (Z.log2 m + 1) with (Z.succ (Z.log2 m)) by lia. exact H.
  - intros H.
    assert (0 < k). { destruct (Z.le_gt_cases k 0) as [Hk|]; [|lia].
      assert (2 ^ k <= 2 ^ 0) by (apply Z.pow_le_mono_r; lia). simpl in *. lia. }
    rewrite (Z.log2_unique m (k - 1)); [lia|lia|].
    replace (Z.succ (k - 1)) with k by lia. exact H.
Qed.

(** Rounding a quotient [n / d] whose integer part has at least 53 digits. *)
Lemma binary_round_aux_normal sx n d e :
  0 < d -> d <= n ->
  let dm := Z.log2 (n / d) + 1 in
  53 <= dm -> -1074 <= dm + e - 53 -> dm + e - 53 + 1 <= 971 ->
  let D := 2 ^ (dm - 53) * d in
  2 ^ 52 * D <= n < 2 ^ 53 * D /\
  binary_round_aux prec emax sx (n / d) e (loc_of_frac (n mod d) d)
  = normal sx (RNE n D) (e + (dm - 53)).
Proof.
  intros Hd Hn dm Hdm Hlo Hhi D.
  assert (Hq : 0 < n / d) by (apply Z.div_str_pos; lia).
  assert (Hk : 0 < 2 ^ (dm - 53)) by (apply Z.pow_pos_nonneg; lia).
  assert (HD : 0 < D) by (unfold D; nia).
  assert (Hb : 2 ^ (dm - 1) <= n / d < 2 ^ dm) by (apply log2_bounds; [done|reflexivity]).
  assert (Hsplit : 2 ^ dm = 2 ^ 53 * 2 ^ (dm - 53)).
  { rewrite <- Z.pow_add_r by lia. f_equal. lia. }
  assert (Hsplit1 : 2 ^ (dm - 1) = 2 ^ 52 * 2 ^ (dm - 53)).
  { rewrite <- Z.pow_add_r by lia. f_equal. lia. }
  assert (HnD : 2 ^ 52 * D <= n < 2 ^ 53 * D).
  { pose proof (Z.mul_div_le n d Hd). pose proof (Z.mod_pos_bound n d Hd).
    pose proof (Z.div_mod n d) as E. unfold D. split.
    - replace (2 ^ 52 * (2 ^ (dm - 53) * d)) with (d * 2 ^ (dm - 1)) by (rewrite Hsplit1; ring).
      nia.
    - replace (2 ^ 53 * (2 ^ (dm - 53) * d)) with (d * 2 ^ dm) by (rewrite Hsplit; ring).
      nia. }
  split; [exact HnD|].
  unfold binary_round_aux, shr_fexp.
  change (shr_record_of_loc (n / d) (loc_of_frac (n mod d) d)) with (rec_of_frac n d).
  rewrite (Zdigits2_log2 (n / d) Hq). fold dm.
  assert (Hfexp : fexp prec emax (dm + e) = dm + e - 53).
  { unfold fexp, SpecFloat.emin, prec, emax. lia. }
  rewrite Hfexp. replace (dm + e - 53 - e) with (dm - 53) by lia.
  rewrite shr_rec by lia. fold D. cbv beta iota.
  assert (HRNE : round_nearest_even (shr_m (rec_of_frac n D))
                   (loc_of_shr_record (rec_of_frac n D)) = RNE n D).
  { unfold rec_of_frac. rewrite shr_m_of_loc, loc_of_shr_record_of_loc. reflexivity. }
  rewrite !HRNE. clear HRNE.
  pose proof (RNE_floor n D HD ltac:(lia)) as HM.
  assert (Hfl : 2 ^ 52 <= n / D < 2 ^ 53).
  { split; [apply Z.div_le_lower_bound; lia|apply Z.div_lt_upper_bound; lia]. }
  set (M := RNE n D) in *. clearbody M.
  rewrite <- rec_of_frac_exact.
  unfold normal. destruct (Z.eqb_spec M (2 ^ 53)) as [->|HM53].
  - rewrite (Zdigits2_log2 (2 ^ 53)) by reflexivity.
    replace (Z.log2 (2 ^ 53) + 1) with 54 by reflexivity.
    assert (Hf2 : fexp prec emax (54 + (e + (dm - 53))) = 54 + (e + (dm - 53)) - 53).
    { unfold fexp, SpecFloat.emin, prec, emax. lia. }
    rewrite Hf2. replace (54 + (e + (dm - 53)) - 53 - (e + (dm - 53))) with 1 by lia.
    rewrite shr_rec by lia. unfold rec_of_frac. rewrite shr_m_of_loc.
    replace (2 ^ 53 / (2 ^ 1 * 1)) with (Zpos (Z.to_pos (2 ^ 52))) by reflexivity.
    cbv iota beta.
    destruct (Z.leb_spec (e + (dm - 53) + 1) (emax - prec)) as [_|Hc]; [reflexivity|].
    unfold emax, prec in Hc. lia.
  - assert (HMd : Z.log2 M + 1 = 53) by (apply log2_bounds; lia).
    rewrite (Zdigits2_log2 M) by lia. rewrite HMd.
    assert (Hf2 : fexp prec emax (53 + (e + (dm - 53))) = 53 + (e + (dm - 53)) - 53).
    { unfold fexp, SpecFloat.emin, prec, emax. lia. }
    rewrite Hf2. replace (53 + (e + (dm - 53)) - 53 - (e + (dm - 53))) with 0 by lia.
    rewrite shr_rec by lia. unfold rec_of_frac. rewrite shr_m_of_loc.
    rewrite Z.pow_0_r, Z.mul_1_l, Z.div_1_r, Z.add_0_r.
    destruct M as [|pM|pM]; try lia. cbv iota beta.
    destruct (Z.leb_spec (e + (dm - 53)) (emax - prec)) as [_|Hc]; [reflexivity|].
    unfold emax, prec in Hc. lia.
Qed.

Lemma iter_xO p k : Zpos (Pos.iter xO p k) = Zpos p * 2 ^ Zpos k.
Proof.
  induction k as [|k IH] using Pos.peano_ind.
  - simpl. lia.
  - rewrite Pos.iter_succ, Pos2Z.inj_xO, IH, Pos2Z.inj_succ, Z.pow_succ_r by lia. ring.
Qed.

Lemma normal_exact sx m e :
  2 ^ 52 <= Zpos m < 2 ^ 53 -> -1074 <= e -> e + 1 <= 971 ->
  binary_round_aux prec emax sx (Zpos m) e loc_Exact = S754_finite sx m e.
Proof.
  intros Hm Hlo Hhi.
  assert (Hdm : Z.log2 (Zpos m / 1) + 1 = 53).
  { rewrite Z.div_1_r. apply log2_bounds; lia. }
  destruct (binary_round_aux_normal sx (Zpos m) 1 e) as [_ E]; try lia.
  rewrite Hdm in E. unfold loc_of_frac in E. rewrite Z.mod_1_r, Z.div_1_r in E.
  cbn [Z.eqb] in E. rewrite E.
  replace (53 - 53) with 0 by lia. rewrite Z.pow_0_r, Z.mul_1_l, Z.add_0_r.
  unfold RNE, loc_of_frac, round_nearest_even. rewrite Z.mod_1_r, Z.div_1_r. cbn [Z.eqb].
  unfold normal. destruct (Z.eqb_spec (Zpos m) (2 ^ 53)); [lia|reflexivity].
Qed.

(** [float64(z)] for a positive integer below 2^53 is exact. *)
Lemma binary_normalize_small z :
  0 < z < 2 ^ 53 ->
  let d := Z.log2 z + 1 in
  binary_normalize prec emax z 0 false
  = S754_finite false (Z.to_pos (z * 2 ^ (53 - d))) (d - 53).
Proof.
  intros Hz d. destruct z as [|p|p]; try lia. cbn [binary_normalize]. unfold binary_round.
  rewrite digits2_pos_log2. fold d.
  assert (Hd : 2 ^ (d - 1) <= Zpos p < 2 ^ d) by (apply log2_bounds; [lia|reflexivity]).
  assert (Hd0 : 1 <= d) by (pose proof (Z.log2_nonneg (Zpos p)); lia).
  assert (Hd53 : d <= 53).
  { destruct (Z.le_gt_cases d 53) as [|Hgt]; [done|].
    assert (2 ^ 53 <= 2 ^ (d - 1)) by (apply Z.pow_le_mono_r; lia). lia. }
  assert (Hf : fexp prec emax (d + 0) = d - 53).
  { unfold fexp, SpecFloat.emin, prec, emax. lia. }
  rewrite Hf. unfold shl_align. replace (d - 53 - 0) with (d - 53) by lia.
  assert (Hpow : 2 ^ d * 2 ^ (53 - d) = 2 ^ 53) by (rewrite <- Z.pow_add_r by lia; f_equal; lia).
  assert (Hpow1 : 2 ^ (d - 1) * 2 ^ (53 - d) = 2 ^ 52)
    by (rewrite <- Z.pow_add_r by lia; f_equal; lia).
  assert (Hk : 0 < 2 ^ (53 - d)) by (apply Z.pow_pos_nonneg; lia).
  destruct (d - 53) as [|k|k] eqn:Ek; try lia.
  - replace (53 - d) with 0 in * by lia. rewrite Z.pow_0_r, Z.mul_1_r in *. simpl Z.to_pos.
    rewrite normal_exact; [reflexivity|lia|lia|lia].
  - assert (E53 : 53 - d = Zpos k) by lia. rewrite E53 in *.
    assert (Hm : Zpos (Pos.iter xO p k) = Zpos p * 2 ^ Zpos k) by apply iter_xO.
    rewrite normal_exact; [|nia|lia|lia].
    f_equal. apply Pos2Z.inj. rewrite Hm, Z2Pos.id by nia. reflexivity.
Qed.

(** [float64(z)] for an integer from 2^53 up to 2^63 is a float of at least
    2^53. *)
Lemma binary_normalize_large z :
  2 ^ 53 <= z < 2 ^ 63 ->
  exists M E, binary_normalize prec emax z 0 false = S754_finite false M E /\
              2 ^ 52 <= Zpos M < 2 ^ 53 /\ 1 <= E <= 11.
Proof.
  intros Hz. destruct z as [|p|p]; try lia. cbn [binary_normalize]. unfold binary_round.
  rewrite digits2_pos_log2. set (d := Z.log2 (Zpos p) + 1).
  assert (Hd : 2 ^ (d - 1) <= Zpos p < 2 ^ d) by (apply log2_bounds; [lia|reflexivity]).
  assert (Hd54 : 54 <= d).
  { destruct (Z.le_gt_cases 54 d) as [|Hlt]; [done|].
    assert (2 ^ d <= 2 ^ 53) by (apply Z.pow_le_mono_r; lia). lia. }
  assert (Hd63 : d <= 63).
  { destruct (Z.le_gt_cases d 63) as [|Hgt]; [done|].
    assert (2 ^ 63 <= 2 ^ (d - 1)) by (apply Z.pow_le_mono_r; lia). lia. }
  assert (Hf : fexp prec emax (d + 0) = d - 53).
  { unfold fexp, SpecFloat.emin, prec, emax. lia. }
  rewrite Hf. unfold shl_align. replace (d - 53 - 0) with (d - 53) by lia.
  destruct (d - 53) as [|k|k] eqn:Ek; try lia.
  assert (Hdm : Z.log2 (Zpos p / 1) + 1 = d) by (rewrite Z.div_1_r; reflexivity).
  destruct (binary_round_aux_normal false (Zpos p) 1 0) as [Hb E]; try lia.
  rewrite Hdm in *. unfold loc_of_frac in E. rewrite Z.mod_1_r, Z.div_1_r in E.
  cbn [Z.eqb] in E. rewrite E. clear E.
  set (D := 2 ^ (d - 53) * 1) in *.
  assert (HD : 0 < D) by (unfold D; assert (0 < 2 ^ (d - 53)) by (apply Z.pow_pos_nonneg; lia); lia).
  pose proof (RNE_floor (Zpos p) D HD ltac:(lia)) as HM.
  assert (Hfl : 2 ^ 52 <= Zpos p / D < 2 ^ 53).
  { split; [apply Z.div_le_lower_bound; lia|apply Z.div_lt_upper_bound; lia]. }
  unfold normal. destruct (Z.eqb_spec (RNE (Zpos p) D) (2 ^ 53)) as [E53|NE].
  - eexists _, _. split; [reflexivity|]. split; [simpl; lia|lia].
  - eexists _, _. split; [reflexivity|]. rewrite Z2Pos.id by lia. lia.
Qed.

(** The quotient of two positive normal floats. *)
Lemma SFdiv_normal m1 e1 m2 e2 :
  2 ^ 52 <= Zpos m1 < 2 ^ 53 -> 2 ^ 52 <= Zpos m2 < 2 ^ 53 ->
  -900 <= e1 - e2 <= 900 ->
  let n := Zpos m1 * 2 ^ 53 in
  let k := Z.log2 (n / Zpos m2) + 1 - 53 in
  let D := 2 ^ k * Zpos m2 in
  0 <= k <= 1 /\ 2 ^ 52 * D <= n < 2 ^ 53 * D /\
  SFdiv prec emax (S754_finite false m1 e1) (S754_finite false m2 e2)
  = normal false (RNE n D) (e1 - e2 - 53 + k).
Proof.
  intros H1 H2 He n k D.
  assert (Hq : 2 ^ 52 <= n / Zpos m2 < 2 ^ 54).
  { unfold n. split; [apply Z.div_le_lower_bound; lia|apply Z.div_lt_upper_bound; lia]. }
  assert (Hk : 0 <= k <= 1).
  { unfold k. pose proof (Z.log2_spec (n / Zpos m2) ltac:(lia)) as Hl.
    assert (52 <= Z.log2 (n / Zpos m2)) by (apply Z.log2_le_pow2; lia).
    assert (Z.log2 (n / Zpos m2) < 54) by (apply Z.log2_lt_pow2; lia). lia. }
  destruct (binary_round_aux_normal false n (Zpos m2) (e1 - e2 - 53)) as [Hb E];
    try (fold k; lia); try (unfold n; lia).
  fold k in Hb, E. fold D in Hb, E.
  split; [done|]. split; [done|].
  unfold SFdiv, SFdiv_core_binary. cbn [Zdigits2]. rewrite !digits2_pos_log2.
  assert (Hd1 : Z.log2 (Zpos m1) + 1 = 53) by (apply log2_bounds; lia).
  assert (Hd2 : Z.log2 (Zpos m2) + 1 = 53) by (apply log2_bounds; lia).
  rewrite Hd1, Hd2.
  assert (Hf : fexp prec emax (53 + e1 - (53 + e2)) = e1 - e2 - 53).
  { unfold fexp, SpecFloat.emin, prec, emax. lia. }
  rewrite Hf. rewrite Z.min_l by lia.
  replace (e1 - e2 - (e1 - e2 - 53)) with 53 by lia.
  rewrite Z.shiftl_mul_pow2 by lia. fold n.
  pose proof (Z.div_eucl_eq n (Zpos m2) ltac:(lia)) as Heq.
  assert (Hdiv : Z.div_eucl n (Zpos m2) = (n / Zpos m2, n mod Zpos m2)).
  { unfold Z.div, Z.modulo. by destruct (Z.div_eucl n (Zpos m2)). }
  rewrite Hdiv. cbn [xorb].
  rewrite new_location_spec; [exact E|lia|]. apply Z.mod_pos_bound. lia.
Qed.

(** ** Order of rounded quotients *)

Lemma RNE_spec n d :
  0 < d -> 0 <= n ->
  exists q r, n = d * q + r /\ 0 <= r < d /\ 0 <= q /\
    ((RNE n d = q /\ 2 * r <= d /\ (2 * r = d -> Z.even q = true)) \/
     (RNE n d = q + 1 /\ d <= 2 * r /\ (2 * r = d -> Z.even q = false))).
Proof.
  intros Hd Hn. exists (n / d), (n mod d).
  pose proof (Z.div_mod n d ltac:(lia)) as E.
  pose proof (Z.mod_pos_bound n d Hd) as Hr.
  pose proof (Z.div_pos n d Hn Hd) as Hq.
  split; [exact E|]. split; [exact Hr|]. split; [exact Hq|].
  unfold RNE, round_nearest_even, loc_of_frac.
  destruct (Z.eqb_spec (n mod d) 0) as [E0|NE].
  { left. rewrite E0. split; [reflexivity|]. split; lia. }
  destruct (Z.compare_spec (2 * (n mod d)) d) as [Heq|Hlt|Hgt].
  - destruct (Z.even (n / d)) eqn:Ev.
    + left. split; [reflexivity|]. split; [lia|done].
    + right. split; [reflexivity|]. split; [lia|done].
  - left. split; [reflexivity|]. split; lia.
  - right. split; [reflexivity|]. split; lia.
Qed.

Lemma RNE_mono n1 d1 n2 d2 :
  0 < d1 -> 0 < d2 -> 0 <= n1 -> 0 <= n2 ->
  n1 * d2 <= n2 * d1 -> RNE n1 d1 <= RNE n2 d2.
Proof.
  intros Hd1 Hd2 Hn1 Hn2 Hle.
  destruct (RNE_spec n1 d1 Hd1 Hn1) as (q1 & r1 & E1 & Hr1 & Hq1 & C1).
  destruct (RNE_spec n2 d2 Hd2 Hn2) as (q2 & r2 & E2 & Hr2 & Hq2 & C2).
  assert (Hq : q1 <= q2).
  { destruct (Z.le_gt_cases q1 q2) as [|Hgt]; [done|]. exfalso.
    assert (d1 * d2 * (q2 + 1) <= d1 * d2 * q1) by (apply Z.mul_le_mono_nonneg_l; nia).
    assert (n2 * d1 < d1 * d2 * (q2 + 1)) by nia.
    assert (d1 * d2 * q1 <= n1 * d2) by nia. lia. }
  destruct (Z.eq_dec q1 q2) as [->|NE].
  2:{ destruct C1 as [(-> & _)|(-> & _)], C2 as [(-> & _)|(-> & _)]; lia. }
  assert (Hr : r1 * d2 <= r2 * d1) by nia.
  destruct C1 as [(-> & _)|(-> & Hup1 & Hev1)], C2 as [(-> & Hdn2 & Hev2)|(-> & _)]; try lia.
  exfalso.
  assert (H1 : d1 * d2 <= 2 * r1 * d2) by nia.
  assert (H2 : 2 * r2 * d1 <= d2 * d1) by nia.
  assert (H3 : 2 * r1 * d2 = d1 * d2) by nia.
  assert (H4 : 2 * r2 * d1 = d2 * d1) by nia.
  assert (2 * r1 = d1) by nia. assert (2 * r2 = d2) by nia.
  rewrite Hev1 in Hev2 by done. specialize (Hev2 ltac:(done)). done.
Qed.

Lemma RNE_bounds n D : 0 < D -> 2 ^ 52 * D <= n < 2 ^ 53 * D -> 2 ^ 52 <= RNE n D <= 2 ^ 53.
Proof.
  intros HD Hn. pose proof (RNE_floor n D HD ltac:(lia)) as H.
  assert (2 ^ 52 <= n / D < 2 ^ 53).
  { split; [apply Z.div_le_lower_bound; lia|apply Z.div_lt_upper_bound; lia]. }
  lia.
Qed.

(** Comparing two rounded results. *)
Lemma SFleb_normal M1 E1 M2 E2 :
  2 ^ 52 <= M1 <= 2 ^ 53 -> 2 ^ 52 <= M2 <= 2 ^ 53 ->
  (E1 < E2 \/ (E1 = E2 /\ M1 <= M2) ->
   SFleb (normal false M1 E1) (normal false M2 E2) = true) /\
  ((E2 < E1 /\ ~ (E1 = E2 + 1 /\ M2 = 2 ^ 53 /\ M1 = 2 ^ 52)) \/ (E1 = E2 /\ M2 < M1) ->
   SFleb (normal false M1 E1) (normal false M2 E2) = false).
Proof.
  intros H1 H2. unfold normal, SFleb, SFcompare.
  destruct (Z.eqb_spec M1 (2 ^ 53)) as [->|N1], (Z.eqb_spec M2 (2 ^ 53)) as [->|N2];
    rewrite ?Pos.compare_cont_spec; fold (Pos.compare);
    split; intros H;
    repeat match goal with
    | |- context [Z.compare ?a ?b] => destruct (Z.compare_spec a b)
    | |- context [Pos.compare ?a ?b] =>
        let C := fresh in
        destruct (Pos.compare_spec a b) as [C|C|C];
        [apply (f_equal Zpos) in C|apply Pos2Z.pos_lt_pos in C|apply Pos2Z.pos_lt_pos in C];
        rewrite ?Z2Pos.id in C by lia
    end; simpl; try reflexivity; try lia.
Qed.

Lemma pow2_pos p : 0 <= p -> 0 < 2 ^ p.
Proof. intros. apply Z.pow_pos_nonneg; lia. Qed.

(** The values [n1 / (D1 * 2^p1)] and [n2 / (D2 * 2^p2)] compare as the
    fractions [A1 / B1] and [A2 / B2] that they stand for. *)
Lemma rep_value_le A1 B1 n1 D1 p1 A2 B2 n2 D2 p2 :
  rep A1 B1 n1 D1 p1 -> rep A2 B2 n2 D2 p2 ->
  A1 * B2 <= A2 * B1 ->
  n1 * (D2 * 2 ^ p2) <= n2 * (D1 * 2 ^ p1).
Proof.
  intros (HB1 & HD1 & Hp1 & E1 & Hb1) (HB2 & HD2 & Hp2 & E2 & Hb2) Hle.
  pose proof (pow2_pos p1 Hp1) as HP1. pose proof (pow2_pos p2 Hp2) as HP2.
  set (P1 := 2 ^ p1) in *. set (P2 := 2 ^ p2) in *. clearbody P1 P2.
  apply (Z.mul_le_mono_pos_r _ _ (B1 * B2)); [nia|].
  replace (n1 * (D2 * P2) * (B1 * B2)) with ((n1 * B1) * (D2 * P2 * B2)) by ring.
  replace (n2 * (D1 * P1) * (B1 * B2)) with ((n2 * B2) * (D1 * P1 * B1)) by ring.
  rewrite E1, E2.
  replace (A1 * D1 * P1 * (D2 * P2 * B2)) with ((A1 * B2) * (D1 * P1 * D2 * P2)) by ring.
  replace (A2 * D2 * P2 * (D1 * P1 * B1)) with ((A2 * B1) * (D1 * P1 * D2 * P2)) by ring.
  apply Z.mul_le_mono_nonneg_r; [|done].
  assert (0 < D1 * P1) by nia. assert (0 < D2 * P2) by nia. nia.
Qed.

Lemma rep_order A1 B1 n1 D1 p1 A2 B2 n2 D2 p2 :
  rep A1 B1 n1 D1 p1 -> rep A2 B2 n2 D2 p2 ->
  A1 * B2 <= A2 * B1 ->
  p2 < p1 \/ (p1 = p2 /\ n1 * D2 <= n2 * D1).
Proof.
  intros R1 R2 Hle. pose proof (rep_value_le _ _ _ _ _ _ _ _ _ _ R1 R2 Hle) as Hv.
  destruct R1 as (HB1 & HD1 & Hp1 & E1 & Hb1), R2 as (HB2 & HD2 & Hp2 & E2 & Hb2).
  pose proof (pow2_pos p1 Hp1) as HP1.
  destruct (Z.lt_trichotomy p1 p2) as [Hlt|[->|Hgt]]; [exfalso|right|by left].
  - assert (Hs : 2 ^ p2 = 2 ^ p1 * 2 ^ (p2 - p1)).
    { rewrite <- Z.pow_add_r by lia. f_equal. lia. }
    assert (Hk : 2 <= 2 ^ (p2 - p1)).
    { change 2 with (2 ^ 1) at 1. apply Z.pow_le_mono_r; lia. }
    rewrite Hs in Hv. set (P1 := 2 ^ p1) in *. set (K := 2 ^ (p2 - p1)) in *.
    clearbody P1 K.
    assert (H1 : 2 ^ 52 * D1 * (D2 * (P1 * 2)) <= n1 * (D2 * (P1 * K))).
    { apply Z.mul_le_mono_nonneg; try nia. }
    assert (H2 : n2 * (D1 * P1) < 2 ^ 53 * D2 * (D1 * P1)).
    { apply Z.mul_lt_mono_pos_r; nia. }
    nia.
  - split; [done|].
    apply (Z.mul_le_mono_pos_r _ _ (2 ^ p2)); [done|].
    replace (n1 * D2 * 2 ^ p2) with (n1 * (D2 * 2 ^ p2)) by ring.
    replace (n2 * D1 * 2 ^ p2) with (n2 * (D1 * 2 ^ p2)) by ring. done.
Qed.

Lemma rounded_le A1 B1 n1 D1 p1 A2 B2 n2 D2 p2 :
  rep A1 B1 n1 D1 p1 -> rep A2 B2 n2 D2 p2 ->
  A1 * B2 <= A2 * B1 ->
  SFleb (normal false (RNE n1 D1) (- p1)) (normal false (RNE n2 D2) (- p2)) = true.
Proof.
  intros R1 R2 Hle. pose proof (rep_order _ _ _ _ _ _ _ _ _ _ R1 R2 Hle) as Ho.
  destruct R1 as (HB1 & HD1 & Hp1 & E1 & Hb1), R2 as (HB2 & HD2 & Hp2 & E2 & Hb2).
  apply SFleb_normal; [by apply RNE_bounds|by apply RNE_bounds|].
  destruct Ho as [Hlt|[-> Hn]]; [left; lia|right].
  split; [done|]. apply RNE_mono; lia.
Qed.

(** The reverse comparison, when the first fraction is [1 / rf] and the second,
    [a / b], lies below it. *)
Lemma rounded_gt rf n1 D1 p1 a b n2 D2 p2 :
  rep 1 rf n1 D1 p1 -> rep a b n2 D2 p2 ->
  0 < a -> a * rf < b -> b < 2 ^ 32 ->
  SFleb (normal false (RNE n1 D1) (- p1)) (normal false (RNE n2 D2) (- p2)) = false.
Proof.
  intros R1 R2 Ha Hlt Hb32.
  assert (Hle : a * rf <= 1 * b) by lia.
  pose proof (rep_order _ _ _ _ _ _ _ _ _ _ R2 R1 Hle) as Ho.
  destruct R1 as (HB1 & HD1 & Hp1 & E1 & Hb1), R2 as (HB2 & HD2 & Hp2 & E2 & Hb2).
  pose proof (pow2_pos p1 Hp1) as HP1. pose proof (pow2_pos p2 Hp2) as HP2.
  (* the margin: a/b <= (1/rf) * (b-1)/b *)
  assert (Hmargin : n2 * (D1 * 2 ^ p1) * b <= n1 * (D2 * 2 ^ p2) * (b - 1)).
  { apply (Z.mul_le_mono_pos_r _ _ rf); [done|].
    replace (n2 * (D1 * 2 ^ p1) * b * rf) with ((n2 * b) * (D1 * 2 ^ p1 * rf)) by ring.
    rewrite E2.
    replace (a * D2 * 2 ^ p2 * (D1 * 2 ^ p1 * rf))
      with ((a * rf) * (D2 * 2 ^ p2 * (1 * D1 * 2 ^ p1))) by ring.
    rewrite <- E1.
    replace (n1 * (D2 * 2 ^ p2) * (b - 1) * rf)
      with ((b - 1) * (D2 * 2 ^ p2 * (n1 * rf))) by ring.
    apply Z.mul_le_mono_nonneg_r; [|lia].
    assert (0 < D2 * 2 ^ p2) by nia. assert (0 <= n1 * rf) by nia. nia. }
  pose proof (RNE_bounds n1 D1 HD1 Hb1) as HM1.
  pose proof (RNE_bounds n2 D2 HD2 Hb2) as HM2.
  apply SFleb_normal; [done|done|].
  destruct (RNE_spec n1 D1 HD1 ltac:(lia)) as (q1 & r1 & Eq1 & Hr1 & Hq1 & C1).
  destruct (RNE_spec n2 D2 HD2 ltac:(lia)) as (q2 & r2 & Eq2 & Hr2 & Hq2 & C2).
  destruct Ho as [Hp|[-> Hn]].
  - left. split; [lia|]. intros (Hpe & HM2e & HM1e).
    assert (Hp21 : p2 = p1 + 1) by lia. subst p2.
    rewrite Z.pow_add_r in Hmargin by lia. change (2 ^ 1) with 2 in Hmargin.
    set (P := 2 ^ p1) in *. clearbody P.
    assert (Hm' : n2 * D1 * b <= 2 * n1 * D2 * (b - 1)).
    { apply (Z.mul_le_mono_pos_r _ _ P); [done|].
      replace (n2 * D1 * b * P) with (n2 * (D1 * P) * b) by ring.
      replace (2 * n1 * D2 * (b - 1) * P) with (n1 * (D2 * (P * 2)) * (b - 1)) by ring.
      done. }
    assert (H2 : (2 ^ 54 - 1) * D2 <= 2 * n2).
    { destruct C2 as [(E & _)|(E & Hup & _)]; rewrite E in HM2e.
      - exfalso. assert (2 ^ 53 * D2 <= n2) by nia. lia.
      - assert (q2 = 2 ^ 53 - 1) by lia. subst q2. lia. }
    assert (H1 : 2 * n1 <= (2 ^ 53 + 1) * D1).
    { destruct C1 as [(E & Hdn & _)|(E & _)]; rewrite E in HM1e.
      - subst q1. lia.
      - exfalso. assert (q1 = 2 ^ 52 - 1) by lia. subst q1. lia. }
    assert (H3 : (2 ^ 54 - 1) * D2 * (D1 * b) <= 2 * n2 * (D1 * b)).
    { apply Z.mul_le_mono_nonneg_r; nia. }
    assert (H4 : 2 * n1 * (2 * D2 * (b - 1)) <= (2 ^ 53 + 1) * D1 * (2 * D2 * (b - 1))).
    { apply Z.mul_le_mono_nonneg_r; nia. }
    assert (H5 : (2 ^ 54 - 1) * b * (D1 * D2) <= (2 ^ 54 + 2) * (b - 1) * (D1 * D2)) by nia.
    assert (H6 : (2 ^ 54 - 1) * b <= (2 ^ 54 + 2) * (b - 1)).
    { apply (Z.mul_le_mono_pos_r _ _ (D1 * D2)); [nia|done]. }
    lia.
  - right. split; [done|].
    set (P := 2 ^ p1) in *. clearbody P.
    assert (Hm' : n2 * D1 * b <= n1 * D2 * (b - 1)).
    { apply (Z.mul_le_mono_pos_r _ _ P); [done|].
      replace (n2 * D1 * b * P) with (n2 * (D1 * P) * b) by ring.
      replace (n1 * D2 * (b - 1) * P) with (n1 * (D2 * P) * (b - 1)) by ring.
      done. }
    assert (Hgap : 2 * (D1 * D2) <= n1 * D2 - n2 * D1).
    { assert (Hg1 : n1 * D2 <= (n1 * D2 - n2 * D1) * b) by nia.
      assert (Hg2 : 2 ^ 52 * (D1 * D2) <= n1 * D2) by nia.
      assert (Hg3 : (n1 * D2 - n2 * D1) * b <= (n1 * D2 - n2 * D1) * 2 ^ 32).
      { apply Z.mul_le_mono_nonneg_l; lia. }
      lia. }
    assert (Hq : q2 + 2 <= q1).
    { destruct (Z.le_gt_cases (q2 + 2) q1) as [|Hgt]; [done|]. exfalso.
      assert (Hq12 : q1 <= q2 + 1) by lia.
      assert (Hqq : D1 * q1 * D2 <= D1 * (q2 + 1) * D2).
      { apply Z.mul_le_mono_nonneg_r; [lia|]. apply Z.mul_le_mono_nonneg_l; lia. }
      assert (Hr1D : r1 * D2 < D1 * D2) by (apply Z.mul_lt_mono_pos_r; lia).
      assert (Hr2D : 0 <= r2 * D1) by (apply Z.mul_nonneg_nonneg; lia).
      assert (Hn1 : n1 * D2 = D1 * q1 * D2 + r1 * D2) by (rewrite Eq1; ring).
      assert (Hn2 : n2 * D1 = D2 * q2 * D1 + r2 * D1) by (rewrite Eq2; ring).
      clear - Hqq Hr1D Hr2D Hn1 Hn2 Hgap. lia. }
    destruct C1 as [(-> & _)|(-> & _)], C2 as [(-> & _)|(-> & _)]; lia.
Qed.

(** ** The test of the code *)

Lemma Prim2SF_float64_of_Z z :
  0 <= z < 2 ^ 63 -> Prim2SF (float64_of_Z z) = binary_normalize prec emax z 0 false.
Proof.
  intros Hz. unfold float64_of_Z. rewrite bool_decide_eq_false_2 by lia.
  rewrite of_uint63_spec, Uint63.of_Z_spec, Z.mod_small; [reflexivity|].
  change wB with (2 ^ 63). lia.
Qed.

Lemma float64_small z :
  0 < z < 2 ^ 53 ->
  exists m d, binary_normalize prec emax z 0 false = S754_finite false m (d - 53) /\
              Zpos m = z * 2 ^ (53 - d) /\ 2 ^ 52 <= Zpos m < 2 ^ 53 /\
              1 <= d <= 53 /\ 2 ^ (d - 1) <= z < 2 ^ d.
Proof.
  intros Hz. rewrite binary_normalize_small by done.
  set (d := Z.log2 z + 1).
  assert (Hd : 2 ^ (d - 1) <= z < 2 ^ d) by (apply log2_bounds; [lia|reflexivity]).
  assert (Hd0 : 1 <= d) by (pose proof (Z.log2_nonneg z); lia).
  assert (Hd53 : d <= 53).
  { destruct (Z.le_gt_cases d 53) as [|Hgt]; [done|].
    assert (2 ^ 53 <= 2 ^ (d - 1)) by (apply Z.pow_le_mono_r; lia). lia. }
  assert (Hpow : 2 ^ d * 2 ^ (53 - d) = 2 ^ 53) by (rewrite <- Z.pow_add_r by lia; f_equal; lia).
  assert (Hpow1 : 2 ^ (d - 1) * 2 ^ (53 - d) = 2 ^ 52)
    by (rewrite <- Z.pow_add_r by lia; f_equal; lia).
  assert (Hk : 0 < 2 ^ (53 - d)) by (apply Z.pow_pos_nonneg; lia).
  exists (Z.to_pos (z * 2 ^ (53 - d))), d.
  rewrite Z2Pos.id by nia. split_and!; try done; try lia; nia.
Qed.

Lemma digits_below z d k : 0 < z < 2 ^ k -> 2 ^ (d - 1) <= z -> 0 <= k -> d <= k.
Proof.
  intros Hz Hd Hk. destruct (Z.le_gt_cases d k) as [|Hgt]; [done|].
  assert (2 ^ k <= 2 ^ (d - 1)) by (apply Z.pow_le_mono_r; lia). lia.
Qed.

(** The comparison of the code, on the specification of the floats, for
    strictly positive weights. *)
Lemma SF_overweight a b rf :
  0 < a < 2 ^ 32 -> 0 < b < 2 ^ 32 -> 0 < rf < 2 ^ 63 ->
  SFleb (SFdiv prec emax (binary_normalize prec emax 1 0 false)
                         (binary_normalize prec emax rf 0 false))
        (SFdiv prec emax (binary_normalize prec emax a 0 false)
                         (binary_normalize prec emax b 0 false))
  = (b <=? a * rf).
Proof.
  intros Ha Hb Hrf.
  destruct (float64_small a ltac:(lia)) as (ma & da & -> & Ema & Hma & Hda & Hda').
  destruct (float64_small b ltac:(lia)) as (mb & db & -> & Emb & Hmb & Hdb & Hdb').
  destruct (float64_small 1 ltac:(lia)) as (m1 & d1 & -> & Em1 & Hm1 & Hd1 & Hd1').
  assert (d1 = 1) as -> by (apply Z.le_antisymm; [apply (digits_below 1 d1 1); lia|lia]).
  replace (53 - 1) with 52 in Em1 by lia. rewrite Z.mul_1_l in Em1.
  assert (Hda32 : da <= 32) by (apply (digits_below a da 32); lia).
  assert (Hdb32 : db <= 32) by (apply (digits_below b db 32); lia).
  destruct (SFdiv_normal ma (da - 53) mb (db - 53) Hma Hmb ltac:(lia)) as (Hk2 & Hb2 & ->).
  set (k2 := Z.log2 (Zpos ma * 2 ^ 53 / Zpos mb) + 1 - 53) in *. clearbody k2.
  set (n2 := Zpos ma * 2 ^ 53) in *. set (D2 := 2 ^ k2 * Zpos mb) in *.
  set (p2 := 53 + db - da - k2).
  replace (da - 53 - (db - 53) - 53 + k2) with (- p2) by (unfold p2; lia).
  assert (Hp2 : 21 <= p2 <= 84) by (unfold p2; lia).
  assert (HD2 : 0 < D2) by (unfold D2; pose proof (pow2_pos k2); nia).
  assert (R2 : rep a b n2 D2 p2).
  { unfold rep. split_and!; try lia. unfold n2, D2, p2. rewrite Ema, Emb.
    replace (a * 2 ^ (53 - da) * 2 ^ 53 * b)
      with (a * b * (2 ^ (53 - da) * 2 ^ 53)) by ring.
    replace (a * (2 ^ k2 * (b * 2 ^ (53 - db))) * 2 ^ (53 + db - da - k2))
      with (a * b * (2 ^ k2 * 2 ^ (53 - db) * 2 ^ (53 + db - da - k2))) by ring.
    f_equal. rewrite <- !Z.pow_add_r by lia. f_equal. lia. }
  destruct (Z.lt_ge_cases rf (2 ^ 53)) as [Hsmall|Hlarge].
  - destruct (float64_small rf ltac:(lia)) as (mr & dr & -> & Emr & Hmr & Hdr & Hdr').
    destruct (SFdiv_normal m1 (1 - 53) mr (dr - 53) Hm1 Hmr ltac:(lia)) as (Hk1 & Hb1 & ->).
    set (k1 := Z.log2 (Zpos m1 * 2 ^ 53 / Zpos mr) + 1 - 53) in *. clearbody k1.
    set (n1 := Zpos m1 * 2 ^ 53) in *. set (D1 := 2 ^ k1 * Zpos mr) in *.
    set (p1 := 52 + dr - k1).
    replace (1 - 53 - (dr - 53) - 53 + k1) with (- p1) by (unfold p1; lia).
    assert (HD1 : 0 < D1) by (unfold D1; pose proof (pow2_pos k1); nia).
    assert (R1 : rep 1 rf n1 D1 p1).
    { unfold rep. split_and!; try lia. unfold n1, D1, p1. rewrite Em1, Emr.
      replace (1 * (2 ^ k1 * (rf * 2 ^ (53 - dr))) * 2 ^ (52 + dr - k1))
        with (rf * (2 ^ k1 * 2 ^ (53 - dr) * 2 ^ (52 + dr - k1))) by ring.
      replace (2 ^ 52 * 2 ^ 53 * rf) with (rf * (2 ^ 52 * 2 ^ 53)) by ring.
      f_equal. rewrite <- !Z.pow_add_r by lia. f_equal. lia. }
    destruct (Z.leb_spec b (a * rf)) as [Hle|Hgt].
    + apply (rounded_le 1 rf n1 D1 p1 a b n2 D2 p2); [done|done|lia].
    + apply (rounded_gt rf n1 D1 p1 a b n2 D2 p2); [done|done|lia|lia|lia].
  - destruct (binary_normalize_large rf ltac:(lia)) as (Mr & Er & -> & HMr & HEr).
    destruct (SFdiv_normal m1 (1 - 53) Mr Er Hm1 HMr ltac:(lia)) as (Hk1 & Hb1 & ->).
    set (k1 := Z.log2 (Zpos m1 * 2 ^ 53 / Zpos Mr) + 1 - 53) in *. clearbody k1.
    set (n1 := Zpos m1 * 2 ^ 53) in *. set (D1 := 2 ^ k1 * Zpos Mr) in *.
    assert (HD1 : 0 < D1) by (unfold D1; pose proof (pow2_pos k1); nia).
    destruct R2 as (_ & _ & _ & _ & Hb2').
    rewrite (proj1 (SFleb_normal _ _ _ _ (RNE_bounds n1 D1 HD1 Hb1) (RNE_bounds n2 D2 HD2 Hb2')));
      [|left; lia].
    symmetry. apply Z.leb_le. nia.
Qed.

Lemma float64_finite z :
  0 < z < 2 ^ 63 ->
  exists m e, binary_normalize prec emax z 0 false = S754_finite false m e /\
              2 ^ 52 <= Zpos m < 2 ^ 53 /\ -52 <= e <= 11.
Proof.
  intros Hz. destruct (Z.lt_ge_cases z (2 ^ 53)) as [Hsmall|Hlarge].
  - destruct (float64_small z ltac:(lia)) as (m & d & -> & _ & Hm & Hd & _).
    exists m, (d - 53). split_and!; try done; lia.
  - destruct (binary_normalize_large z ltac:(lia)) as (M & E & -> & HM & HE).
    exists M, E. split_and!; try done; lia.
Qed.

(** C6, as stated, fails when both weights are zero: the float quotient
    [0 / 0] is not a number, every comparison with it is false, and the code
    answers [false], while [0 * rf ≥ 0] holds. *)
Lemma isRackOverWeight_zero_weights :
  isRackOverWeight 0 0 1 = false ∧ isRackOverWeight_spec 0 0 1 = true ∧
  Prim2SF (PrimFloat.div (float64_of_Z 0) (float64_of_Z 0)) = S754_nan.
Proof. vm_compute. repeat split. Qed.

(** C6, amended: for [rackWeight] and [totalWeight] in the range of [uint32]
    and [rf] a positive [int], the overweight test that the code evaluates in
    float64 returns [false] when both weights are zero, and otherwise returns
    true if and only if [rackWeight * rf ≥ totalWeight] holds over exact
    integers. *)
Theorem isRackOverWeight_integer_form (rackWeight totalWeight rf : Z) :
  0 <= rackWeight < 2 ^ 32 -> 0 <= totalWeight < 2 ^ 32 -> 0 < rf < 2 ^ 63 ->
  (rackWeight = 0 -> totalWeight = 0 ->
     isRackOverWeight rackWeight totalWeight rf = false) /\
  (rackWeight <> 0 \/ totalWeight <> 0 ->
     isRackOverWeight rackWeight totalWeight rf
     = isRackOverWeight_spec rackWeight totalWeight rf).
Proof.
  intros Ha Hb Hrf. unfold isRackOverWeight, isRackOverWeight_spec.
  rewrite leb_spec, !div_spec, !Prim2SF_float64_of_Z by lia. unfold SF64div.
  destruct (float64_finite 1 ltac:(lia)) as (m1 & e1 & E1 & Hm1 & He1).
  destruct (float64_finite rf ltac:(lia)) as (mr & er & Er & Hmr & Her).
  assert (HL : exists M E, SFdiv prec emax (binary_normalize prec emax 1 0 false)
                             (binary_normalize prec emax rf 0 false)
                           = S754_finite false M E).
  { rewrite E1, Er.
    destruct (SFdiv_normal m1 e1 mr er Hm1 Hmr ltac:(lia)) as (_ & _ & ->).
    unfold normal. destruct (_ =? _); eauto. }
  split.
  - intros -> ->. destruct HL as (M & E & ->). reflexivity.
  - intros Hnz. destruct (Z.eq_dec rackWeight 0) as [->|Ha0].
    + assert (0 < totalWeight) by lia.
      destruct (float64_finite totalWeight ltac:(lia)) as (mb & eb & -> & _ & _).
      destruct HL as (M & E & ->). rewrite bool_decide_eq_false_2 by lia. reflexivity.
    + destruct (Z.eq_dec totalWeight 0) as [->|Hb0].
      * destruct (float64_finite rackWeight ltac:(lia)) as (ma & ea & -> & _ & _).
        destruct HL as (M & E & ->). rewrite bool_decide_eq_true_2 by nia. reflexivity.
      * rewrite SF_overweight by lia.
        destruct (Z.leb_spec totalWeight (rackWeight * rf)).
        -- by rewrite bool_decide_eq_true_2.
        -- by rewrite bool_decide_eq_false_2 by lia.
Qed.

Lemma isRackOverWeight_integer_form_witness :
  0 <= 1 < 2 ^ 32 ∧ 0 <= 3 < 2 ^ 32 ∧ 0 < 3 < 2 ^ 63 ∧
  isRackOverWeight 1 3 3 = isRackOverWeight_spec 1 3 3 ∧
  isRackOverWeight 0 0 3 = false.
Proof.
  assert (H1 : 0 <= 1 < 2 ^ 32) by lia.
  assert (H0 : 0 <= 0 < 2 ^ 32) by lia.
  assert (H2 : 0 <= 3 < 2 ^ 32) by lia.
  assert (H3 : 0 < 3 < 2 ^ 63) by lia.
  split; [exact H1|]. split; [exact H2|]. split; [exact H3|]. split.
  - apply (proj2 (isRackOverWeight_integer_form 1 3 3 H1 H2 H3)). left. lia.
  - apply (proj1 (isRackOverWeight_integer_form 0 0 3 H0 H0 H3)); reflexivity.
Defined.

(** * Further properties of the helper *)

(** ** Lists of instances and of shards *)

(** X1: [removeInstanceFromList] leaves the list as it is when no entry has
    the given id; otherwise it removes the first entry of that id and no
    other: the result, one entry shorter, holds the other entries (the last
    entry takes the place of the removed one). *)
Theorem removeInstanceFromList_spec (σ : list Instance) (instances : list nat) (id : string) :
  match list_find (hasID σ id) instances with
  | None =>
      (forall l, l ∈ instances -> ¬ hasID σ id l) ∧
      removeInstanceFromList σ instances id = instances
  | Some (i, l) =>
      hasID σ id l ∧ instances !! i = Some l ∧
      (forall j y, instances !! j = Some y -> (j < i)%nat -> ¬ hasID σ id y) ∧
      instances ≡ₚ l :: removeInstanceFromList σ instances id ∧
      S (length (removeInstanceFromList σ instances id)) = length instances ∧
      (forall j, (j < length instances - 1)%nat -> j ≠ i ->
         removeInstanceFromList σ instances id !! j = instances !! j) ∧
      ((i < length instances - 1)%nat ->
         removeInstanceFromList σ instances id !! i = last instances)
  end.
Proof.
  destruct (list_find (hasID σ id) instances) as [[i l]|] eqn:Hf.
  - pose proof (removeInstanceFromList_Permutation _ _ _ _ _ Hf) as Hp.
    pose proof Hf as Hf'. apply list_find_Some in Hf' as (Hi & Hl & Hbefore).
    split_and!; try done.
    + apply Permutation_length in Hp. simpl in Hp. lia.
    + intros j Hj Hne. unfold removeInstanceFromList. rewrite Hf.
      destruct (last instances) as [lst|] eqn:El; [|done].
      rewrite lookup_take_lt by lia. by rewrite list_lookup_insert_ne.
    + intros Hlt. unfold removeInstanceFromList. rewrite Hf.
      destruct (last instances) as [lst|] eqn:El.
      * rewrite lookup_take_lt by lia. rewrite list_lookup_insert_eq; [done|].
        by eapply lookup_lt_Some.
      * apply last_None in El. subst. done.
  - apply list_find_None in Hf. rewrite Forall_forall in Hf. split; [done|].
    unfold removeInstanceFromList.
    destruct (list_find (hasID σ id) instances) as [[i l]|] eqn:Hf2; [|done].
    apply list_find_Some in Hf2 as (Hi & Hl & _). exfalso.
    eapply Hf; [|done]. by eapply list_elem_of_lookup_2.
Qed.

(** X2: [getShardMap] keeps, for each shard id, the last shard of that id in
    its input, and holds no two shards of one id. *)
Theorem getShardMap_last (shards : list Shard) (k : Z) :
  Lookup (getShardMap shards) k = last (filter (fun s => s_id s = k) shards) ∧
  NoDup (s_id <$> getShardMap shards).
Proof.
  split; [|apply getShardMap_wf].
  unfold getShardMap.
  assert (H : forall acc : list Shard,
            Lookup (foldl (fun r s => Add s r) acc shards) k =
            match last (filter (fun s => s_id s = k) shards) with
            | Some s => Some s
            | None => Lookup acc k
            end).
  { induction shards as [|s shards IH]; intros acc; cbn [foldl]; [done|].
    rewrite IH, filter_cons, Lookup_Add.
    destruct (decide (s_id s = k)) as [E|NE].
    - rewrite last_cons. by destruct (last (filter _ shards)).
    - done. }
  rewrite H. by destruct (last _).
Qed.

(** ** Choosing instances *)

(** X3: [mostUnderLoadedInstance] reports no instance exactly when no entry
    of [ph.instances] has a load gap (target load minus current load) above
    zero; the instance it reports is an entry whose gap is above zero and is
    the largest of all. *)
Theorem mostUnderLoadedInstance_spec (st : placementHelper * list Instance) :
  (mostUnderLoadedInstance st = None <->
     forall id l, (id, l) ∈ instances st.1 -> loadGap st id l <= 0) ∧
  (forall l, mostUnderLoadedInstance st = Some l ->
     exists id, (id, l) ∈ instances st.1 ∧ 0 < loadGap st id l ∧
       forall id' l', (id', l') ∈ instances st.1 -> loadGap st id' l' <= loadGap st id l).
Proof.
  unfold mostUnderLoadedInstance.
  set (f := fun '(res, maxLoadGap) '(id, instance) =>
              let loadGap :=
                i64 (default 0 (targetLoad st.1 !! id) - loadOnInstance st.2 instance) in
              if bool_decide (maxLoadGap < loadGap) then (Some instance, loadGap)
              else (res, maxLoadGap)).
  assert (Hf : forall res m id l,
             f (res, m) (id, l) =
             if bool_decide (m < loadGap st id l) then (Some l, loadGap st id l)
             else (res, m)) by reflexivity.
  assert (H : forall (ls : list (string * nat)) (res : option nat) (m : Z),
            0 <= m ->
            (m = 0 -> res = None) ->
            let r := foldl f (res, m) ls in
            m <= r.2 ∧ (r.2 = 0 -> r.1 = None) ∧
            (forall id l, (id, l) ∈ ls -> loadGap st id l <= r.2) ∧
            (m < r.2 -> exists id l, r.1 = Some l ∧ (id, l) ∈ ls ∧ loadGap st id l = r.2) ∧
            (r.2 = m -> r.1 = res)).
  { induction ls as [|[id l] ls IH]; intros res m Hm Hres; cbn [foldl].
    { simpl. split_and!; try done; try lia. by intros ? ? ?%elem_of_nil. }
    rewrite Hf.
    destruct (bool_decide (m < loadGap st id l)) eqn:B.
    - apply bool_decide_eq_true in B.
      destruct (IH (Some l) (loadGap st id l)) as (H1 & H2 & H3 & H4 & H5); [lia|lia|].
      split_and!.
      + lia.
      + done.
      + intros id' l' [[= -> ->]|Hin]%elem_of_cons; [done|by apply H3].
      + intros _. destruct (Z.eq_dec (foldl f (Some l, loadGap st id l) ls).2 (loadGap st id l))
          as [E|NE].
        * exists id, l. split_and!; [by apply H5|by left|done].
        * destruct H4 as (id' & l' & ? & ? & ?); [lia|]. exists id', l'.
          split_and!; [done|by right|done].
      + lia.
    - apply bool_decide_eq_false in B.
      destruct (IH res m Hm Hres) as (H1 & H2 & H3 & H4 & H5).
      split_and!; try done.
      + intros id' l' [[= -> ->]|Hin]%elem_of_cons; [lia|by apply H3].
      + intros Hlt. destruct (H4 Hlt) as (id' & l' & ? & ? & ?). exists id', l'.
        split_and!; [done|by right|done]. }
  destruct (H (instances st.1) None 0 ltac:(lia) ltac:(done)) as (H1 & H2 & H3 & H4 & H5).
  destruct (foldl f (None, 0) (instances st.1)) as [res m] eqn:E. simpl in *.
  destruct (bool_decide (0 < m)) eqn:B.
  - apply bool_decide_eq_true in B. destruct (H4 B) as (id & l & -> & Hin & Hg). split.
    + split; [done|]. intros Hall. specialize (Hall _ _ Hin). lia.
    + intros l' [= <-]. exists id. split_and!; [done|lia|]. intros id' l' Hin'.
      rewrite Hg. by apply H3.
  - apply bool_decide_eq_false in B. assert (m = 0) as -> by lia. split; [|done].
    split; [|done]. intros _. apply H3.
Qed.

Ltac decide_guard P :=
  destruct (decide P);
  [rewrite ?(bool_decide_eq_true_2 P) by assumption
  |rewrite ?(bool_decide_eq_false_2 P) by assumption].

(** X4: the order [Less] of the instance heap is a strict order: no entry is
    less than itself, two entries are never less than each other, and [Less]
    is transitive, as [container/heap] asks of it. *)
Theorem Less_strict_order (σ : list Instance) (h : instanceHeap) (i j k : nat) :
  Less σ h i i = false ∧
  (Less σ h i j = true -> Less σ h j i = false) ∧
  (Less σ h i j = true -> Less σ h j k = true -> Less σ h i k = true).
Proof.
  assert (Hirr : forall i, Less σ h i i = false).
  { intros i'. unfold Less. destruct (h_instances h !! i') as [a|]; [|done]. cbv zeta.
    rewrite (bool_decide_eq_true_2 (rackOf σ a = rackOf σ a)) by done.
    rewrite andb_false_r.
    destruct (h_capacityAscending h); apply bool_decide_eq_false; lia. }
  split; [apply Hirr|].
  unfold Less.
  destruct (h_instances h !! i) as [a|]; [|done].
  destruct (h_instances h !! j) as [b|]; [|done].
  cbv zeta.
  set (la := i64 (h_targetLoadForInstance h (idOf σ a) - loadOnInstance σ a)).
  set (lb := i64 (h_targetLoadForInstance h (idOf σ b) - loadOnInstance σ b)).
  set (wa := default 0 (h_rackToWeightMap h !! rackOf σ a)).
  set (wb := default 0 (h_rackToWeightMap h !! rackOf σ b)).
  assert (Hab : rackOf σ a = rackOf σ b -> wa = wb) by (unfold wa, wb; by intros ->).
  assert (Hba : rackOf σ b = rackOf σ a -> wa = wb) by (unfold wa, wb; by intros ->).
  split.
  - clearbody la lb wa wb.
    decide_guard (rackOf σ a = rackOf σ b); decide_guard (rackOf σ b = rackOf σ a);
      try congruence;
      decide_guard (0 < la); decide_guard (0 < lb); simpl;
      destruct (h_capacityAscending h);
      rewrite ?bool_decide_eq_true, ?bool_decide_eq_false; lia.
  - destruct (h_instances h !! k) as [c|]; [|by intros _ ?].
    set (lc := i64 (h_targetLoadForInstance h (idOf σ c) - loadOnInstance σ c)).
    set (wc := default 0 (h_rackToWeightMap h !! rackOf σ c)).
    assert (Hbc : rackOf σ b = rackOf σ c -> wb = wc) by (unfold wb, wc; by intros ->).
    assert (Hac : rackOf σ a = rackOf σ c -> wa = wc) by (unfold wa, wc; by intros ->).
    clearbody la lb lc wa wb wc.
    decide_guard (rackOf σ a = rackOf σ b); decide_guard (rackOf σ b = rackOf σ c);
      decide_guard (rackOf σ a = rackOf σ c); try congruence;
      decide_guard (0 < la); decide_guard (0 < lb); decide_guard (0 < lc); simpl;
      destruct (h_capacityAscending h);
      rewrite ?bool_decide_eq_true, ?bool_decide_eq_false;
      try specialize (Hab ltac:(assumption)); try specialize (Hbc ltac:(assumption));
      try specialize (Hac ltac:(assumption)); try lia; try done.
Qed.

(** X5: the heap operations neither lose nor duplicate an instance:
    [heap.Init] reorders the instances of the heap, [heap.Push] adds the
    pushed instance and nothing else, and [heap.Pop], on a heap that is not
    empty, returns one of its instances and leaves the others. *)
Theorem heap_keeps_instances (σ : list Instance) (h : instanceHeap) (x : nat) :
  h_instances (heap.Init σ h) ≡ₚ h_instances h ∧
  h_instances (heap.Push σ x h) ≡ₚ x :: h_instances h ∧
  (Len h ≠ 0%nat ->
     exists y h', heap.Pop σ h = (Some y, h') ∧ y :: h_instances h' ≡ₚ h_instances h ∧
                  Len h' = (Len h - 1)%nat) ∧
  (Len h = 0%nat -> (heap.Pop σ h).1 = None).
Proof.
  split_and!.
  - apply Init_contents.
  - apply heap_Push_contents.
  - intros Hn. destruct (heap_Pop_contents σ h Hn) as (y & h' & E & Hp).
    exists y, h'. split_and!; [done|done|].
    apply Permutation_length in Hp. unfold Len. simpl in Hp. lia.
  - intros Hn. unfold Len in Hn. apply length_zero_iff_nil in Hn.
    unfold heap.Pop, heap.down, Len, Pop. rewrite Hn. simpl.
    unfold Swap. rewrite Hn. simpl. by rewrite Hn.
Qed.

(** ** Moving one shard *)

Section move_one.
Implicit Types (st : placementHelper * list Instance) (s c : Shard).

Lemma moveShardsUntil_spec ss from to st moved st' :
  moveShardsUntil ss from to st = (moved, st') ->
  (moved = false ->
     st' = st ∧ forall c, c ∈ ss -> (moveShard c from to st).1 = false) ∧
  (moved = true ->
     exists pre c post,
       ss = pre ++ c :: post ∧
       (forall c', c' ∈ pre -> (moveShard c' from to st).1 = false) ∧
       moveShard c from to st = (true, st')).
Proof.
  induction ss as [|s ss IH]; cbn [moveShardsUntil].
  { intros [= <- <-]. split; [|done]. intros _. split; [done|]. by intros c ?%elem_of_nil. }
  destruct (moveShard s from to st) as [m st1] eqn:Hm. destruct m.
  - intros [= <- <-]. split; [done|]. intros _. exists [], s, ss.
    split_and!; [done| |done]. by intros c ?%elem_of_nil.
  - apply moveShard_false in Hm as Hf. destruct Hf as [-> _]. intros Hr.
    destruct (IH Hr) as [Hfalse Htrue]. split.
    + intros Hmv. destruct (Hfalse Hmv) as [-> Hall]. split; [done|].
      intros c [->|Hc]%elem_of_cons; [by rewrite Hm|by apply Hall].
    + intros Hmv. destruct (Htrue Hmv) as (pre & c & post & -> & Hpre & Hc).
      exists (s :: pre), c, post. split_and!; [done| |done].
      intros c' [->|Hc']%elem_of_cons; [by rewrite Hm|by apply Hpre].
Qed.

Lemma moveShard_Leaving_false c from to st :
  s_state c = Leaving -> (moveShard c from to st).1 = false.
Proof.
  intros Hl. apply not_true_iff_false. rewrite moveShard_moved. by intros [_ ?].
Qed.

Lemma moveOneShardInState_spec from to x st moved st' :
  moveOneShardInState from to x st = (moved, st') ->
  (moved = false ->
     st' = st ∧
     forall c, c ∈ shardsOf st.2 from -> s_state c = x ->
       (moveShard c (Some from) to st).1 = false) ∧
  (moved = true ->
     exists c, c ∈ shardsOf st.2 from ∧ s_state c = x ∧
               moveShard c (Some from) to st = (true, st')).
Proof.
  unfold moveOneShardInState, ShardsForState. intros Hr.
  destruct (moveShardsUntil_spec _ _ _ _ _ _ Hr) as [Hfalse Htrue]. split.
  - intros Hmv. destruct (Hfalse Hmv) as [-> Hall]. split; [done|].
    intros c Hc Hx. apply Hall. by apply list_elem_of_filter.
  - intros Hmv. destruct (Htrue Hmv) as (pre & c & post & E & _ & Hc).
    assert (Hin : c ∈ filter (fun s => s_state s = x) (shardsOf st.2 from)).
    { rewrite E. set_solver. }
    apply list_elem_of_filter in Hin as [? ?]. by exists c.
Qed.

End move_one.

(** X6: [moveOneShard] moves at most one shard, and the cheapest it can: when
    it returns false nothing has changed and no shard of [from] can be moved
    to [to]; when it returns true the new state is that of one successful
    [moveShard] of a shard of [from], and no shard of [from] in a cheaper
    state (Unknown before Initializing before Available) can be moved. *)
Theorem moveOneShard_cheapest (from to : nat) (st : placementHelper * list Instance) :
  let r := moveOneShard from to st in
  (r.1 = false ->
     r.2 = st ∧
     forall c, c ∈ shardsOf st.2 from -> (moveShard c (Some from) to st).1 = false) ∧
  (r.1 = true ->
     exists c, c ∈ shardsOf st.2 from ∧ moveShard c (Some from) to st = (true, r.2) ∧
       forall c', c' ∈ shardsOf st.2 from ->
         (stateCost (s_state c') < stateCost (s_state c))%nat ->
         (moveShard c' (Some from) to st).1 = false).
Proof.
  cbv zeta. unfold moveOneShard.
  destruct (moveOneShardInState from to Unknown st) as [m1 st1] eqn:H1.
  destruct (moveOneShardInState_spec _ _ _ _ _ _ H1) as [F1 T1].
  destruct m1; simpl.
  { split; [done|]. intros _. destruct T1 as (c & Hc & Hx & Hm); [done|].
    exists c. split_and!; [done|done|]. intros c' _ Hlt. rewrite Hx in Hlt. simpl in Hlt. lia. }
  destruct F1 as [-> F1]; [done|]. clear T1 H1.
  destruct (moveOneShardInState from to Initializing st) as [m2 st2] eqn:H2.
  destruct (moveOneShardInState_spec _ _ _ _ _ _ H2) as [F2 T2].
  destruct m2; simpl.
  { split; [done|]. intros _. destruct T2 as (c & Hc & Hx & Hm); [done|].
    exists c. split_and!; [done|done|]. intros c' Hc' Hlt. rewrite Hx in Hlt.
    apply F1; [done|]. destruct (s_state c'); simpl in Hlt; try done; lia. }
  destruct F2 as [-> F2]; [done|]. clear T2 H2.
  destruct (moveOneShardInState from to Available st) as [m3 st3] eqn:H3.
  destruct (moveOneShardInState_spec _ _ _ _ _ _ H3) as [F3 T3].
  destruct m3; simpl.
  - split; [done|]. intros _. destruct T3 as (c & Hc & Hx & Hm); [done|].
    exists c. split_and!; [done|done|]. intros c' Hc' Hlt. rewrite Hx in Hlt.
    destruct (s_state c') eqn:E; simpl in Hlt; try lia; [by apply F1|by apply F2].
  - split; [|done]. intros _. destruct F3 as [-> F3]; [done|]. split; [done|].
    intros c Hc. destruct (s_state c) eqn:E;
      [by apply F1|by apply F2|by apply F3|by apply moveShard_Leaving_false].
Qed.

(** ** Replicas *)

Section replicas.
Implicit Types (st : placementHelper * list Instance) (s c : Shard) (σ : list Instance).

Lemma ownsb_true σ l k : ownsb σ l k = true <-> nonLeavingOwner σ l k.
Proof.
  unfold ownsb, nonLeavingOwner. destruct (Lookup (shardsOf σ l) k) as [s|].
  - rewrite negb_true_iff, bool_decide_eq_false. split; [eauto|].
    by intros (s' & [= <-] & ?).
  - split; [done|]. by intros (s' & ? & _).
Qed.

Lemma elem_of_replicas σ l k : l ∈ replicas σ k <-> nonLeavingOwner σ l k.
Proof.
  unfold replicas. rewrite list_elem_of_filter, ownsb_true, elem_of_seq. split; [tauto|].
  intros H. split; [done|]. destruct H as (s & Hs & _).
  apply Lookup_Some_elem in Hs. unfold shardsOf in Hs.
  destruct (σ !! l) eqn:E; [|by apply elem_of_nil in Hs].
  apply lookup_lt_Some in E. lia.
Qed.

Lemma filter_ext_in {A} (P Q : A -> Prop) `{!forall x, Decision (P x)}
    `{!forall x, Decision (Q x)} (l : list A) :
  (forall x, x ∈ l -> (P x <-> Q x)) -> filter P l = filter Q l.
Proof.
  induction l as [|x l IH]; intros Hext; [done|]. rewrite !filter_cons.
  rewrite IH by (intros y Hy; apply Hext; by right).
  assert (Hx : P x <-> Q x) by (apply Hext; by left).
  destruct (decide (P x)) as [HP|HP], (decide (Q x)) as [HQ|HQ]; try done; tauto.
Qed.

Lemma NoDup_replicas σ k : NoDup (replicas σ k).
Proof. apply NoDup_filter, NoDup_seq. Qed.

Lemma sameAttrs_length σ σ' : sameAttrs σ σ' -> length σ' = length σ.
Proof.
  intros Ha. destruct (Nat.lt_trichotomy (length σ') (length σ)) as [Hlt|[?|Hgt]]; [|done|].
  - destruct (Ha (length σ')) as (_ & _ & _ & [_ H]).
    destruct H as [x Hx]; [by apply lookup_lt_is_Some|].
    apply lookup_lt_Some in Hx. lia.
  - destruct (Ha (length σ)) as (_ & _ & _ & [H _]).
    destruct H as [x Hx]; [by apply lookup_lt_is_Some|].
    apply lookup_lt_Some in Hx. lia.
Qed.

(** Who holds what after a successful move from [f] to [to]. *)
Lemma moveShard_owners c f to st st' :
  candidateOn st.2 c (Some f) -> is_Some (st.2 !! to) ->
  moveShard c (Some f) to st = (true, st') ->
  nonLeavingOwner st.2 f (s_id c) ∧ ¬ nonLeavingOwner st.2 to (s_id c) ∧ f ≠ to ∧
  forall l k, nonLeavingOwner st'.2 l k <->
    (k = s_id c ∧ l = to) ∨ (nonLeavingOwner st.2 l k ∧ ¬ (k = s_id c ∧ l = f)).
Proof.
  destruct st as [ph σ], st' as [ph' σ']. simpl. intros Hc Hv Hm.
  assert (Hne : Some f ≠ Some to).
  { intros [= ->]. pose proof (moveShard_not_onto_from c to ph σ Hc) as HN.
    rewrite Hm in HN. done. }
  assert (Hmoved : (moveShard c (Some f) to (ph, σ)).1 = true) by (by rewrite Hm).
  apply moveShard_moved in Hmoved as [Hcan HcL]. simpl in Hcan.
  apply canAssignInstance_iff in Hcan as [Hto _].
  destruct (moveShard_true_effect _ _ _ _ _ _ _ Hm Hne) as (_ & _ & _ & _ & HL).
  split_and!.
  - exists c. split; [by apply Hc|done].
  - intros (s & Hs & HnL). destruct Hto as [E|(s' & E & ?)]; congruence.
  - congruence.
  - intros l k. split.
    + intros Hown. destruct (moveShard_owner_after _ _ _ _ _ _ _ Hm Hne _ _ Hown)
        as [?|[? Hn]]; [by left|right]. split; [done|]. intros [-> ->]. by apply Hn.
    + intros [[-> ->]|[(s & Hs & HnL) Hn]].
      * eapply (moveShard_arrived c (Some f) to (ph, σ) (ph', σ')); done.
      * unfold nonLeavingOwner. rewrite HL.
        destruct (decide (k = s_id c)) as [->|NEk]; [|by exists s].
        destruct (decide (l = to ∧ _)) as [[-> _]|_].
        { exfalso. destruct Hto as [E|(s' & E & ?)]; congruence. }
        rewrite decide_False by (intros [= ->]; by apply Hn).
        destruct (decide (_ ∧ _)).
        -- exists (unlink (idOf σ to) s). rewrite Hs. split; [done|].
           by rewrite unlink_state.
        -- by exists s.
Qed.

End replicas.

(** X7: a successful [moveShard] from an instance hands exactly one replica
    over: [from] held the shard in a state other than Leaving and no longer
    does, [to] did not and now does, no other instance gains or loses a
    replica of any shard, and every shard keeps its number of replicas. *)
Theorem moveShard_conserves_replicas
    (c : Shard) (f to : nat) (st st' : placementHelper * list Instance) :
  candidateOn st.2 c (Some f) -> is_Some (st.2 !! to) ->
  moveShard c (Some f) to st = (true, st') ->
  f ∈ replicas st.2 (s_id c) ∧ (to ∉ replicas st.2 (s_id c)) ∧
  replicas st'.2 (s_id c) ≡ₚ (to :: filter (fun l => l ≠ f) (replicas st.2 (s_id c))) ∧
  (forall k, k ≠ s_id c -> replicas st'.2 k = replicas st.2 k) ∧
  (forall k, length (replicas st'.2 k) = length (replicas st.2 k)).
Proof.
  intros Hc Hv Hm.
  destruct (moveShard_owners _ _ _ _ _ Hc Hv Hm) as (Hf & Hto & Hne & Hown).
  destruct (moveShard_preserves _ _ _ _ _ _ Hc Hm) as (Ha & _ & _ & HL).
  pose proof (sameAttrs_length _ _ Ha) as Hlen.
  assert (H1 : f ∈ replicas st.2 (s_id c)) by (by apply elem_of_replicas).
  assert (H2 : to ∉ replicas st.2 (s_id c)) by (by rewrite elem_of_replicas).
  assert (H3 : replicas st'.2 (s_id c)
               ≡ₚ to :: filter (fun l => l ≠ f) (replicas st.2 (s_id c))).
  { apply NoDup_Permutation.
    - apply NoDup_replicas.
    - apply NoDup_cons. split; [|apply NoDup_filter, NoDup_replicas].
      rewrite list_elem_of_filter. tauto.
    - intros l. rewrite elem_of_cons, list_elem_of_filter, !elem_of_replicas, Hown.
      split.
      + intros [[_ ->]|[? Hn]]; [by left|right]. split; [|done]. intros ->. by apply Hn.
      + intros [->|[? ?]]; [by left|right]. split; [done|]. by intros [_ ->]. }
  assert (H4 : forall k, k ≠ s_id c -> replicas st'.2 k = replicas st.2 k).
  { intros k Hk. unfold replicas. rewrite Hlen. apply filter_ext_in.
    intros l _. unfold ownsb. by rewrite HL. }
  split_and!; try done.
  intros k. destruct (decide (k = s_id c)) as [->|Hk]; [|by rewrite H4].
  rewrite H3. simpl.
  assert (H5 : replicas st.2 (s_id c) ≡ₚ f :: filter (fun l => l ≠ f) (replicas st.2 (s_id c))).
  { apply NoDup_Permutation.
    - apply NoDup_replicas.
    - apply NoDup_cons. split; [|apply NoDup_filter, NoDup_replicas].
      rewrite list_elem_of_filter. tauto.
    - intros l. rewrite elem_of_cons, list_elem_of_filter.
      destruct (decide (l = f)) as [->|]; [tauto|]. tauto. }
  rewrite H5 at 2. done.
Qed.

Lemma moveShard_conserves_replicas_witness :
  let st := (examples.reclaim_ph, examples.reclaim_store) in
  let c := mkShard 1 Initializing "a" 0 0 in
  let r := moveShard c (Some 1%nat) 0%nat st in
  r.1 = true ∧ replicas st.2 1 = [1%nat; 2%nat] ∧
  length (replicas r.2.2 1) = 2%nat.
Proof.
  intros st c r.
  assert (Hc : candidateOn st.2 c (Some 1%nat)) by (intros f [= <-]; reflexivity).
  assert (Hv : is_Some (st.2 !! 0%nat)) by (by eexists).
  assert (Hm : moveShard c (Some 1%nat) 0%nat st = (true, r.2)) by reflexivity.
  destruct (moveShard_conserves_replicas c 1%nat 0%nat st r.2 Hc Hv Hm)
    as (_ & _ & _ & _ & Hlen).
  split; [reflexivity|]. split; [reflexivity|]. rewrite (Hlen 1). reflexivity.
Defined.

(** ** Returning the Initializing shards of an instance *)

(** X8: [ReturnInitializingShards i] hands back every shard of [i] that it
    can: a shard of [i] that is Initializing, with a source id that names a
    non-leaving instance of the helper, is afterwards owned by that source in a
    state other than Leaving, or is still on [i], unchanged, because the
    source refuses it; every other shard of [i] is still on [i], unchanged. *)
Theorem ReturnInitializingShards_spec (i : nat) (st : placementHelper * list Instance) :
  wfStore st.2 ->
  (forall l, l ∈ Instances st.1 -> is_Some (st.2 !! l)) ->
  let st' := ReturnInitializingShards i st in
  let cm := candidateMapOf st.2 (Instances st.1) in
  forall s, s ∈ shardsOf st.2 i ->
    (forall src, returnable cm st.2 s src ->
       src ∈ Instances st.1 ∧ idOf st.2 src = s_sourceID s ∧
       (nonLeavingOwner st'.2 src (s_id s) ∨
        (Lookup (shardsOf st'.2 i) (s_id s) = Some s ∧
         canAssignInstance st'.1 st'.2 (s_id s) (Some i) src = false))) ∧
    ((forall src, ¬ returnable cm st.2 s src) ->
       Lookup (shardsOf st'.2 i) (s_id s) = Some s).
Proof.
  intros Hw Hv st' cm s Hs.
  assert (Hws : getShardMap (All (shardsOf st.2 i)) = shardsOf st.2 i).
  { apply getShardMap_NoDup. apply Hw. }
  assert (Est : st' = (foldl (returnStep cm i) (shardsOf st.2 i, st) (shardsOf st.2 i)).2).
  { unfold st', ReturnInitializingShards, returnInitializingShardsToSource. by rewrite Hws. }
  clearbody st'. subst st'.
  assert (Hcm : forall id x, cm !! id = Some x -> is_Some (st.2 !! x)).
  { intros id x Hx. by apply Hv, (candidateMapOf_lookup st.2 _ id). }
  assert (Hc : forall s, s ∈ shardsOf st.2 i -> candidateOn st.2 s (Some i)).
  { intros s' Hs'. by apply candidateOn_elem. }
  destruct (returnStep_moves cm i (shardsOf st.2 i) (shardsOf st.2 i) st)
    as (_ & _ & Hsub); [apply Hw|done|apply Hw|done|].
  destruct (return_fold cm i (shardsOf st.2 i) (shardsOf st.2 i) st)
    as (_ & _ & _ & Hkeep & Href); [done|done|apply Hw|done|apply Hw|done|].
  set (r := foldl (returnStep cm i) (shardsOf st.2 i, st) (shardsOf st.2 i)) in *.
  split.
  - intros src Hrt. pose proof Hrt as (_ & _ & Hlook & _).
    destruct (candidateMapOf_lookup _ _ _ _ Hlook) as [Hin Hid]. split_and!; [done|done|].
    destruct (Hkeep s Hs) as [Hr|(_ & src' & Hrt' & Hown)].
    + right. split; [|by apply Href]. destruct (Hsub s Hr) as [_ Hcand]. by apply Hcand.
    + left. destruct Hrt' as (_ & _ & Hlook' & _). congruence.
  - intros Hno. destruct (Hkeep s Hs) as [Hr|(_ & src' & Hrt' & _)].
    + destruct (Hsub s Hr) as [_ Hcand]. by apply Hcand.
    + by destruct (Hno src').
Qed.

Lemma ReturnInitializingShards_spec_witness :
  let st := (examples.moveout_ph, examples.moveout_store) in
  let st' := ReturnInitializingShards 1 st in
  wfStore st.2 ∧
  nonLeavingOwner st'.2 0 1 ∧
  Lookup (shardsOf st'.2 1) 2 = Some (mkShard 2 Available "" 0 0).
Proof.
  intros st st'.
  assert (Hw : wfStore st.2) by (apply wfStoreb_sound; vm_compute; reflexivity).
  assert (Hv : forall l, l ∈ Instances st.1 -> is_Some (st.2 !! l)).
  { intros l Hl. vm_compute in Hl.
    apply elem_of_cons in Hl as [->|Hl]; [by eexists|].
    apply elem_of_cons in Hl as [->|Hl]; [by eexists|].
    apply elem_of_cons in Hl as [->|Hl]; [by eexists|].
    by apply elem_of_nil in Hl. }
  split; [exact Hw|].
  destruct (ReturnInitializingShards_spec 1 st Hw Hv (mkShard 1 Initializing "a" 0 0))
    as [H1 _]; [left|].
  destruct (ReturnInitializingShards_spec 1 st Hw Hv (mkShard 2 Available "" 0 0))
    as [_ H2]; [right; left|].
  split.
  - destruct (H1 0%nat) as (_ & _ & [Hown|[Hl _]]).
    + split_and!; [reflexivity|discriminate|reflexivity|reflexivity].
    + exact Hown.
    + vm_compute in Hl. discriminate Hl.
  - apply H2. intros src (Hst & _). discriminate Hst.
Defined.

(** * Loads, and the termination of the balancing loops *)

Section loads.
Implicit Types (st : placementHelper * list Instance) (s c : Shard) (σ : list Instance).

Lemma ids_filter_elem (P : Shard -> Prop) `{!forall s, Decision (P s)} (ss : list Shard) k :
  wfShards ss ->
  k ∈ s_id <$> filter P ss <-> exists s, Lookup ss k = Some s ∧ P s.
Proof.
  intros Hw. rewrite list_elem_of_fmap. split.
  - intros (s & -> & [HP Hs]%list_elem_of_filter). exists s. split; [|done].
    by apply Lookup_elem.
  - intros (s & Hs & HP). exists s. split; [symmetry; by eapply Lookup_Some_id|].
    apply list_elem_of_filter. split; [done|]. by eapply Lookup_Some_elem.
Qed.

Lemma ids_filter_NoDup (P : Shard -> Prop) `{!forall s, Decision (P s)} (ss : list Shard) :
  wfShards ss -> NoDup (s_id <$> filter P ss).
Proof.
  unfold wfShards. induction ss as [|x ss IH]; csimpl; [done|].
  rewrite NoDup_cons. intros [Hx HN]. rewrite filter_cons.
  destruct (decide (P x)); csimpl; [|by apply IH].
  apply NoDup_cons. split; [|by apply IH].
  intros (s & E & [_ Hs]%list_elem_of_filter)%list_elem_of_fmap.
  apply Hx. rewrite E. by apply list_elem_of_fmap_2.
Qed.

Lemma loadN_ids σ l :
  loadN σ l = length (s_id <$> filter (fun s => s_state s ≠ Leaving) (shardsOf σ l)).
Proof. unfold loadN. by rewrite length_fmap. Qed.

Lemma elem_of_load_ids σ l k :
  wfStore σ ->
  k ∈ s_id <$> filter (fun s => s_state s ≠ Leaving) (shardsOf σ l) <-> nonLeavingOwner σ l k.
Proof. intros Hw. rewrite ids_filter_elem by apply Hw. done. Qed.

Lemma loadOnInstance_loadN σ l : loadOnInstance σ l = Z.of_nat (loadN σ l).
Proof.
  unfold loadOnInstance, loadN, NumShards, NumShardsForState, ShardsForState.
  induction (shardsOf σ l) as [|x ss IH]; [done|].
  rewrite !filter_cons. destruct (decide (s_state x = Leaving)) as [E|NE].
  - rewrite decide_False by (intros ?; done). simpl length. lia.
  - rewrite decide_True by done. simpl length. lia.
Qed.

(** How a successful move changes the loads. *)
Lemma moveShard_loadN c f to st st' :
  wfStore st.2 -> candidateOn st.2 c (Some f) -> is_Some (st.2 !! to) ->
  moveShard c (Some f) to st = (true, st') ->
  f ≠ to ∧ S (loadN st'.2 f) = loadN st.2 f ∧ loadN st'.2 to = S (loadN st.2 to) ∧
  (forall l, l ≠ f -> l ≠ to -> loadN st'.2 l = loadN st.2 l).
Proof.
  intros Hw Hc Hv Hm.
  destruct (moveShard_owners _ _ _ _ _ Hc Hv Hm) as (Hf & Hto & Hne & Hown).
  destruct (moveShard_preserves _ _ _ _ _ _ Hc Hm) as (_ & _ & Hw' & _).
  specialize (Hw' Hw).
  split; [done|]. rewrite !loadN_ids. split_and!.
  - assert (Hp : s_id <$> filter (fun s => s_state s ≠ Leaving) (shardsOf st.2 f)
                 ≡ₚ s_id c :: (s_id <$> filter (fun s => s_state s ≠ Leaving) (shardsOf st'.2 f))).
    { apply NoDup_Permutation.
      - apply ids_filter_NoDup, Hw.
      - apply NoDup_cons. split; [|apply ids_filter_NoDup, Hw'].
        rewrite elem_of_load_ids, Hown by done. intros [[_ ?]|[_ Hn]]; [done|]. by apply Hn.
      - intros k. rewrite elem_of_cons, !elem_of_load_ids, Hown by done.
        destruct (decide (k = s_id c)) as [->|NE]; [by split; [left|]|].
        split; [intros ?; right; right; split; [done|by intros [? _]]|].
        intros [?|[[? _]|[? _]]]; done. }
    rewrite Hp. done.
  - assert (Hp : s_id <$> filter (fun s => s_state s ≠ Leaving) (shardsOf st'.2 to)
                 ≡ₚ s_id c :: (s_id <$> filter (fun s => s_state s ≠ Leaving) (shardsOf st.2 to))).
    { apply NoDup_Permutation.
      - apply ids_filter_NoDup, Hw'.
      - apply NoDup_cons. split; [|apply ids_filter_NoDup, Hw].
        by rewrite elem_of_load_ids.
      - intros k. rewrite elem_of_cons, !elem_of_load_ids, Hown by done.
        split.
        + intros [[-> _]|[? _]]; [by left|by right].
        + intros [->|?]; [by left|right]. split; [done|]. intros [_ ?]. done. }
    rewrite Hp. done.
  - intros l Hlf Hlt. rewrite !loadN_ids. apply Permutation_length. apply NoDup_Permutation.
    + apply ids_filter_NoDup, Hw'.
    + apply ids_filter_NoDup, Hw.
    + intros k. rewrite !elem_of_load_ids, Hown by done. split.
      * intros [[_ ?]|[? _]]; done.
      * intros ?. right. split; [done|]. by intros [_ ?].
Qed.

End loads.

(** X9: a successful [moveShard] from [from] to [to] lowers the load of
    [from] by one, raises the load of [to] by one and leaves the load of every
    other instance as it is, the load being what [loadOnInstance] computes. *)
Theorem moveShard_loads
    (c : Shard) (f to : nat) (st st' : placementHelper * list Instance) :
  wfStore st.2 -> candidateOn st.2 c (Some f) -> is_Some (st.2 !! to) ->
  moveShard c (Some f) to st = (true, st') ->
  loadOnInstance st'.2 f = loadOnInstance st.2 f - 1 ∧
  loadOnInstance st'.2 to = loadOnInstance st.2 to + 1 ∧
  (forall l, l ≠ f -> l ≠ to -> loadOnInstance st'.2 l = loadOnInstance st.2 l) ∧
  0 < loadOnInstance st.2 f.
Proof.
  intros Hw Hc Hv Hm.
  destruct (moveShard_loadN _ _ _ _ _ Hw Hc Hv Hm) as (_ & H1 & H2 & H3).
  rewrite !loadOnInstance_loadN. split_and!; try lia.
  intros l Hf Ht. rewrite !loadOnInstance_loadN. by rewrite H3.
Qed.

Lemma moveShard_loads_witness :
  let st := (examples.reclaim_ph, examples.reclaim_store) in
  let c := mkShard 1 Initializing "a" 0 0 in
  let r := moveShard c (Some 1%nat) 0%nat st in
  r.1 = true ∧ loadOnInstance st.2 1 = 1 ∧ loadOnInstance r.2.2 1 = 0 ∧
  loadOnInstance r.2.2 0 = 1.
Proof.
  intros st c r.
  assert (Hw : wfStore st.2) by (apply wfStoreb_sound; vm_compute; reflexivity).
  assert (Hc : candidateOn st.2 c (Some 1%nat)) by (intros f [= <-]; reflexivity).
  assert (Hv : is_Some (st.2 !! 0%nat)) by (by eexists).
  assert (Hm : moveShard c (Some 1%nat) 0%nat st = (true, r.2)) by reflexivity.
  destruct (moveShard_loads c 1%nat 0%nat st r.2 Hw Hc Hv Hm) as (H1 & H2 & _ & _).
  split; [reflexivity|]. split; [reflexivity|]. split; [rewrite H1|rewrite H2]; reflexivity.
Defined.

(** ** Sequences of hand-offs *)

Section handoffs.
Implicit Types (st : placementHelper * list Instance) (s c : Shard) (σ : list Instance).

Lemma handoffs_trans st1 st2 st3 : handoffs st1 st2 -> handoffs st2 st3 -> handoffs st1 st3.
Proof. induction 1; [done|]. intros. eapply handoffs_step; eauto. Qed.

Lemma handoffs_single c f to st moved st' :
  candidateOn st.2 c (Some f) -> is_Some (st.2 !! to) ->
  moveShard c (Some f) to st = (moved, st') -> handoffs st st'.
Proof. intros. eapply handoffs_step; [done|done|done|apply handoffs_refl]. Qed.

Lemma handoffs_moves st st' : handoffs st st' -> moves st st'.
Proof. induction 1; [apply moves_refl|]. by eapply moves_step. Qed.

Lemma handoffs_wfStore st st' : wfStore st.2 -> handoffs st st' -> wfStore st'.2.
Proof. intros Hw H. eapply moves_wfStore; [done|]. by apply handoffs_moves. Qed.

Lemma handoffs_valid st st' l :
  handoffs st st' -> is_Some (st.2 !! l) <-> is_Some (st'.2 !! l).
Proof.
  intros H. apply handoffs_moves, moves_preserves in H as (Ha & _).
  destruct (Ha l) as (_ & _ & _ & ?). tauto.
Qed.

Lemma handoffs_Instances st st' : handoffs st st' -> Instances st'.1 = Instances st.1.
Proof.
  intros H. apply handoffs_moves, moves_preserves in H as (_ & Hc & _).
  unfold Instances. destruct Hc as (_ & _ & _ & _ & _ & _ & -> & _). done.
Qed.

Lemma handoffs_idOf st st' l : handoffs st st' -> idOf st'.2 l = idOf st.2 l.
Proof.
  intros H. apply handoffs_moves, moves_preserves in H as (Ha & _).
  by destruct (Ha l) as (? & _).
Qed.

Lemma handoffs_targetLoad st st' : handoffs st st' -> targetLoad st'.1 = targetLoad st.1.
Proof.
  intros H. apply handoffs_moves, moves_preserves in H as (_ & Hc & _).
  by destruct Hc as (? & _).
Qed.

Lemma handoffs_validLocs st st' ls :
  handoffs st st' -> validLocs st.2 ls -> validLocs st'.2 ls.
Proof. intros H Hv l Hl. apply (handoffs_valid _ _ l H). by apply Hv. Qed.

Lemma mover_moveOneShardInState x :
  mover (fun from to => moveOneShardInState from to x).
Proof.
  intros f to st moved st' Hw. unfold moveOneShardInState.
  intros Hr. apply moveShardsUntil_spec in Hr as [HF HT]. split; [by intros [? _]%HF|].
  intros (pre & c & post & E & _ & Hm)%HT. exists c. split; [|done].
  apply candidateOn_elem; [done|].
  assert (Hin : c ∈ ShardsForState x (shardsOf st.2 f)) by (rewrite E; set_solver).
  unfold ShardsForState in Hin. by apply list_elem_of_filter in Hin as [_ ?].
Qed.

Lemma mover_moveOneShard : mover (fun from to => moveOneShard from to).
Proof.
  intros f to st moved st' Hw. unfold moveOneShard.
  destruct (moveOneShardInState f to Unknown st) as [m1 st1] eqn:H1.
  apply (mover_moveOneShardInState Unknown) in H1 as [F1 T1]; [|done].
  destruct m1; [intros [= <- <-]; split; [done|auto]|].
  rewrite F1 by done. clear F1 T1 st1.
  destruct (moveOneShardInState f to Initializing st) as [m2 st2] eqn:H2.
  apply (mover_moveOneShardInState Initializing) in H2 as [F2 T2]; [|done].
  destruct m2; [intros [= <- <-]; split; [done|auto]|].
  rewrite F2 by done. clear F2 T2 st2.
  intros H3. by apply (mover_moveOneShardInState Available) in H3.
Qed.

(** *** What a hand-off leaves as it is *)

Lemma sum_list_with_ext_in {A} (g g' : A -> nat) (l : list A) :
  (forall x, x ∈ l -> g x = g' x) -> sum_list_with g l = sum_list_with g' l.
Proof.
  induction l as [|x l IH]; intros H; [done|]. simpl.
  rewrite IH by (intros y Hy; apply H; by right). f_equal. apply H. by left.
Qed.

Lemma sum_list_with_bump {A} `{!EqDecision A} (g g' : A -> nat) (l : list A) (a : A) :
  NoDup l -> a ∈ l -> g a = S (g' a) -> (forall x, x ≠ a -> g x = g' x) ->
  sum_list_with g l = S (sum_list_with g' l).
Proof.
  intros HN Ha Hg Hother. induction l as [|x l IH]; [by apply elem_of_nil in Ha|].
  apply NoDup_cons in HN as [Hx HN]. simpl.
  destruct (decide (x = a)) as [->|NE].
  - rewrite Hg. rewrite (sum_list_with_ext_in g g' l); [lia|].
    intros y Hy. apply Hother. intros ->. done.
  - rewrite (Hother x NE). apply elem_of_cons in Ha as [->|Ha]; [done|].
    rewrite IH by done. lia.
Qed.

Lemma loadN_valid σ l : (0 < loadN σ l)%nat -> (l < length σ)%nat.
Proof.
  unfold loadN, shardsOf. intros H. destruct (σ !! l) eqn:E.
  - by apply lookup_lt_Some in E.
  - simpl in H. lia.
Qed.

Lemma moveShard_totalLoad c f to st st' :
  wfStore st.2 -> candidateOn st.2 c (Some f) -> is_Some (st.2 !! to) ->
  moveShard c (Some f) to st = (true, st') ->
  totalLoad st'.2 = totalLoad st.2 ∧ S (loadElsewhere st'.2 to) = loadElsewhere st.2 to.
Proof.
  intros Hw Hc Hv Hm.
  destruct (moveShard_loadN _ _ _ _ _ Hw Hc Hv Hm) as (Hne & H1 & H2 & H3).
  destruct (moveShard_preserves _ _ _ _ _ _ Hc Hm) as (Ha & _ & _ & _).
  pose proof (sameAttrs_length _ _ Ha) as Hlen.
  assert (Hf : f ∈ seq 0 (length st.2)).
  { apply elem_of_seq. split; [lia|]. simpl. apply loadN_valid. lia. }
  assert (Hto : to ∈ seq 0 (length st.2)).
  { apply elem_of_seq. split; [lia|]. simpl. destruct Hv as [i Hi].
    by apply lookup_lt_Some in Hi. }
  unfold totalLoad, loadElsewhere. rewrite Hlen. split.
  - set (g := fun l => if decide (l = f) then loadN st'.2 f else loadN st.2 l).
    rewrite (sum_list_with_bump (loadN st.2) g _ f); [|apply NoDup_seq|done| |].
    + apply (sum_list_with_bump (loadN st'.2) g _ to); [apply NoDup_seq|done| |].
      * unfold g. by rewrite decide_False.
      * intros x Hx. unfold g. destruct (decide (x = f)) as [->|]; [done|]. by apply H3.
    + unfold g. by rewrite decide_True.
    + intros x Hx. unfold g. by rewrite decide_False.
  - symmetry. apply (sum_list_with_bump _ _ _ f); [apply NoDup_seq|done| |].
    + by rewrite !decide_False.
    + intros x Hx. destruct (decide (x = to)); [done|]. symmetry. by apply H3.
Qed.

Lemma moveShard_replicas_length c f to st st' k :
  candidateOn st.2 c (Some f) -> is_Some (st.2 !! to) ->
  moveShard c (Some f) to st = (true, st') ->
  length (replicas st'.2 k) = length (replicas st.2 k).
Proof.
  intros Hc Hv Hm.
  destruct (moveShard_owners _ _ _ _ _ Hc Hv Hm) as (Hf & Hto & Hne & Hown).
  destruct (moveShard_preserves _ _ _ _ _ _ Hc Hm) as (Ha & _ & _ & HL).
  pose proof (sameAttrs_length _ _ Ha) as Hlen.
  destruct (decide (k = s_id c)) as [->|Hk].
  2:{ f_equal. unfold replicas. rewrite Hlen. apply filter_ext_in.
      intros l _. unfold ownsb. by rewrite HL. }
  assert (H3 : replicas st'.2 (s_id c)
               ≡ₚ to :: filter (fun l => l ≠ f) (replicas st.2 (s_id c))).
  { apply NoDup_Permutation.
    - apply NoDup_replicas.
    - apply NoDup_cons. split; [|apply NoDup_filter, NoDup_replicas].
      rewrite list_elem_of_filter, elem_of_replicas. tauto.
    - intros l. rewrite elem_of_cons, list_elem_of_filter, !elem_of_replicas, Hown.
      split.
      + intros [[_ ->]|[? Hn]]; [by left|right]. split; [|done]. intros ->. by apply Hn.
      + intros [->|[? ?]]; [by left|right]. split; [done|]. by intros [_ ->]. }
  assert (H5 : replicas st.2 (s_id c)
               ≡ₚ f :: filter (fun l => l ≠ f) (replicas st.2 (s_id c))).
  { apply NoDup_Permutation.
    - apply NoDup_replicas.
    - apply NoDup_cons. split; [|apply NoDup_filter, NoDup_replicas].
      rewrite list_elem_of_filter. tauto.
    - intros l. rewrite elem_of_cons, list_elem_of_filter, elem_of_replicas.
      destruct (decide (l = f)) as [->|]; tauto. }
  rewrite H3. rewrite H5 at 2. done.
Qed.

Lemma handoffs_conserve st st' :
  wfStore st.2 -> handoffs st st' ->
  totalLoad st'.2 = totalLoad st.2 ∧
  forall k, length (replicas st'.2 k) = length (replicas st.2 k).
Proof.
  intros Hw H. induction H as [st|c f to st moved st1 st2 Hc Hv Hm Hh IH]; [done|].
  destruct moved.
  - destruct (moveShard_totalLoad _ _ _ _ _ Hw Hc Hv Hm) as [Ht _].
    destruct IH as [IH1 IH2].
    { eapply handoffs_wfStore; [done|]. by eapply handoffs_single. }
    split; [congruence|]. intros k. rewrite IH2.
    by eapply moveShard_replicas_length.
  - apply moveShard_false in Hm as [-> _]. by apply IH.
Qed.

End handoffs.

(** ** The loop of [assignTargetLoad] *)

Section assign.
Implicit Types (st : placementHelper * list Instance) (s c : Shard) (σ : list Instance)
  (h : instanceHeap).

Lemma elem_of_ids_Lookup (ss : list Shard) k : k ∈ s_id <$> ss <-> is_Some (Lookup ss k).
Proof.
  split.
  - intros (s & -> & Hs)%list_elem_of_fmap.
    destruct (Lookup ss (s_id s)) eqn:E; [done|].
    rewrite Lookup_None in E. by destruct (E s Hs).
  - intros [s Hs]. apply list_elem_of_fmap. exists s.
    split; [symmetry; by eapply Lookup_Some_id|by eapply Lookup_Some_elem].
Qed.

(** A successful move adds at most one shard to the set of its target, and
    removes none. *)
Lemma moveShard_NumShards_to c f to st st' :
  wfStore st.2 -> candidateOn st.2 c (Some f) -> is_Some (st.2 !! to) ->
  moveShard c (Some f) to st = (true, st') ->
  NumShards (shardsOf st.2 to) ≤ NumShards (shardsOf st'.2 to) ≤
    NumShards (shardsOf st.2 to) + 1.
Proof.
  intros Hw Hc Hv Hm.
  destruct (moveShard_preserves _ _ _ _ _ _ Hc Hm) as (_ & _ & Hw' & HL).
  specialize (Hw' Hw).
  pose proof (moveShard_arrived _ _ _ _ _ Hc Hv Hm) as (s & Hs & _).
  unfold NumShards.
  rewrite <- (length_fmap s_id (shardsOf st.2 to)), <- (length_fmap s_id (shardsOf st'.2 to)).
  assert (H1 : s_id <$> shardsOf st.2 to ⊆+ s_id <$> shardsOf st'.2 to).
  { apply NoDup_submseteq; [apply Hw|]. intros k. rewrite !elem_of_ids_Lookup.
    destruct (decide (k = s_id c)) as [->|Hk]; [by rewrite Hs|by rewrite HL]. }
  assert (H2 : s_id <$> shardsOf st'.2 to ⊆+ s_id c :: (s_id <$> shardsOf st.2 to)).
  { apply NoDup_submseteq; [apply Hw'|]. intros k. rewrite elem_of_cons, !elem_of_ids_Lookup.
    destruct (decide (k = s_id c)) as [->|Hk]; [by left|rewrite HL by done; by right]. }
  apply submseteq_length in H1, H2. simpl in H2. lia.
Qed.

Lemma assignTargetLoad_loop_spec fn target tl :
  mover fn ->
  forall fuel h st,
    wfStore st.2 -> is_Some (st.2 !! target) ->
    (Len h + loadElsewhere st.2 target < fuel)%nat ->
    exists st',
      assignTargetLoad_loop fuel fn target tl h st = Some st' ∧ handoffs st st' ∧
      NumShards (shardsOf st.2 target) ≤ NumShards (shardsOf st'.2 target) ∧
      NumShards (shardsOf st'.2 target) ≤ Z.max (NumShards (shardsOf st.2 target)) tl.
Proof.
  intros Hfn. induction fuel as [|fuel IH]; intros h st Hw Hv Hfuel; [lia|].
  cbn [assignTargetLoad_loop].
  destruct (bool_decide (NumShards (shardsOf st.2 target) < tl)) eqn:B1; cbn [andb negb].
  2:{ exists st. split_and!; [done|apply handoffs_refl|lia|lia]. }
  apply bool_decide_eq_true in B1.
  destruct (bool_decide (Len h = 0%nat)) eqn:B2; cbn [andb negb].
  { exists st. split_and!; [done|apply handoffs_refl|lia|lia]. }
  apply bool_decide_eq_false in B2.
  destruct (heap_Pop_contents st.2 h B2) as (x & h1 & -> & Hp).
  assert (Hlen : S (Len h1) = Len h).
  { unfold Len. by rewrite <- Hp. }
  destruct (fn x target st) as [m st1] eqn:Hf.
  destruct (Hfn _ _ _ _ _ Hw Hf) as [HF HT]. destruct m.
  - destruct HT as (c & Hc & Hm); [done|].
    pose proof (handoffs_single _ _ _ _ _ _ Hc Hv Hm) as Hh.
    destruct (moveShard_totalLoad _ _ _ _ _ Hw Hc Hv Hm) as [_ Hle].
    pose proof (moveShard_NumShards_to _ _ _ _ _ Hw Hc Hv Hm) as HN.
    destruct (IH (heap.Push st1.2 x h1) st1) as (st' & Hr & Hh' & Hlo & Hhi).
    + by eapply handoffs_wfStore.
    + by apply (handoffs_valid _ _ target Hh).
    + unfold Len in *. rewrite heap_Push_contents. simpl. lia.
    + exists st'. split_and!; [done|by eapply handoffs_trans|lia|lia].
  - rewrite HF by done. apply IH; [done|done|lia].
Qed.

Lemma loadElsewhere_le σ target : (loadElsewhere σ target ≤ totalLoad σ)%nat.
Proof.
  unfold loadElsewhere, totalLoad. induction (seq 0 (length σ)) as [|x l IH]; [done|].
  simpl. case_decide; lia.
Qed.

Lemma assignTargetLoad_spec fn fuel target st :
  mover fn -> wfStore st.2 -> is_Some (st.2 !! target) ->
  (enoughFuel st ≤ fuel)%nat ->
  exists st',
    assignTargetLoad fuel target fn st = Some st' ∧ handoffs st st' ∧
    NumShards (shardsOf st.2 target) ≤ NumShards (shardsOf st'.2 target) ∧
    NumShards (shardsOf st'.2 target)
      ≤ Z.max (NumShards (shardsOf st.2 target))
              (targetLoadForInstance st.1 (idOf st.2 target)).
Proof.
  intros Hfn Hw Hv Hfuel. unfold assignTargetLoad.
  apply assignTargetLoad_loop_spec; [done|done|done|].
  unfold Len. rewrite buildInstanceHeap_contents. unfold nonLeavingInstances.
  pose proof (length_filter (fun l => isLeavingAt st.2 l = false) (Instances st.1)).
  pose proof (loadElsewhere_le st.2 target). unfold enoughFuel in Hfuel. lia.
Qed.

End assign.

(** X10: [assignLoadToInstanceSafe] and [assignLoadToInstanceUnsafe] end:
    with as many turns as there are instances and loaded shards, plus one, the
    loop of [assignTargetLoad] reaches its exit.  The adding instance loses
    no shard and never gets more shards than its target load (or than it had,
    if that was more); the total load and the number of replicas of every
    shard are as before. *)
Theorem assignLoadToInstance_terminates
    (fuel target : nat) (t : optimizeType) (st : placementHelper * list Instance) :
  wfStore st.2 -> is_Some (st.2 !! target) -> (enoughFuel st ≤ fuel)%nat ->
  exists st',
    match t with
    | safe => assignLoadToInstanceSafe fuel target st
    | unsafe => assignLoadToInstanceUnsafe fuel target st
    end = Some st' ∧
    NumShards (shardsOf st.2 target) ≤ NumShards (shardsOf st'.2 target) ∧
    NumShards (shardsOf st'.2 target)
      ≤ Z.max (NumShards (shardsOf st.2 target))
              (targetLoadForInstance st.1 (idOf st.2 target)) ∧
    totalLoad st'.2 = totalLoad st.2 ∧
    forall k, length (replicas st'.2 k) = length (replicas st.2 k).
Proof.
  intros Hw Hv Hfuel.
  assert (H : exists st',
             match t with
             | safe => assignLoadToInstanceSafe fuel target st
             | unsafe => assignLoadToInstanceUnsafe fuel target st
             end = Some st' ∧ handoffs st st' ∧
             NumShards (shardsOf st.2 target) ≤ NumShards (shardsOf st'.2 target) ∧
             NumShards (shardsOf st'.2 target)
               ≤ Z.max (NumShards (shardsOf st.2 target))
                       (targetLoadForInstance st.1 (idOf st.2 target))).
  { destruct t.
    - apply assignTargetLoad_spec; [apply mover_moveOneShardInState|done|done|done].
    - apply assignTargetLoad_spec; [apply mover_moveOneShard|done|done|done]. }
  destruct H as (st' & Hr & Hh & Hlo & Hhi).
  destruct (handoffs_conserve _ _ Hw Hh) as [Ht Hk].
  exists st'. split_and!; done.
Qed.

Lemma assignLoadToInstance_terminates_witness :
  let st := examples.pair_start in
  exists st',
    assignLoadToInstanceUnsafe 5 1 st = Some st' ∧
    NumShards (shardsOf st'.2 1) ≤ 1 ∧ totalLoad st'.2 = 2%nat.
Proof.
  intros st.
  assert (Hw : wfStore st.2) by (apply wfStoreb_sound; vm_compute; reflexivity).
  assert (Hv : is_Some (st.2 !! 1%nat)) by (eexists; vm_compute; reflexivity).
  assert (Hf : (enoughFuel st ≤ 5)%nat).
  { assert (E : enoughFuel st = 5%nat) by (vm_compute; reflexivity). rewrite E. lia. }
  destruct (assignLoadToInstance_terminates 5 1 unsafe st Hw Hv Hf)
    as (st' & Hr & _ & Hhi & Ht & _).
  exists st'. split; [exact Hr|]. split.
  - assert (E : Z.max (NumShards (shardsOf st.2 1))
                      (targetLoadForInstance st.1 (idOf st.2 1)) = 1)
      by (vm_compute; reflexivity).
    rewrite E in Hhi. exact Hhi.
  - rewrite Ht. vm_compute. reflexivity.
Defined.

(** ** The loop of [optimize], and the operations that reclaim and return *)

Section optimize.
Implicit Types (st : placementHelper * list Instance) (s c : Shard) (σ : list Instance).

Lemma mostUnderLoadedInstance_in st ins :
  mostUnderLoadedInstance st = Some ins -> ins ∈ Instances st.1.
Proof.
  unfold mostUnderLoadedInstance, Instances.
  set (f := fun '(res, maxLoadGap) '(id, instance) =>
              let loadGap :=
                i64 (default 0 (targetLoad st.1 !! id) - loadOnInstance st.2 instance) in
              if bool_decide (maxLoadGap < loadGap) then (Some instance, loadGap)
              else (res, maxLoadGap)).
  assert (Hf : forall res m id l,
             f (res, m) (id, l) =
             if bool_decide (m < loadGap st id l) then (Some l, loadGap st id l)
             else (res, m)) by reflexivity.
  assert (H : forall (ls : list (string * nat)) (res : option nat) (m : Z) (P : nat -> Prop),
            (forall x, res = Some x -> P x) ->
            (forall y, y ∈ ls -> P y.2) ->
            forall x, (foldl f (res, m) ls).1 = Some x -> P x).
  { induction ls as [|[id l] ls IH]; intros res m P Hres Hls x; cbn [foldl]; [by apply Hres|].
    rewrite Hf. destruct (bool_decide _).
    - apply IH; [|intros y Hy; apply Hls; by right].
      intros ? [= <-]. apply (Hls (id, l)). by left.
    - apply IH; [done|]. intros y Hy. apply Hls. by right. }
  destruct (foldl f (None, 0) (instances st.1)) as [res m] eqn:E.
  destruct (bool_decide (0 < m)); [|done]. intros ->.
  apply (H (instances st.1) None 0 (fun x => x ∈ (instances st.1).*2)); [done| |by rewrite E].
  intros y Hy. by apply list_elem_of_fmap_2.
Qed.

Lemma size_list_to_set_le (l : list string) :
  (size (list_to_set l : gset string) ≤ length l)%nat.
Proof.
  induction l as [|x l IH]; [done|]. cbn [list_to_set foldr length].
  rewrite size_union_alt, size_singleton.
  assert (size (list_to_set l ∖ {[x]} : gset string) ≤ size (list_to_set l : gset string))%nat
    by (apply subseteq_size; set_solver).
  lia.
Qed.

Lemma enoughFuel_handoffs st st' : wfStore st.2 -> handoffs st st' -> enoughFuel st' = enoughFuel st.
Proof.
  intros Hw Hh. unfold enoughFuel. rewrite (handoffs_Instances _ _ Hh).
  by destruct (handoffs_conserve _ _ Hw Hh) as [-> _].
Qed.

Lemma Optimize_spec fuel t st :
  wfStore st.2 -> validLocs st.2 (Instances st.1) -> (enoughFuel st ≤ fuel)%nat ->
  exists st', Optimize fuel t st = Some st' ∧ handoffs st st'.
Proof.
  intros Hw Hv Hfuel.
  set (Q := fun st0 : placementHelper * list Instance =>
              wfStore st0.2 ∧ (enoughFuel st0 ≤ fuel)%nat).
  assert (Hgen : forall fn,
             mover fn ->
             forall fuel' uniq st0,
               Q st0 -> validLocs st0.2 (Instances st0.1) ->
               (size (list_to_set (idOf st0.2 <$> Instances st0.1) ∖ uniq : gset string)
                < fuel')%nat ->
               exists st', optimize_loop fuel' (fun ins => assignTargetLoad fuel ins fn) uniq st0
                           = Some st' ∧ handoffs st0 st').
  { intros fn Hfn. induction fuel' as [|fuel' IH]; intros uniq st0 [Hw0 Hf0] Hv0 Hsz; [lia|].
    cbn [optimize_loop].
    destruct (mostUnderLoadedInstance st0) as [ins|] eqn:Hm.
    2:{ exists st0. split; [done|apply handoffs_refl]. }
    apply mostUnderLoadedInstance_in in Hm.
    destruct (bool_decide (idOf st0.2 ins ∈ uniq)) eqn:B.
    { exists st0. split; [done|apply handoffs_refl]. }
    apply bool_decide_eq_false in B.
    destruct (assignTargetLoad_spec fn fuel ins st0 Hfn Hw0 (Hv0 _ Hm) Hf0)
      as (st1 & -> & Hh & _).
    destruct (IH ({[idOf st0.2 ins]} ∪ uniq) st1) as (st' & Hr & Hh').
    - split; [by eapply handoffs_wfStore|]. by rewrite (enoughFuel_handoffs _ _ Hw0 Hh).
    - rewrite (handoffs_Instances _ _ Hh). by eapply handoffs_validLocs.
    - rewrite (handoffs_Instances _ _ Hh).
      assert (E : idOf st1.2 <$> Instances st0.1 = idOf st0.2 <$> Instances st0.1).
      { apply list_fmap_ext. intros _ l _. by apply handoffs_idOf. }
      rewrite E.
      assert (Hsub : list_to_set (idOf st0.2 <$> Instances st0.1)
                       ∖ ({[idOf st0.2 ins]} ∪ uniq)
                     ⊂ (list_to_set (idOf st0.2 <$> Instances st0.1) ∖ uniq : gset string)).
      { apply strict_spec_alt. split; [set_solver|].
        intros Heq.
        assert (Hin : idOf st0.2 ins ∈ (list_to_set (idOf st0.2 <$> Instances st0.1)
                                        ∖ uniq : gset string)).
        { apply elem_of_difference. split; [|done].
          apply elem_of_list_to_set. by apply list_elem_of_fmap_2. }
        rewrite <- Heq in Hin. set_solver. }
      apply subset_size in Hsub. lia.
    - exists st'. split; [done|by eapply handoffs_trans]. }
  assert (Hsz : (size (list_to_set (idOf st.2 <$> Instances st.1) ∖ ∅ : gset string)
                 < fuel)%nat).
  { pose proof (size_list_to_set_le (idOf st.2 <$> Instances st.1)) as Hle.
    rewrite length_fmap in Hle.
    assert (size (list_to_set (idOf st.2 <$> Instances st.1) ∖ ∅ : gset string)
            ≤ size (list_to_set (idOf st.2 <$> Instances st.1) : gset string))%nat
      by (apply subseteq_size; set_solver).
    unfold enoughFuel in Hfuel. lia. }
  unfold Optimize, optimize, assignLoadToInstanceSafe, assignLoadToInstanceUnsafe.
  destruct t.
  - apply (Hgen _ (mover_moveOneShardInState Unknown) fuel ∅ st); done.
  - apply (Hgen _ mover_moveOneShard fuel ∅ st); done.
Qed.

Lemma reclaim_inner_handoffs id i instance ss st :
  is_Some (st.2 !! instance) ->
  NoDup (s_id <$> ss) ->
  (forall s, s ∈ ss -> candidateOn st.2 s (Some i)) ->
  handoffs st (foldl (reclaimStep id i instance) st ss).
Proof.
  revert st. induction ss as [|s ss IH]; intros st Hv HN Hc; [apply handoffs_refl|].
  csimpl in HN. apply NoDup_cons in HN as [Hs HN]. simpl.
  assert (Hcs : candidateOn st.2 s (Some i)) by (apply Hc; by left).
  unfold reclaimStep at 2. destruct (bool_decide (s_sourceID s = id)).
  - destruct (moveShard s (Some i) instance st) as [m st1] eqn:Hm. simpl.
    pose proof (handoffs_single _ _ _ _ _ _ Hcs Hv Hm) as Hh.
    eapply handoffs_trans; [exact Hh|]. apply IH; [|done|].
    + by apply (handoffs_valid _ _ instance Hh).
    + intros s' Hs'. eapply candidateOn_after_move; [exact Hcs|exact Hm| |].
      * apply Hc. by right.
      * intros E. apply Hs. rewrite <- E. by apply list_elem_of_fmap_2.
  - apply IH; [done|done|]. intros s' Hs'. apply Hc. by right.
Qed.

Lemma ReclaimLeavingShards_handoffs instance st :
  wfStore st.2 -> is_Some (st.2 !! instance) ->
  handoffs st (ReclaimLeavingShards instance st).
Proof.
  intros Hw Hv. unfold ReclaimLeavingShards. destruct (bool_decide _); [apply handoffs_refl|].
  generalize (idOf st.2 instance). intros id. generalize (Instances st.1). intros ls.
  revert st Hw Hv. induction ls as [|i ls IH]; intros st Hw Hv; [apply handoffs_refl|]. simpl.
  assert (Hm : handoffs st (foldl (reclaimStep id i instance) st
                              (ShardsForState Initializing (shardsOf st.2 i)))).
  { apply reclaim_inner_handoffs; [done|by apply ShardsForState_NoDup|].
    intros s Hs. apply candidateOn_elem; [done|].
    unfold ShardsForState in Hs. by apply list_elem_of_filter in Hs as [_ ?]. }
  eapply handoffs_trans; [exact Hm|]. apply IH.
  - by eapply handoffs_wfStore.
  - by apply (handoffs_valid _ _ instance Hm).
Qed.

Lemma AddInstance_spec fuel ins st :
  wfStore st.2 -> is_Some (st.2 !! ins) -> (enoughFuel st ≤ fuel)%nat ->
  exists st', AddInstance fuel ins st = Some st' ∧ handoffs st st'.
Proof.
  intros Hw Hv Hfuel. unfold AddInstance, assignLoadToInstanceUnsafe.
  pose proof (ReclaimLeavingShards_handoffs ins st Hw Hv) as Hh.
  destruct (assignTargetLoad_spec (fun from to => moveOneShard from to) fuel ins
              (ReclaimLeavingShards ins st)) as (st' & Hr & Hh' & _).
  - apply mover_moveOneShard.
  - by eapply handoffs_wfStore.
  - by apply (handoffs_valid _ _ ins Hh).
  - by rewrite (enoughFuel_handoffs _ _ Hw Hh).
  - exists st'. split; [done|by eapply handoffs_trans].
Qed.

Lemma returnStep_handoff_cases cm (f : nat) ws st s :
  returnStep cm f (ws, st) s = (ws, st) ∨
  exists src st1,
    cm !! s_sourceID s = Some src ∧
    moveShard s (Some f) src st = (true, st1) ∧
    returnStep cm f (ws, st) s = (Remove (s_id s) ws, st1).
Proof.
  unfold returnStep.
  destruct (negb _); [by left|].
  destruct (bool_decide (s_sourceID s = "")); [by left|].
  destruct (cm !! s_sourceID s) as [src|]; [|by left].
  destruct (isLeavingAt st.2 src); [by left|].
  destruct (moveShard s (Some f) src st) as [m st1] eqn:Hm. destruct m.
  - right. eauto.
  - apply moveShard_false in Hm as [-> _]. by left.
Qed.

Lemma returnStep_handoffs cm (f : nat) todo ws st :
  (forall id x, cm !! id = Some x -> is_Some (st.2 !! x)) ->
  NoDup (s_id <$> todo) ->
  (forall s, s ∈ todo -> s ∈ ws) ->
  wfShards ws ->
  (forall s, s ∈ ws -> candidateOn st.2 s (Some f)) ->
  handoffs st (foldl (returnStep cm f) (ws, st) todo).2.
Proof.
  revert ws st. induction todo as [|s todo IH]; intros ws st Hcm HN Hin Hw Hc; cbn [foldl].
  { apply handoffs_refl. }
  csimpl in HN. apply NoDup_cons in HN as [Hs HN].
  assert (Hrest : forall s', s' ∈ todo -> s_id s' ≠ s_id s).
  { intros s' Hs' E. apply Hs. rewrite <- E. by apply list_elem_of_fmap_2. }
  destruct (returnStep_handoff_cases cm f ws st s) as [->|(src & st1 & Hsrc & Hm & ->)].
  { apply IH; auto. intros s' Hs'. apply Hin. by right. }
  assert (Hcs : candidateOn st.2 s (Some f)) by (apply Hc, Hin; by left).
  pose proof (handoffs_single _ _ _ _ _ _ Hcs (Hcm _ _ Hsrc) Hm) as Hh.
  eapply handoffs_trans; [exact Hh|]. apply IH.
  - intros id x Hx. apply (handoffs_valid _ _ x Hh). by eapply Hcm.
  - done.
  - intros s' Hs'. apply Remove_elem. split; [apply Hin; by right|by apply Hrest].
  - by apply wfShards_Remove.
  - intros s' [Hs' Hne]%Remove_elem.
    eapply candidateOn_after_move; [exact Hcs|exact Hm|by apply Hc|done].
Qed.

Lemma ReturnInitializingShards_handoffs instance st :
  wfStore st.2 -> validLocs st.2 (Instances st.1) ->
  handoffs st (ReturnInitializingShards instance st).
Proof.
  intros Hw Hv. unfold ReturnInitializingShards, returnInitializingShardsToSource.
  apply returnStep_handoffs.
  - intros id x [Hx _]%candidateMapOf_lookup. by apply Hv.
  - apply getShardMap_wf.
  - done.
  - apply getShardMap_wf.
  - intros s Hs%getShardMap_elem. by apply candidateOn_elem.
Qed.

End optimize.

(** X11: [Optimize] ends, whichever the type: with as many turns as there are
    instances and loaded shards, plus one, both its own loop and the loop of
    every [assignTargetLoad] it starts reach their exit.  The result has the
    instances, the total load and, for every shard, the number of replicas
    of the start. *)
Theorem Optimize_terminates
    (fuel : nat) (t : optimizeType) (st : placementHelper * list Instance) :
  wfStore st.2 -> validLocs st.2 (Instances st.1) -> (enoughFuel st ≤ fuel)%nat ->
  exists st',
    Optimize fuel t st = Some st' ∧
    Instances st'.1 = Instances st.1 ∧
    totalLoad st'.2 = totalLoad st.2 ∧
    forall k, length (replicas st'.2 k) = length (replicas st.2 k).
Proof.
  intros Hw Hv Hfuel.
  destruct (Optimize_spec fuel t st Hw Hv Hfuel) as (st' & Hr & Hh).
  destruct (handoffs_conserve _ _ Hw Hh) as [Ht Hk].
  exists st'. split_and!; [done|by apply handoffs_Instances|done|done].
Qed.

Lemma Optimize_terminates_witness :
  let st := examples.pair_start in
  exists st', Optimize 5 unsafe st = Some st' ∧ totalLoad st'.2 = 2%nat.
Proof.
  intros st.
  assert (Hw : wfStore st.2) by (apply wfStoreb_sound; vm_compute; reflexivity).
  assert (Hv : validLocs st.2 (Instances st.1)).
  { intros l Hl. apply lookup_lt_is_Some.
    assert (E : Instances st.1 = [0%nat; 1%nat]) by (vm_compute; reflexivity).
    rewrite E in Hl. assert (E2 : length st.2 = 2%nat) by (vm_compute; reflexivity).
    rewrite E2. clear - Hl. apply elem_of_cons in Hl as [->|Hl]; [lia|].
    apply list_elem_of_singleton in Hl as ->. lia. }
  assert (Hf : (enoughFuel st ≤ 5)%nat).
  { assert (E : enoughFuel st = 5%nat) by (vm_compute; reflexivity). rewrite E. lia. }
  destruct (Optimize_terminates 5 unsafe st Hw Hv Hf) as (st' & Hr & _ & Ht & _).
  exists st'. split; [exact Hr|]. rewrite Ht. vm_compute. reflexivity.
Defined.

(** X12: [AddInstance] ends: with as many turns as there are instances and
    loaded shards, plus one, the loop of its [assignTargetLoad] reaches its
    exit after the shards have been reclaimed.  It conserves the total load
    and, for every shard, the number of replicas. *)
Theorem AddInstance_terminates
    (fuel addingInstance : nat) (st : placementHelper * list Instance) :
  wfStore st.2 -> is_Some (st.2 !! addingInstance) -> (enoughFuel st ≤ fuel)%nat ->
  exists st',
    AddInstance fuel addingInstance st = Some st' ∧
    totalLoad st'.2 = totalLoad st.2 ∧
    forall k, length (replicas st'.2 k) = length (replicas st.2 k).
Proof.
  intros Hw Hv Hfuel.
  destruct (AddInstance_spec fuel addingInstance st Hw Hv Hfuel) as (st' & Hr & Hh).
  destruct (handoffs_conserve _ _ Hw Hh) as [Ht Hk].
  exists st'. split_and!; done.
Qed.

Lemma AddInstance_terminates_witness :
  let st := (examples.moveout_ph, examples.moveout_store) in
  exists st', AddInstance 7 0 st = Some st' ∧ totalLoad st'.2 = 3%nat.
Proof.
  intros st.
  assert (Hw : wfStore st.2) by (apply wfStoreb_sound; vm_compute; reflexivity).
  assert (Hv : is_Some (st.2 !! 0%nat)) by (eexists; vm_compute; reflexivity).
  assert (Hf : (enoughFuel st ≤ 7)%nat).
  { assert (E : enoughFuel st = 7%nat) by (vm_compute; reflexivity). rewrite E. lia. }
  destruct (AddInstance_terminates 7 0 st Hw Hv Hf) as (st' & Hr & Ht & _).
  exists st'. split; [exact Hr|]. rewrite Ht. vm_compute. reflexivity.
Defined.

(** X13: [ReclaimLeavingShards] and [ReturnInitializingShards] only hand
    shards over: they conserve the total load and, for every shard, the number
    of instances that own it in a state other than Leaving. *)
Theorem reclaim_and_return_conserve
    (instance : nat) (st : placementHelper * list Instance) :
  wfStore st.2 -> validLocs st.2 (Instances st.1) -> is_Some (st.2 !! instance) ->
  (totalLoad (ReclaimLeavingShards instance st).2 = totalLoad st.2 ∧
   forall k, length (replicas (ReclaimLeavingShards instance st).2 k)
             = length (replicas st.2 k)) ∧
  (totalLoad (ReturnInitializingShards instance st).2 = totalLoad st.2 ∧
   forall k, length (replicas (ReturnInitializingShards instance st).2 k)
             = length (replicas st.2 k)).
Proof.
  intros Hw Hv Hi. split.
  - apply handoffs_conserve; [done|]. by apply ReclaimLeavingShards_handoffs.
  - apply handoffs_conserve; [done|]. by apply ReturnInitializingShards_handoffs.
Qed.

Lemma reclaim_and_return_conserve_witness :
  let st := (examples.moveout_ph, examples.moveout_store) in
  ReclaimLeavingShards 0 st ≠ st ∧
  length (replicas (ReclaimLeavingShards 0 st).2 1) = 1%nat ∧
  length (replicas (ReturnInitializingShards 1 st).2 1) = 1%nat.
Proof.
  intros st.
  assert (Hw : wfStore st.2) by (apply wfStoreb_sound; vm_compute; reflexivity).
  assert (Hv : validLocs st.2 (Instances st.1)).
  { intros l Hl. apply lookup_lt_is_Some.
    assert (E : Instances st.1 = [0%nat; 1%nat; 2%nat]) by (vm_compute; reflexivity).
    assert (E2 : length st.2 = 3%nat) by (vm_compute; reflexivity). rewrite E2.
    rewrite E in Hl. clear - Hl. apply elem_of_cons in Hl as [->|Hl]; [lia|].
    apply elem_of_cons in Hl as [->|Hl]; [lia|].
    apply list_elem_of_singleton in Hl as ->. lia. }
  assert (Hi0 : is_Some (st.2 !! 0%nat)) by (eexists; vm_compute; reflexivity).
  assert (Hi1 : is_Some (st.2 !! 1%nat)) by (eexists; vm_compute; reflexivity).
  destruct (reclaim_and_return_conserve 0 st Hw Hv Hi0) as [[_ H1] _].
  destruct (reclaim_and_return_conserve 1 st Hw Hv Hi1) as [_ [_ H2]].
  split.
  - intros E. apply (f_equal (fun x => shardsOf x.2 0)) in E. vm_compute in E. discriminate E.
  - split; [rewrite H1|rewrite H2]; vm_compute; reflexivity.
Defined.

(** * Building a helper and generating a placement *)

Section scan.
Implicit Types (st : placementHelper * list Instance) (s c : Shard) (σ : list Instance)
  (ph : placementHelper).

Lemma Add_self s ss : wfShards ss -> s ∈ ss -> Add s ss = ss.
Proof.
  unfold wfShards. induction ss as [|x ss IH]; csimpl; [by intros _ ?%elem_of_nil|].
  rewrite NoDup_cons. intros [Hx HN] [->|Hs]%elem_of_cons.
  - by rewrite decide_True.
  - rewrite decide_False; [by rewrite IH|].
    intros E. apply Hx. rewrite E. by apply list_elem_of_fmap_2.
Qed.

Lemma updShards_same l f σ : f (shardsOf σ l) = shardsOf σ l -> updShards l f σ = σ.
Proof.
  unfold updShards, shardsOf. destruct (σ !! l) as [i|] eqn:E; [|done]. simpl.
  intros ->. apply list_insert_id. rewrite E. by destruct i.
Qed.

Lemma nonLeavingOwner_elem σ l k :
  wfStore σ ->
  nonLeavingOwner σ l k <-> exists s, s ∈ shardsOf σ l ∧ s_id s = k ∧ s_state s ≠ Leaving.
Proof.
  intros Hw. split.
  - intros (s & Hs & Hn). exists s. split_and!; [by eapply Lookup_Some_elem| |done].
    by eapply Lookup_Some_id.
  - intros (s & Hs & <- & Hn). exists s. split; [|done]. by apply Lookup_elem.
Qed.

(** The inner loop of [scanCurrentLoad], over shards that the instance
    stores. *)
Lemma scan_shards_exact l ss ph σ :
  wfShards (shardsOf σ l) ->
  (forall s, s ∈ ss -> s ∈ shardsOf σ l) ->
  let st' := foldl (fun st s => if bool_decide (s_state s = Leaving) then st
                                else assignShardToInstance s l st) (ph, σ) ss in
  st'.2 = σ ∧ sameConfig ph st'.1 ∧
  forall x k, x ∈ ownersOf st'.1 k <->
    x ∈ ownersOf ph k ∨ (x = l ∧ exists s, s ∈ ss ∧ s_id s = k ∧ s_state s ≠ Leaving).
Proof.
  intros Hw. revert ph. induction ss as [|s ss IH]; intros ph Hin; cbn [foldl]; cbv zeta.
  { split_and!; [done|by unfold sameConfig|]. intros x k. split; [by left|].
    intros [?|[_ (s & ?%elem_of_nil & _)]]; done. }
  assert (Hrest : forall s', s' ∈ ss -> s' ∈ shardsOf σ l) by (intros; apply Hin; by right).
  destruct (bool_decide (s_state s = Leaving)) eqn:B.
  - apply bool_decide_eq_true in B.
    pose proof (IH ph Hrest) as IH'. cbv zeta in IH'.
    destruct IH' as (E1 & E2 & E3). split_and!; [done|done|].
    intros x k. rewrite E3. split.
    + intros [?|[-> (s' & Hs' & ? & ?)]]; [by left|right]. split; [done|].
      exists s'. split; [by right|done].
    + intros [?|[-> (s' & [->|Hs']%elem_of_cons & ? & ?)]]; [by left|done|right].
      split; [done|]. by exists s'.
  - apply bool_decide_eq_false in B.
    assert (E0 : assignShardToInstance s l (ph, σ) =
                 (setIndex (<[s_id s := ownersOf ph (s_id s) ∪ {[l]}]> (shardToInstanceMap ph))
                           ph, σ)).
    { unfold assignShardToInstance.
      by rewrite updShards_same by (apply Add_self; [done|apply Hin; by left]). }
    rewrite E0.
    match goal with |- context [foldl _ (?p, σ) ss] => pose proof (IH p Hrest) as IH' end.
    cbv zeta in IH'. destruct IH' as (E1 & E2 & E3).
    split_and!; [done| |].
    + eapply sameConfig_trans; [|exact E2]. by unfold sameConfig.
    + intros x k. rewrite E3, ownersOf_insert. split.
      * intros [Hx|[-> (s' & Hs' & ? & ?)]].
        -- destruct (decide (s_id s = k)) as [<-|]; [|by left].
           apply elem_of_union in Hx as [?|Hx]; [by left|right].
           apply elem_of_singleton in Hx as ->.
           split; [done|]. exists s. split; [by left|done].
        -- right. split; [done|]. exists s'. split; [by right|done].
      * intros [Hx|[-> (s' & [->|Hs']%elem_of_cons & Hk & Hn)]].
        -- left. case_decide; [subst; set_solver|done].
        -- left. rewrite decide_True by done. set_solver.
        -- right. split; [done|]. by exists s'.
Qed.

Lemma scanInstance_exact ph σ tw l :
  wfStore σ ->
  let r := scanInstance ((ph, σ), tw) l in
  r.1.2 = σ ∧
  instances r.1.1 = instances ph ∧ rf r.1.1 = rf ph ∧ uniqueShards r.1.1 = uniqueShards ph ∧
  opts r.1.1 = opts ph ∧ targetLoad r.1.1 = targetLoad ph ∧
  (forall x k, x ∈ ownersOf r.1.1 k <-> x ∈ ownersOf ph k ∨ (x = l ∧ nonLeavingOwner σ l k)) ∧
  (forall x rack, x ∈ default ∅ (rackToInstancesMap r.1.1 !! rack) <->
     x ∈ default ∅ (rackToInstancesMap ph !! rack) ∨ (x = l ∧ rackOf σ l = rack)).
Proof.
  intros Hw. unfold scanInstance.
  assert (Hr2i : forall x rack,
             x ∈ default ∅ (<[rackOf σ l := default ∅ (rackToInstancesMap ph !! rackOf σ l)
                                              ∪ {[l]}]> (rackToInstancesMap ph) !! rack) <->
             x ∈ default ∅ (rackToInstancesMap ph !! rack) ∨ (x = l ∧ rackOf σ l = rack)).
  { intros x rack. destruct (decide (rackOf σ l = rack)) as [<-|NE].
    - rewrite lookup_insert_eq. simpl. set_solver.
    - rewrite lookup_insert_ne by done. split; [by left|]. intros [?|[_ ?]]; done. }
  destruct (isLeavingAt σ l) eqn:Hlv.
  - cbv zeta. simpl. split_and!; try done.
    intros x k. split; [by left|]. intros [?|[-> Ho]]; [done|].
    apply nonLeavingOwner_not_leaving in Ho. congruence.
  - cbv zeta.
    match goal with |- context [foldl ?f (?p, σ) (All (shardsOf σ l))] =>
      pose proof (scan_shards_exact l (All (shardsOf σ l)) p σ (Hw l) ltac:(done)) as Hsh;
      destruct (foldl f (p, σ) (All (shardsOf σ l))) as [ph1 σ1] end.
    cbv zeta in Hsh. simpl in Hsh. destruct Hsh as (-> & Hc & Hown).
    destruct Hc as (E1 & E2 & _ & _ & E5 & E6 & E7 & E8). simpl in *.
    split_and!; try done.
    + intros x k. rewrite Hown. unfold ownersOf at 2. simpl.
      fold (ownersOf ph k). by rewrite nonLeavingOwner_elem.
    + intros x rack. rewrite E2. apply Hr2i.
Qed.

Lemma scan_fold_exact ls ph σ tw :
  wfStore σ ->
  let r := foldl scanInstance ((ph, σ), tw) ls in
  r.1.2 = σ ∧
  instances r.1.1 = instances ph ∧ rf r.1.1 = rf ph ∧ uniqueShards r.1.1 = uniqueShards ph ∧
  opts r.1.1 = opts ph ∧ targetLoad r.1.1 = targetLoad ph ∧
  (forall x k, x ∈ ownersOf r.1.1 k <-> x ∈ ownersOf ph k ∨ (x ∈ ls ∧ nonLeavingOwner σ x k)) ∧
  (forall x rack, x ∈ default ∅ (rackToInstancesMap r.1.1 !! rack) <->
     x ∈ default ∅ (rackToInstancesMap ph !! rack) ∨ (x ∈ ls ∧ rackOf σ x = rack)).
Proof.
  intros Hw. revert ph tw. induction ls as [|l ls IH]; intros ph tw; cbn [foldl]; cbv zeta.
  { simpl. split_and!; try done.
    - intros x k. split; [by left|]. intros [?|[?%elem_of_nil _]]; done.
    - intros x k. split; [by left|]. intros [?|[?%elem_of_nil _]]; done. }
  pose proof (scanInstance_exact ph σ tw l Hw) as H1. cbv zeta in H1.
  destruct (scanInstance (ph, σ, tw) l) as [[ph1 σ1] tw1]. simpl in H1.
  destruct H1 as (-> & E1 & E2 & E3 & E4 & E5 & Ho & Hr).
  specialize (IH ph1 tw1). cbv zeta in IH.
  destruct IH as (F0 & F1 & F2 & F3 & F4 & F5 & Fo & Fr).
  split_and!; try congruence.
  - intros x k. rewrite Fo, Ho. rewrite elem_of_cons. split.
    + intros [[?|[-> ?]]|[? ?]]; [by left|right; split; [by left|done]|right; split; [by right|done]].
    + intros [?|[[->|?] ?]]; [by left; left|left; right; done|by right].
  - intros x k. rewrite Fr, Hr. rewrite elem_of_cons. split.
    + intros [[?|[-> ?]]|[? ?]]; [by left|right; split; [by left|done]|right; split; [by right|done]].
    + intros [?|[[->|?] ?]]; [by left; left|left; right; done|by right].
Qed.

End scan.

(** X14: on shard sets of distinct ids, [scanCurrentLoad] leaves every
    instance as it is and builds exact indexes: the owners recorded for a
    shard are the instances of the helper that hold it in a state other than
    Leaving, and the instances recorded for a rack are the instances of the
    helper on that rack, leaving ones included.  The instances, the replica
    factor, the shard ids, the options and the target loads stay. *)
Theorem scanCurrentLoad_index (ph0 : placementHelper) (σ : list Instance) :
  wfStore σ ->
  let st := scanCurrentLoad (ph0, σ) in
  st.2 = σ ∧
  (forall l k, l ∈ ownersOf st.1 k <-> l ∈ Instances ph0 ∧ nonLeavingOwner σ l k) ∧
  (forall l rack, l ∈ default ∅ (rackToInstancesMap st.1 !! rack) <->
     l ∈ Instances ph0 ∧ rackOf σ l = rack) ∧
  instances st.1 = instances ph0 ∧ rf st.1 = rf ph0 ∧ uniqueShards st.1 = uniqueShards ph0 ∧
  opts st.1 = opts ph0 ∧ targetLoad st.1 = targetLoad ph0.
Proof.
  intros Hw. unfold scanCurrentLoad.
  set (ph1 := setScan ∅ ∅ ∅ (totalWeight ph0) ph0).
  change (Instances ph1) with (Instances ph0).
  pose proof (scan_fold_exact (Instances ph0) ph1 σ 0 Hw) as H. cbv zeta in H.
  destruct (foldl scanInstance (ph1, σ, 0) (Instances ph0)) as [[ph' σ'] tw]. simpl in H.
  destruct H as (-> & E1 & E2 & E3 & E4 & E5 & Ho & Hr). cbv zeta. simpl.
  split_and!; try done.
  - intros l k. unfold ownersOf at 1. simpl. fold (ownersOf ph' k). rewrite Ho.
    unfold ownersOf, ph1. simpl. rewrite lookup_empty. simpl. set_solver.
  - intros l rack. rewrite Hr. unfold ph1. simpl. rewrite lookup_empty. simpl. set_solver.
Qed.

Lemma scanCurrentLoad_index_witness :
  let st := scanCurrentLoad (examples.moveout_ph, examples.moveout_store) in
  st.2 = examples.moveout_store ∧ (1%nat ∈ ownersOf st.1 1) ∧ (0%nat ∉ ownersOf st.1 1).
Proof.
  intros st.
  assert (Hw : wfStore examples.moveout_store) by (apply wfStoreb_sound; vm_compute; reflexivity).
  destruct (scanCurrentLoad_index examples.moveout_ph examples.moveout_store Hw)
    as (Hs & Ho & _).
  split; [exact Hs|]. split.
  - apply Ho. split; [right; left|].
    exists (mkShard 1 Initializing "a" 0 0). split; [reflexivity|discriminate].
  - intros Hin. apply Ho in Hin as [_ (s & Hl & Hn)]. apply Hn.
    change (Some (mkShard 1 Leaving "" 0 7) = Some s) in Hl. injection Hl as <-. reflexivity.
Defined.

(** ** [newHelper] *)

Section new_helper.
Implicit Types (st : placementHelper * list Instance) (s c : Shard) (σ : list Instance)
  (ph : placementHelper).





End new_helper.

(** ** Replacing two instances at once *)

Section replace_example.













End replace_example.



